(** * event-bus: the event lifecycle, the type keys and the dispatch engine

    A shallow embedding of [Event.ts], [EventListener.ts] and [EventBus.ts]
    (of the two copies of the bus, the one that exports [root], which is
    the one [Event.ts] imports).  Objects live in a heap indexed by
    references; methods are state transformers over that heap; a listener
    callback is an arbitrary function on the heap that either returns or
    throws. *)

From stdpp Require Import gmap strings list fin_maps functions pretty sorting.
From Stdlib Require Import ZArith Lia.

Open Scope Z_scope.

(** ** References and values *)

(** A JavaScript [Symbol]: symbols are allocated from a counter, so two
    symbols are the same exactly when their numbers are. *)
Abbreviation Sym := N (only parsing).
Abbreviation EvId := nat (only parsing).
Abbreviation LId := nat (only parsing).
Abbreviation BusId := nat (only parsing).

(** [export const root = Symbol("Event [root]")] is the first symbol made. *)
Definition root : Sym := 0%N.

(** A class of event: [Event] itself, or [class n extends super]. *)
Inductive Class : Type :=
| EventC
| Extends (n : nat) (super : Class).

(** A constructor function: [Object], or an event class. *)
Inductive Ctor : Type :=
| ObjectC
| Cls (c : Class).

#[global] Instance Class_eq_dec : EqDecision Class.
Proof. solve_decision. Defined.

#[global] Instance Ctor_eq_dec : EqDecision Ctor.
Proof. solve_decision. Defined.

(** Payload values of the free-form fields of an event. *)
Inductive Value : Type :=
| VUndefined
| VBool (b : bool)
| VNum (z : Z)
| VStr (s : string)
| VEvent (e : EvId).

(** What a [throw] carries. *)
Inductive Exn : Type :=
| Error (msg : string)
| TypeError
| Raised (v : Value).

(** ** EventStatus *)

Record EventStatus : Type := mkStatus {
  finished : bool;
  aborted : bool;
  stopped : bool
}.

Definition RUNNING : EventStatus := mkStatus false false false.
Definition FINISHED : EventStatus := mkStatus true false false.
Definition STOPPED : EventStatus := mkStatus true false true.
Definition ABORTED : EventStatus := mkStatus true true false.

#[global] Instance EventStatus_eq_dec : EqDecision EventStatus.
Proof. solve_decision. Defined.

(** ** EventState: the sealed, non-enumerable slot [this[$]] *)

Record EventState : Type := mkState {
  status : EventStatus;
  reason : option string;
  parent : option EvId;
  depth : nat;
  deliveries : list LId;
  bus : BusId
}.

(** ** The event object

    [promise] and [resolver] are ordinary own fields.  Every promise and
    every resolver closure of the program is made by the constructor of
    some event (lines 41-43), so each is named by that event: [promise o = p]
    says that field [promise] of [o] holds the promise made when [p] was
    constructed; [resolver o = p] that field [resolver] holds the closure
    made then, whose [this] is [p] and whose [resolve]/[reject] settle
    the promise of [p].  [fields] holds the other own properties, the
    payload that [with], [write] and [delete] work on. *)
Record EventObj : Type := mkEvent {
  class : Class;
  state : EventState;
  promise : EvId;
  resolver : EvId;
  fields : gmap string Value
}.

(** The state of a promise. A rejection carries [this[$].reason], which
    may be undefined. *)
Inductive Promise : Type :=
| Pending
| Resolved (e : EvId)
| Rejected (r : option string).

#[global] Instance Promise_eq_dec : EqDecision Promise.
Proof. solve_decision. Defined.

(** ** EventListener and EventBus objects *)

Record EventListener : Type := mkListener {
  l_name : option string;
  l_owner : option string;
  _nice : Z;
  l_channels : list Sym
}.

Record EventBus : Type := mkBus {
  name : string;
  channels : gmap N (list nat);
  hierarchy : gmap N (list N)
}.

(** ** The heap *)

Record Heap : Type := mkHeap {
  statics : Ctor → option Sym;
  next_symbol : Sym;
  events : EvId → EventObj;
  next_event : EvId;
  promises : EvId → Promise;
  listeners : LId → EventListener;
  next_listener : LId;
  buses : BusId → EventBus;
  next_bus : BusId
}.

(** The outcome of running a callback: the heap it leaves, and whether it
    returned or threw. *)
Inductive Completion : Type :=
| Normal (h : Heap)
| Throw (x : Exn) (h : Heap).

Abbreviation EventConsumer := (EvId → Heap → Completion) (only parsing).

(** What the dispatch lets the outside see: each call of a listener's
    callback, each [console.error], each call of the bus's log consumer. *)
Inductive Output : Type :=
| Invoked (l : LId) (e : EvId)
| ConsoleError (x : Exn) (l : LId) (e : EvId)
| Logged (b : BusId) (e : EvId).

(** The heap, the code held by fields of function type (the [callback]
    of each listener, the [log] consumer of each bus), and the outputs so
    far. *)
Record World : Type := mkWorld {
  heap : Heap;
  callback : LId → EventConsumer;
  logger : BusId → EventConsumer;
  trace : list Output
}.

(** ** The method monad: state, exceptions *)

Inductive Result (A : Type) : Type :=
| Ret (a : A) (w : World)
| Exc (x : Exn) (w : World)
| OutOfModel.

Arguments Ret {A} a w.
Arguments Exc {A} x w.
Arguments OutOfModel {A}.

Definition M (A : Type) : Type := World → Result A.

Definition ret {A} (a : A) : M A := λ w, Ret a w.

Definition bind {A B} (m : M A) (k : A → M B) : M B := λ w,
  match m w with
  | Ret a w' => k a w'
  | Exc x w' => Exc x w'
  | OutOfModel => OutOfModel
  end.

Definition throw {A} (x : Exn) : M A := λ w, Exc x w.

Definition try_catch {A} (body : M A) (handler : Exn → M A) : M A := λ w,
  match body w with
  | Ret a w' => Ret a w'
  | Exc x w' => handler x w'
  | OutOfModel => OutOfModel
  end.

Definition get_heap : M Heap := λ w, Ret (heap w) w.

Definition modify_heap (f : Heap → Heap) : M unit := λ w,
  Ret tt (mkWorld (f (heap w)) (callback w) (logger w) (trace w)).

Definition output (o : Output) : M unit := λ w,
  Ret tt (mkWorld (heap w) (callback w) (logger w) (trace w ++ [o])).

Notation "'do' x <- m ; k" := (bind m (λ x, k))
  (at level 10, x name, m at level 100, k at level 200, only parsing).
Notation "'run' m ; k" := (bind m (λ _, k))
  (at level 10, m at level 100, k at level 200, only parsing).

(** ** Heap updates *)

Definition set_statics (f : Ctor → option Sym) (n : Sym) (h : Heap) : Heap :=
  mkHeap f n (events h) (next_event h) (promises h)
         (listeners h) (next_listener h) (buses h) (next_bus h).

Definition set_event (e : EvId) (o : EventObj) (h : Heap) : Heap :=
  mkHeap (statics h) (next_symbol h) (<[e := o]> (events h)) (next_event h)
         (promises h) (listeners h) (next_listener h) (buses h) (next_bus h).

Definition set_promise (p : EvId) (v : Promise) (h : Heap) : Heap :=
  mkHeap (statics h) (next_symbol h) (events h) (next_event h)
         (<[p := v]> (promises h)) (listeners h) (next_listener h)
         (buses h) (next_bus h).

Definition set_listener (l : LId) (o : EventListener) (h : Heap) : Heap :=
  mkHeap (statics h) (next_symbol h) (events h) (next_event h) (promises h)
         (<[l := o]> (listeners h)) (next_listener h) (buses h) (next_bus h).

Definition set_bus (b : BusId) (o : EventBus) (h : Heap) : Heap :=
  mkHeap (statics h) (next_symbol h) (events h) (next_event h) (promises h)
         (listeners h) (next_listener h) (<[b := o]> (buses h)) (next_bus h).

Definition with_state (s : EventState) (o : EventObj) : EventObj :=
  mkEvent (class o) s (promise o) (resolver o) (fields o).

(** [this[$]] of event [e]. *)
Definition slot (h : Heap) (e : EvId) : EventState := state (events h e).

Definition set_slot (e : EvId) (s : EventState) (h : Heap) : Heap :=
  set_event e (with_state s (events h e)) h.

Definition set_status (e : EvId) (st : EventStatus) (h : Heap) : Heap :=
  let s := slot h e in
  set_slot e (mkState st (reason s) (parent s) (depth s) (deliveries s) (bus s)) h.

Definition set_reason (e : EvId) (r : option string) (h : Heap) : Heap :=
  let s := slot h e in
  set_slot e (mkState (status s) r (parent s) (depth s) (deliveries s) (bus s)) h.

Definition set_channels (b : BusId) (k : Sym) (ls : list LId) (h : Heap) : Heap :=
  let o := buses h b in
  set_bus b (mkBus (name o) (<[k := ls]> (channels o)) (hierarchy o)) h.

Definition set_hierarchy (b : BusId) (k : Sym) (ks : list Sym) (h : Heap) : Heap :=
  let o := buses h b in
  set_bus b (mkBus (name o) (channels o) (<[k := ks]> (hierarchy o))) h.

(** A method that cannot throw, run on the heap of the world. *)
Definition lift {A} (f : Heap → A * Heap) : M A := λ w,
  let (a, h) := f (heap w) in Ret a (mkWorld h (callback w) (logger w) (trace w)).

(** ** Event.ts *)

(** [this[key]] for a class: its own static slot, or else the slot found
    along the chain of constructors it extends. *)
Fixpoint static_slot (st : Ctor → option Sym) (c : Class) : option Sym :=
  match st (Cls c) with
  | Some k => Some k
  | None =>
      match c with
      | EventC => None
      | Extends _ super => static_slot st super
      end
  end.

Definition read_key_slot (st : Ctor → option Sym) (this : Ctor) : option Sym :=
  match this with
  | ObjectC => st ObjectC
  | Cls c => static_slot st c
  end.

(** [static key()]: a symbol is truthy, so [!this[key]] holds exactly when
    the lookup finds no slot; the assignment then makes an own slot. *)
Definition Event_key_static (this : Ctor) (h : Heap) : Sym * Heap :=
  match read_key_slot (statics h) this with
  | Some k => (k, h)
  | None =>
      let k := next_symbol h in
      (k, set_statics (<[this := Some k]> (statics h)) (N.succ k) h)
  end.

(** [key()] of an instance: [this.constructor.key()]. *)
Definition Event_key (e : EvId) (h : Heap) : Sym * Heap :=
  Event_key_static (Cls (class (events h e))) h.

(** [EventBus.GLOBAL] is the first bus made. *)
Definition GLOBAL : BusId := 0%nat.

(** [new C()] for an event class [C]: the sealed state, then a pending
    promise and its resolver, both made here and named by the new event. *)
Definition Event_new (c : Class) (h : Heap) : EvId * Heap :=
  let e := next_event h in
  let o := mkEvent c (mkState RUNNING None None 0 [] GLOBAL) e e ∅ in
  (e, mkHeap (statics h) (next_symbol h) (<[e := o]> (events h)) (S e)
             (<[e := Pending]> (promises h)) (listeners h) (next_listener h)
             (buses h) (next_bus h)).

(** The own enumerable properties of an object passed to [Object.assign]. *)
Record Props : Type := mkProps {
  p_promise : option EvId;
  p_resolver : option EvId;
  p_fields : gmap string Value
}.

(** Of an event, [promise], [resolver] and the payload fields are own and
    enumerable; the slot [$] is defined with [enumerable: false]. *)
Definition own_enumerable (o : EventObj) : Props :=
  mkProps (Some (promise o)) (Some (resolver o)) (fields o).

(** [Object.assign(target, source)] *)
Definition assign (target : EventObj) (source : Props) : EventObj :=
  mkEvent (class target) (state target)
          (default (promise target) (p_promise source))
          (default (resolver target) (p_resolver source))
          (p_fields source ∪ fields target).

(** [with(...props)]: [Object.assign(this, ...props)] *)
Definition Event_with (e : EvId) (props : list Props) (h : Heap) : Heap :=
  set_event e (foldl assign (events h e) props) h.

(** [parent(parent)], the setter *)
Definition Event_set_parent (e : EvId) (p : EvId) (h : Heap) : Heap :=
  let s := slot h e in
  let h1 := set_slot e (mkState (status s) (reason s) (Some p) (depth s)
                                (deliveries s) (bus s)) h in
  let s1 := slot h1 e in
  set_slot e (mkState (status s1) (reason s1) (parent s1)
                      (depth (slot h1 p) + 1)%nat (deliveries s1) (bus s1)) h1.

Definition Event_parent (e : EvId) (h : Heap) : option EvId := parent (slot h e).

(** [inherit(parent)]: [this.parent(parent).with(parent)] *)
Definition Event_inherit (e : EvId) (p : EvId) (h : Heap) : Heap :=
  let h1 := Event_set_parent e p h in
  Event_with e [own_enumerable (events h1 p)] h1.

(** [bus(bus)], the setter, and [bus()] *)
Definition Event_set_bus (e : EvId) (b : BusId) (h : Heap) : Heap :=
  let s := slot h e in
  set_slot e (mkState (status s) (reason s) (parent s) (depth s)
                      (deliveries s) b) h.

Definition Event_bus (e : EvId) (h : Heap) : BusId := bus (slot h e).

Definition Event_resolution (e : EvId) (h : Heap) : EvId := promise (events h e).

(** A promise is settled once: [resolve] and [reject] do nothing later. *)
Definition settle (p : EvId) (v : Promise) (h : Heap) : Heap :=
  match promises h p with
  | Pending => set_promise p v h
  | _ => h
  end.

(** The closure [success => success ? resolve(this) : reject(this[$].reason)]
    made by the constructor of [r]. *)
Definition call_resolver (r : EvId) (success : bool) (h : Heap) : Heap :=
  if success then settle r (Resolved r) h
  else settle r (Rejected (reason (slot h r))) h.

Definition Event_finish (e : EvId) (h : Heap) : Heap :=
  let h1 := if finished (status (slot h e)) then h
            else set_status e FINISHED h in
  call_resolver (resolver (events h1 e))
                (negb (aborted (status (slot h1 e)))) h1.

Definition Event_abort (e : EvId) (r : option string) (h : Heap) : Heap :=
  let r := default "ABORT: Reason not defined."%string r in
  set_reason e (Some r) (set_status e ABORTED h).

Definition Event_stop (e : EvId) (r : option string) (h : Heap) : Heap :=
  let r := default "STOP: Reason not defined."%string r in
  set_reason e (Some r) (set_status e STOPPED h).

Definition Event_status (e : EvId) (h : Heap) : EventStatus := status (slot h e).
Definition Event_reason (e : EvId) (h : Heap) : option string := reason (slot h e).
Definition Event_depth (e : EvId) (h : Heap) : nat := depth (slot h e).
Definition Event_count (e : EvId) (h : Heap) : nat := length (deliveries (slot h e)).

Definition Event_delivered (e : EvId) (listener : LId) (h : Heap) : Heap :=
  let s := slot h e in
  set_slot e (mkState (status s) (reason s) (parent s) (depth s)
                      (deliveries s ++ [listener]) (bus s)) h.

(** ** EventListener.ts *)

Definition MIN_VALUE : Z := -20000.
Definition PRE_PROCESS : Z := -10000.
Definition DEFAULT : Z := 0.
Definition POST_PROCESS : Z := 10000.
Definition MAX_VALUE : Z := 20000.

(** [new EventListener(callback, nice)] *)
Definition EventListener_new (cb : EventConsumer) (nice : Z) : M LId := λ w,
  if bool_decide (nice < MIN_VALUE ∨ nice > MAX_VALUE) then
    Exc (Error ("Constraint Violated: " +:+ pretty MIN_VALUE +:+ " <= nice("
                +:+ pretty nice +:+ ") <= " +:+ pretty MAX_VALUE)) w
  else
    let h := heap w in
    let l := next_listener h in
    Ret l (mkWorld
             (mkHeap (statics h) (next_symbol h) (events h) (next_event h)
                     (promises h)
                     (<[l := mkListener None None nice []]> (listeners h))
                     (S l) (buses h) (next_bus h))
             (<[l := cb]> (callback w)) (logger w) (trace w)).

(** [onEvent(event)]: the call of the callback ([this.target] only
    chooses the [this] the callback sees). *)
Definition onEvent (l : LId) (event : EvId) : M unit :=
  run output (Invoked l event);
  λ w, match callback w l event (heap w) with
       | Normal h => Ret tt (mkWorld h (callback w) (logger w) (trace w))
       | Throw x h => Exc x (mkWorld h (callback w) (logger w) (trace w))
       end.

Definition nice (h : Heap) (l : LId) : Z := _nice (listeners h l).

Definition named (l : LId) (n o : string) (h : Heap) : Heap :=
  let x := listeners h l in
  set_listener l (mkListener (Some n) (Some o) (_nice x) (l_channels x)) h.

(** ** EventBus.ts *)

(** The default [log] consumer, [(_:any) => {}]. *)
Definition no_log : EventConsumer := λ _ h, Normal h.

(** The bus object [new EventBus(name)] makes: the root channel and the
    root chain are there from the start. *)
Definition alloc_bus (n : string) (h : Heap) : BusId * Heap :=
  let b := next_bus h in
  (b, mkHeap (statics h) (next_symbol h) (events h) (next_event h)
             (promises h) (listeners h) (next_listener h)
             (<[b := mkBus n {[root := []]} {[root := [root]]}]> (buses h))
             (S b)).

(** [new EventBus(name)] *)
Definition EventBus_new (n : string) : M BusId := λ w,
  let (b, h) := alloc_bus n (heap w) in
  Ret b (mkWorld h (callback w) (<[b := no_log]> (logger w)) (trace w)).

(** [logger(log)] *)
Definition EventBus_logger (this : BusId) (log : EventConsumer) : M unit := λ w,
  Ret tt (mkWorld (heap w) (callback w) (<[this := log]> (logger w)) (trace w)).

(** [this.log(event)] *)
Definition EventBus_log (this : BusId) (event : EvId) : M unit :=
  run output (Logged this event);
  λ w, match logger w this event (heap w) with
       | Normal h => Ret tt (mkWorld h (callback w) (logger w) (trace w))
       | Throw x h => Exc x (mkWorld h (callback w) (logger w) (trace w))
       end.

(** [Array.prototype.sort(cmp)]: the sort is stable; an element stays in
    front of the ones that came after it unless the comparator says it is
    greater.  Written as an insertion sort; any ascending arrangement
    that keeps the order inside each priority is this one
    ([stable_sort_unique] below). *)
Fixpoint insert_sorted {A} (cmp : A → A → Z) (x : A) (l : list A) : list A :=
  match l with
  | [] => [x]
  | y :: r => if bool_decide (cmp x y ≤ 0) then x :: y :: r
              else y :: insert_sorted cmp x r
  end.

Fixpoint sort {A} (cmp : A → A → Z) (l : list A) : list A :=
  match l with
  | [] => []
  | x :: r => insert_sorted cmp x (sort cmp r)
  end.

(** [Array.prototype.some(f)]: stops at the first element on which [f]
    returns true. *)
Fixpoint some {A} (f : A → M bool) (l : list A) : M bool :=
  match l with
  | [] => ret false
  | x :: r => do b <- f x; if b then ret true else some f r
  end.

(** [calculate(key, Object)]: past the cached test, the prototype of
    [Object.prototype] is [null] and reading its constructor throws. *)
Definition EventBus_calculate_object (this : BusId) (key : Sym) : M unit :=
  do h <- get_heap;
  match hierarchy (buses h this) !! key with
  | Some _ => ret tt
  | None => throw TypeError
  end.

(** [calculate(key, event)] for an event class.  The recursion follows
    [Object.getPrototypeOf(event.prototype).constructor], which is the
    extended class, and [Object] for [Event] itself.  [superEvent.key] is
    [Event.key] in both cases (inherited, or assigned on line 194). *)
Fixpoint EventBus_calculate_class (this : BusId) (key : Sym) (event : Class) : M unit :=
  do h <- get_heap;
  match hierarchy (buses h this) !! key with
  | Some _ => ret tt
  | None =>
      let superEvent :=
        match event with EventC => ObjectC | Extends _ s => Cls s end in
      do superKey <- lift (Event_key_static superEvent);
      do h <- get_heap;
      run match hierarchy (buses h this) !! superKey with
          | Some _ => ret tt
          | None =>
              match event with
              | EventC => EventBus_calculate_object this superKey
              | Extends _ s => EventBus_calculate_class this superKey s
              end
          end;
      do h <- get_heap;
      match hierarchy (buses h this) !! superKey with
      | None => throw TypeError
      | Some chain =>
          run modify_heap (set_hierarchy this key (chain ++ [key]));
          do h <- get_heap;
          match channels (buses h this) !! key with
          | Some _ => ret tt
          | None => modify_heap (set_channels this key [])
          end
      end
  end.

Definition EventBus_calculate (this : BusId) (key : Sym) (event : Ctor) : M unit :=
  match event with
  | ObjectC => EventBus_calculate_object this key
  | Cls c => EventBus_calculate_class this key c
  end.

Definition push_channel (l : LId) (key : Sym) (h : Heap) : Heap :=
  let x := listeners h l in
  set_listener l (mkListener (l_name x) (l_owner x) (_nice x)
                             (l_channels x ++ [key])) h.

Definition EventBus_subscribe (this : BusId) (type : Class) (listener : LId) : M unit :=
  do key <- lift (Event_key_static (Cls type));
  do h <- get_heap;
  run match channels (buses h this) !! key with
      | None => EventBus_calculate this key (Cls type)
      | Some ch =>
          if bool_decide (listener ∈ ch) then
            throw (Error "Cannot add a listener twice to the same channel!")
          else ret tt
      end;
  do h <- get_heap;
  match channels (buses h this) !! key with
  | None => throw TypeError
  | Some ch =>
      run modify_heap (set_channels this key (ch ++ [listener]));
      modify_heap (push_channel listener key)
  end.

Fixpoint EventBus_unsubscribe_each (this : BusId) (listener : LId) (cs : list Sym) : M unit :=
  match cs with
  | [] => ret tt
  | c :: cs' =>
      do h <- get_heap;
      match channels (buses h this) !! c with
      | None => throw TypeError
      | Some ch =>
          run modify_heap
                (set_channels this c (filter (λ l, l ≠ listener) ch));
          EventBus_unsubscribe_each this listener cs'
      end
  end.

Definition EventBus_unsubscribe (this : BusId) (listener : LId) : M unit :=
  do h <- get_heap;
  run EventBus_unsubscribe_each this listener (l_channels (listeners h listener));
  modify_heap (λ h, let x := listeners h listener in
                    set_listener listener
                      (mkListener (l_name x) (l_owner x) (_nice x) []) h).

Definition EventBus_listen (this : BusId) (type : Class) (n o : string)
    (cb : EventConsumer) (nice : Z) : M LId :=
  do l <- EventListener_new cb nice;
  run modify_heap (named l n o);
  run EventBus_subscribe this type l;
  ret l.

Definition abort_reason : string :=
  "Aborted due to error during listener execution".

Definition EventBus_execute (listener : LId) (event : EvId) : M bool :=
  try_catch
    (run modify_heap (Event_delivered event listener);
     run onEvent listener event;
     do h <- get_heap;
     ret (finished (Event_status event h)))
    (λ err,
      run modify_heap (Event_abort event (Some abort_reason));
      run output (ConsoleError err listener event);
      ret true).

(** The channel lists of the keys of a chain; [None] when some key of the
    chain has no channel.  [calculate] makes the channel together with the
    chain, and nothing removes a channel, so no chain of a bus built by
    the constructor and the methods has such a key (see
    [chains_have_channels] below); what [flat()] and [sort()] would make
    of the [undefined] entry is left out. *)
Definition channel_lists (b : EventBus) (chain : list Sym) : option (list (list LId)) :=
  mapM (λ k, channels b !! k) chain.

Definition EventBus_publish (this : BusId) (event : EvId) : M unit :=
  do h <- get_heap;
  if finished (Event_status event h) then
    throw (Error "This event has already been processed!")
  else
    do key <- lift (Event_key event);
    do h <- get_heap;
    match hierarchy (buses h this) !! key with
    | None => throw TypeError
    | Some chain =>
        match channel_lists (buses h this) chain with
        | None => λ _, OutOfModel
        | Some lists =>
            run some (λ l, EventBus_execute l event)
                  (sort (λ a b, nice h a - nice h b) (concat lists));
            run modify_heap (Event_finish event);
            EventBus_log this event
        end
    end.

(** [publish()] of an event, back in Event.ts. *)
Definition Event_publish (e : EvId) : M EvId :=
  do h <- get_heap;
  if finished (status (slot h e)) then
    throw (Error "Event has already finished")
  else
    do h <- get_heap;
    run EventBus_publish (bus (slot h e)) e;
    do h <- get_heap;
    ret (Event_resolution e h).

(** ** The program at start-up

    Loading the modules makes the symbol [root], sets the static slot of
    [Event] to it (line 10 of Event.ts) and builds [EventBus.GLOBAL]. *)

Definition no_event : EventObj :=
  mkEvent EventC (mkState RUNNING None None 0 [] GLOBAL) 0%nat 0%nat ∅.

Definition empty_heap : Heap :=
  mkHeap (<[Cls EventC := Some root]> (λ _, None)) 1%N
         (λ _, no_event) 0%nat (λ _, Pending)
         (λ _, mkListener None None DEFAULT []) 0%nat
         (λ _, mkBus "" ∅ ∅) 0%nat.

Definition initial_heap : Heap := (alloc_bus "global" empty_heap).2.

Definition initial_world : World :=
  mkWorld initial_heap (λ _ _ h, Normal h) (λ _, no_log) [].

(** ** Notions used to state the properties *)

(** [B] is [A], or extends it directly or through other classes. *)
Inductive subtype : Class → Class → Prop :=
| subtype_refl (c : Class) : subtype c c
| subtype_extends (n : nat) (b a : Class) :
    subtype b a → subtype (Extends n b) a.

(** The static slots as the source declares them: [Event] has the slot
    of line 10, and no class that extends it has one of its own (the
    symbol [key] is private to Event.ts, so no subclass can declare it). *)
Definition only_Event_slot (h : Heap) : Prop :=
  statics h (Cls EventC) = Some root ∧
  ∀ n s, statics h (Cls (Extends n s)) = None.

(** What the constructor of a bus puts in place for the root key. *)
Definition bus_rooted (h : Heap) (b : BusId) : Prop :=
  hierarchy (buses h b) !! root = Some [root] ∧
  is_Some (channels (buses h b) !! root).

Definition channels_nodup (h : Heap) : Prop :=
  ∀ (b : BusId) (k : Sym) (ch : list LId),
    channels (buses h b) !! k = Some ch → NoDup ch.

(** The listeners whose callbacks were called, in the order of the calls. *)
Fixpoint invocations (t : list Output) : list LId :=
  match t with
  | [] => []
  | Invoked l _ :: t' => l :: invocations t'
  | _ :: t' => invocations t'
  end.

Definition outcome_heap (c : Completion) : Heap :=
  match c with
  | Normal h => h
  | Throw _ h => h
  end.

(** The three operations that write the status. *)
Inductive Op : Type :=
| Finish
| Stop (r : option string)
| Abort (r : option string).

Definition apply_op (e : EvId) (h : Heap) (op : Op) : Heap :=
  match op with
  | Finish => Event_finish e h
  | Stop r => Event_stop e r h
  | Abort r => Event_abort e r h
  end.

Definition terminal (s : EventStatus) : Prop :=
  s = FINISHED ∨ s = STOPPED ∨ s = ABORTED.

(** What [publish] does with the sorted pool: run it until a listener
    halts, finish the event, call the log consumer. *)
Definition dispatch (this : BusId) (event : EvId) (sorted : list LId) : M unit :=
  run some (λ l, EventBus_execute l event) sorted;
  run modify_heap (Event_finish event);
  EventBus_log this event.

(** A log consumer that only observes: it returns, and leaves the heap as
    it found it.  The default consumer is one. *)
Definition quiet_logger (w : World) (this : BusId) : Prop :=
  ∀ e h, logger w this e h = Normal h.

(** A callback that leaves the delivery log of the event to the bus: it
    neither calls [delivered] nor publishes the event again. *)
Definition keeps_deliveries (cb : EventConsumer) (e : EvId) : Prop :=
  ∀ h, deliveries (slot (outcome_heap (cb e h)) e) = deliveries (slot h e).

(** A listener halts the chain when its callback leaves the event
    finished (it stopped or aborted it), or throws. *)
Definition halts (e : EvId) (c : Completion) : Prop :=
  match c with
  | Normal h => finished (Event_status e h) = true
  | Throw _ _ => True
  end.

(** The candidate pool [publish] builds for a key: the channel lists of
    the keys of its chain, concatenated in the order of the chain. *)
Definition candidate_pool (this : BusId) (key : Sym) (h : Heap) : option (list LId) :=
  chain ← hierarchy (buses h this) !! key;
  lists ← channel_lists (buses h this) chain;
  Some (concat lists).

(** The pool as [publish] iterates it, sorted by [nice]. *)
Definition sorted_pool (this : BusId) (event : EvId) (h : Heap) : option (list LId) :=
  let (key, h1) := Event_key event h in
  pool ← candidate_pool this key h1;
  Some (sort (λ a b, nice h1 a - nice h1 b) pool).

(** The world once [publish] has asked the event for its key. *)
Definition after_key (event : EvId) (w : World) : World :=
  mkWorld (Event_key event (heap w)).2 (callback w) (logger w) (trace w).

(** Every channel of [h'] is a channel of [h], or is new and empty. *)
Definition channels_grow (h h' : Heap) : Prop :=
  ∀ (b : BusId) (k : Sym) (ch : list LId),
    channels (buses h' b) !! k = Some ch →
    channels (buses h b) !! k = Some ch ∨ ch = [].

(** Every key of every chain of a bus has a channel. *)
Definition chains_have_channels (h : Heap) : Prop :=
  ∀ (b : BusId) (k k' : Sym) (chain : list Sym),
    hierarchy (buses h b) !! k = Some chain → k' ∈ chain →
    is_Some (channels (buses h b) !! k').

(** Every chain of every bus runs from the root to the type itself: it
    starts with the root key and ends with the key it is the chain of. *)
Definition chains_root_to_self (h : Heap) : Prop :=
  ∀ (b : BusId) (k : Sym) (chain : list Sym),
    hierarchy (buses h b) !! k = Some chain →
    head chain = Some root ∧ last chain = Some k.

Definition duplicate_error : Exn :=
  Error "Cannot add a listener twice to the same channel!".

(** ** Sample programs *)

Definition Child : Class := Extends 1 EventC.

Definition noop : EventConsumer := λ _ h, Normal h.

Definition stopper : EventConsumer :=
  λ e h, Normal (Event_stop e (Some "done"%string) h).

Definition thrower : EventConsumer :=
  λ _ h, Throw (Raised (VStr "boom")) h.

Definition world_of {A} (r : Result A) : World :=
  match r with
  | Ret _ w => w
  | Exc _ w => w
  | OutOfModel => initial_world
  end.

(** Three listeners on the global bus, of priorities PRE_PROCESS, DEFAULT
    and POST_PROCESS, the middle one subscribed to [Child] and running
    [cb]; then a fresh [Child] event.  The listeners are 0, 1 and 2, the
    event is 0. *)
Definition three_listeners (cb : EventConsumer) : World :=
  world_of
    ((do _ <- EventBus_listen GLOBAL EventC "first" "sample" noop PRE_PROCESS;
      do _ <- EventBus_listen GLOBAL Child "second" "sample" cb DEFAULT;
      do _ <- EventBus_listen GLOBAL EventC "third" "sample" noop POST_PROCESS;
      lift (Event_new Child)) initial_world).

(** A listener of priority 0 on the root type, then one of priority -10
    on [Child]; then a fresh [Child] event.  The listeners are 0 and 1,
    the event is 0. *)
Definition root_and_child : World :=
  world_of
    ((do _ <- EventBus_listen GLOBAL EventC "L_root" "sample" noop 0;
      do _ <- EventBus_listen GLOBAL Child "L_child" "sample" noop (-10);
      lift (Event_new Child)) initial_world).

(** A heap in which [Child] has a static slot of its own, holding the
    symbol 1: what [static key()] would have left had its test looked at
    own slots only. *)
Definition own_slot_heap : Heap :=
  set_statics (<[Cls Child := Some 1%N]> (statics initial_heap)) 2%N
              initial_heap.

(** ** Notions for the other methods *)

(** The listener has on record every channel of the bus it stands in. *)
Definition recorded_on (h : Heap) (b : BusId) (l : LId) : Prop :=
  ∀ (k : Sym) (ch : list LId),
    channels (buses h b) !! k = Some ch → l ∈ ch →
    k ∈ l_channels (listeners h l).

(** The invariants of the registry of every bus. *)
Definition registry_ok (h : Heap) : Prop :=
  channels_nodup h ∧ chains_have_channels h.

(** A run of [finish], [stop] and [abort] calls, each on an event. *)
Definition apply_ops (h : Heap) (ops : list (EvId * Op)) : Heap :=
  foldl (λ h x, apply_op x.1 h x.2) h ops.

(** [P] holds of the heap a call leaves, whether it returns or throws. *)
Definition leaves {A} (P : Heap → Prop) (r : Result A) : Prop :=
  match r with
  | Ret _ w' | Exc _ w' => P (heap w')
  | OutOfModel => False
  end.

(** A bus on which [publish] finds the pool of every event. *)
Definition publish_ready (b : BusId) (h : Heap) : Prop :=
  only_Event_slot h ∧ registry_ok h ∧ bus_rooted h b ∧
  ∀ e, is_Some (sorted_pool b e h).

(** Two fresh events, 0 and 1. *)
Definition two_events : Heap :=
  (Event_new Child (Event_new EventC initial_heap).2).2.

(** The world in which [publish] calls the log consumer: the chain has
    run and left [w0], the event has been finished, the call is on the
    trace. *)
Definition logged_world (this : BusId) (event : EvId) (w0 : World) : World :=
  mkWorld (Event_finish event (heap w0)) (callback w0) (logger w0)
          (trace w0 ++ [Logged this event]).

(** A log consumer that fails. *)
Definition failing_log : EventConsumer :=
  λ _ h, Throw (Raised (VStr "log failed")) h.

(** A callback that aborts the event with a reason of its own. *)
Definition vetoer : EventConsumer :=
  λ e h, Normal (Event_abort e (Some "veto"%string) h).

(** A second bus; a listener on the global bus; a [Child] event bound to
    the second bus.  The second bus is 1, the listener 0, the event 0. *)
Definition two_buses : World :=
  world_of
    ((do b <- EventBus_new "second";
      do _ <- EventBus_listen GLOBAL EventC "global" "sample" noop DEFAULT;
      do e <- lift (Event_new Child);
      modify_heap (Event_set_bus e b)) initial_world).

(** * Properties *)

(** ** The stable sort *)

Section sorting.
Context {A : Type} (key : A → Z).

#[local] Abbreviation by_key := (λ a b, key a - key b).
#[local] Abbreviation ascending := (StronglySorted (λ a b, key a ≤ key b)).

Lemma insert_sorted_perm (x : A) (l : list A) :
  insert_sorted by_key x l ≡ₚ x :: l.
Proof.
  induction l as [|y r IH]; simpl; [done|].
  case_bool_decide; [done|].
  rewrite IH. apply Permutation_swap.
Qed.

Lemma sort_perm (l : list A) : sort by_key l ≡ₚ l.
Proof.
  induction l as [|x r IH]; simpl; [done|].
  by rewrite insert_sorted_perm, IH.
Qed.

Lemma insert_sorted_ascending (x : A) (l : list A) :
  ascending l → ascending (insert_sorted by_key x l).
Proof.
  induction 1 as [|y r Hr IH Hy]; simpl.
  - repeat constructor.
  - case_bool_decide as Hc.
    + constructor; [by constructor|].
      constructor; [lia|].
      eapply Forall_impl; [exact Hy|]. simpl. intros z Hz. lia.
    + constructor; [exact IH|].
      rewrite insert_sorted_perm. constructor; [lia|exact Hy].
Qed.

Lemma sort_ascending (l : list A) : ascending (sort by_key l).
Proof.
  induction l as [|x r IH]; simpl; [constructor|].
  by apply insert_sorted_ascending.
Qed.

(** Stability: the listeners of one priority keep their order. *)
Lemma insert_sorted_stable (p : Z) (x : A) (l : list A) :
  filter (λ y, key y = p) (insert_sorted by_key x l)
  = filter (λ y, key y = p) (x :: l).
Proof.
  induction l as [|y r IH]; simpl; [done|].
  case_bool_decide as Hc; [done|].
  rewrite (filter_cons _ y), IH, !filter_cons.
  destruct (decide (key y = p)), (decide (key x = p)); try done; lia.
Qed.

Lemma sort_stable (p : Z) (l : list A) :
  filter (λ y, key y = p) (sort by_key l) = filter (λ y, key y = p) l.
Proof.
  induction l as [|x r IH]; simpl; [done|].
  by rewrite insert_sorted_stable, !filter_cons, IH.
Qed.

Lemma ascending_lookup (l : list A) (i j : nat) (x y : A) :
  ascending l → l !! i = Some x → l !! j = Some y → (i < j)%nat →
  key x ≤ key y.
Proof.
  intros Hl. revert i j. induction Hl as [|z r Hr IH Hz]; intros i j Hi Hj Hij.
  - done.
  - destruct j as [|j]; [lia|]. destruct i as [|i]; simpl in *.
    + injection Hi as <-. rewrite Forall_forall in Hz.
      apply Hz. by eapply list_elem_of_lookup_2.
    + apply (IH i j); [done..|lia].
Qed.

(** A listener of strictly lower priority stands earlier. *)
Lemma ascending_lower_first (l : list A) (i j : nat) (x y : A) :
  ascending l → l !! i = Some x → l !! j = Some y → key x < key y →
  (i < j)%nat.
Proof.
  intros Hl Hi Hj Hlt.
  destruct (decide (i < j)%nat) as [|Hge]; [done|].
  destruct (decide (i = j)) as [->|Hne].
  - rewrite Hi in Hj. injection Hj as ->. lia.
  - assert (key y ≤ key x); [|lia].
    apply (ascending_lookup l j i); [done..|lia].
Qed.

(** A list that is ascending and keeps each priority class of [l] in
    order is the sorted list: the result of a stable sort does not depend
    on the algorithm. *)
Lemma stable_sort_unique (l1 l2 : list A) :
  ascending l1 → ascending l2 →
  (∀ p, filter (λ y, key y = p) l1 = filter (λ y, key y = p) l2) →
  l1 = l2.
Proof.
  intros H1. revert l2. induction H1 as [|x r1 Hr1 IH Hx]; intros l2 H2 Hf.
  - destruct l2 as [|y r2]; [done|].
    specialize (Hf (key y)). rewrite filter_cons_True in Hf by done. done.
  - destruct H2 as [|y r2 Hr2 Hy].
    { specialize (Hf (key x)). rewrite filter_cons_True in Hf by done. done. }
    assert (key x = key y) as Hk.
    { apply Z.le_antisymm.
      - pose proof (Hf (key y)) as Hfy.
        rewrite (filter_cons_True _ y) in Hfy by done.
        rewrite filter_cons in Hfy. destruct (decide (key x = key y)); [lia|].
        assert (y ∈ filter (λ z, key z = key y) r1) as Hin
          by (rewrite Hfy; left).
        apply list_elem_of_filter in Hin as [_ Hin].
        rewrite Forall_forall in Hx. by apply Hx.
      - pose proof (Hf (key x)) as Hfx.
        rewrite (filter_cons_True _ x) in Hfx by done.
        rewrite filter_cons in Hfx. destruct (decide (key y = key x)); [lia|].
        assert (x ∈ filter (λ z, key z = key x) r2) as Hin
          by (rewrite <- Hfx; left).
        apply list_elem_of_filter in Hin as [_ Hin].
        rewrite Forall_forall in Hy. by apply Hy. }
    assert (x = y) as ->.
    { specialize (Hf (key x)).
      rewrite !filter_cons_True in Hf by done. by injection Hf. }
    f_equal. apply IH; [done|]. intros p. specialize (Hf p).
    rewrite !filter_cons in Hf. destruct (decide (key y = p)); [|done].
    by injection Hf.
Qed.

End sorting.

(** ** Reading the heap after an update *)

Lemma slot_set_slot (e e' : EvId) (s : EventState) (h : Heap) :
  slot (set_slot e s h) e' = if decide (e = e') then s else slot h e'.
Proof.
  unfold slot, set_slot, set_event; simpl.
  unfold insert, fn_insert. by destruct (decide (e = e')) as [<-|].
Qed.

Lemma promises_set_slot (e : EvId) (s : EventState) (h : Heap) :
  promises (set_slot e s h) = promises h.
Proof. done. Qed.

Lemma status_set_status (e e' : EvId) (st : EventStatus) (h : Heap) :
  status (slot (set_status e st h) e')
  = if decide (e = e') then st else status (slot h e').
Proof.
  unfold set_status. rewrite slot_set_slot. by destruct (decide (e = e')).
Qed.

Lemma reason_set_status (e e' : EvId) (st : EventStatus) (h : Heap) :
  reason (slot (set_status e st h) e') = reason (slot h e').
Proof.
  unfold set_status. rewrite slot_set_slot.
  by destruct (decide (e = e')) as [<-|].
Qed.

Lemma settle_events (p : EvId) (v : Promise) (h : Heap) :
  events (settle p v h) = events h.
Proof. unfold settle. by destruct (promises h p). Qed.

Lemma call_resolver_events (r : EvId) (b : bool) (h : Heap) :
  events (call_resolver r b h) = events h.
Proof. unfold call_resolver. destruct b; apply settle_events. Qed.

Lemma settle_promises (p q : EvId) (v : Promise) (h : Heap) :
  promises (settle p v h) q
  = if decide (p = q) then
      match promises h p with Pending => v | s => s end
    else promises h q.
Proof.
  unfold settle. destruct (promises h p) eqn:Hp; simpl;
    unfold insert, fn_insert; destruct (decide (p = q)) as [<-|]; done.
Qed.

Lemma status_finish (e : EvId) (h : Heap) :
  Event_status e (Event_finish e h)
  = if finished (Event_status e h) then Event_status e h else FINISHED.
Proof.
  unfold Event_finish, Event_status, slot. rewrite call_resolver_events.
  fold (slot h e). destruct (finished (status (slot h e))) eqn:Hf; [done|].
  fold (slot (set_status e FINISHED h) e). rewrite status_set_status.
  by rewrite decide_True.
Qed.

Lemma status_abort (e : EvId) (r : option string) (h : Heap) :
  Event_status e (Event_abort e r h) = ABORTED.
Proof.
  unfold Event_abort, Event_status, set_reason. rewrite slot_set_slot.
  rewrite decide_True by done. simpl. rewrite status_set_status.
  by rewrite decide_True.
Qed.

Lemma status_stop (e : EvId) (r : option string) (h : Heap) :
  Event_status e (Event_stop e r h) = STOPPED.
Proof.
  unfold Event_stop, Event_status, set_reason. rewrite slot_set_slot.
  rewrite decide_True by done. simpl. rewrite status_set_status.
  by rewrite decide_True.
Qed.

Lemma terminal_finished (s : EventStatus) : terminal s → finished s = true.
Proof. by intros [->|[->| ->]]. Qed.

Lemma status_apply_op (e : EvId) (h : Heap) (op : Op) :
  Event_status e (apply_op e h op)
  = match op with
    | Finish => if finished (Event_status e h) then Event_status e h
                else FINISHED
    | Stop _ => STOPPED
    | Abort _ => ABORTED
    end.
Proof.
  destruct op; simpl;
    [apply status_finish | apply status_stop | apply status_abort].
Qed.

Lemma terminal_apply_op (e : EvId) (h : Heap) (op : Op) :
  terminal (Event_status e h) → terminal (Event_status e (apply_op e h op)).
Proof.
  intros Ht. rewrite status_apply_op. destruct op.
  - by rewrite (terminal_finished _ Ht).
  - right; by left.
  - right; by right.
Qed.

(** ** The type keys *)

Lemma static_slot_root (h : Heap) (c : Class) :
  only_Event_slot h → static_slot (statics h) c = Some root.
Proof.
  intros [HE Hsub]. induction c as [|n s IH]; simpl.
  - by rewrite HE.
  - by rewrite Hsub.
Qed.

Lemma key_static_root (h : Heap) (c : Class) :
  only_Event_slot h → Event_key_static (Cls c) h = (root, h).
Proof.
  intros Hs. unfold Event_key_static; simpl.
  by rewrite (static_slot_root h c Hs).
Qed.

Lemma only_Event_slot_initial : only_Event_slot initial_heap.
Proof. split; [done|]. intros n s. done. Qed.

(** C3, evaluated on the code: after the modules have loaded, a class
    declared as [class Child extends Event] answers [key()] with [root],
    the key of [Event] itself, and so does a class extending [Child]; the
    lookup [this[key]] finds the slot of [Event] and no symbol is made. *)
Theorem subclass_key_is_root_key :
  Event_key_static (Cls EventC) initial_heap = (root, initial_heap) ∧
  Event_key_static (Cls (Extends 1 EventC)) initial_heap
    = (root, initial_heap) ∧
  Event_key_static (Cls (Extends 2 (Extends 1 EventC))) initial_heap
    = (root, initial_heap) ∧
  next_symbol initial_heap = 1%N.
Proof.
  repeat split; apply key_static_root, only_Event_slot_initial.
Qed.

(** ** The status machine *)

(** C6, as the code has it: from RUNNING, [finish], [stop] and [abort]
    move the status to FINISHED, STOPPED and ABORTED; once the status is
    terminal, [finish] leaves it as it is, [stop] and [abort] still set
    STOPPED and ABORTED, and after any sequence of the three the status
    is terminal: it never returns to RUNNING. *)
Theorem status_transitions (e : EvId) (h : Heap) :
  (Event_status e h = RUNNING →
     Event_status e (Event_finish e h) = FINISHED ∧
     (∀ r, Event_status e (Event_stop e r h) = STOPPED) ∧
     (∀ r, Event_status e (Event_abort e r h) = ABORTED)) ∧
  (terminal (Event_status e h) →
     Event_status e (Event_finish e h) = Event_status e h ∧
     (∀ r, Event_status e (Event_stop e r h) = STOPPED) ∧
     (∀ r, Event_status e (Event_abort e r h) = ABORTED) ∧
     (∀ ops, terminal (Event_status e (foldl (apply_op e) h ops)))).
Proof.
  split.
  - intros Hrun. rewrite status_finish, Hrun. simpl.
    auto using status_stop, status_abort.
  - intros Ht. rewrite status_finish, (terminal_finished _ Ht).
    repeat split; auto using status_stop, status_abort.
    intros ops. revert h Ht. induction ops as [|op ops IH]; intros h Ht.
    + exact Ht.
    + simpl. apply IH. by apply terminal_apply_op.
Qed.

Lemma status_transitions_witness :
  let h := (Event_new EventC initial_heap).2 in
  Event_status 0 h = RUNNING ∧
  Event_status 0 (Event_finish 0 h) = FINISHED ∧
  terminal (Event_status 0 (Event_stop 0 None h)) ∧
  terminal (Event_status 0
              (foldl (apply_op 0) (Event_stop 0 None h)
                     [Finish; Abort None; Finish])).
Proof.
  intros h.
  assert (Event_status 0 h = RUNNING) as Hrun by reflexivity.
  assert (terminal (Event_status 0 (Event_stop 0 None h))) as Hterm
    by (right; left; reflexivity).
  split; [exact Hrun|].
  split; [exact (proj1 (proj1 (status_transitions 0 h) Hrun))|].
  split; [exact Hterm|].
  exact (proj2 (proj2 (proj2
           (proj2 (status_transitions 0 (Event_stop 0 None h)) Hterm)))
           [Finish; Abort None; Finish]).
Defined.

(** C6 as stated fails: an event that a listener stopped is STOPPED, a
    terminal status, and [abort] then changes it to ABORTED; an event
    that finished is FINISHED and [stop] then changes it to STOPPED. *)
Lemma terminal_status_overwritten :
  let h := (Event_new EventC initial_heap).2 in
  let stopped := Event_stop 0 (Some "done"%string) h in
  let done := Event_finish 0 h in
  Event_status 0 stopped = STOPPED ∧
  Event_status 0 (Event_abort 0 None stopped) = ABORTED ∧
  Event_status 0 (Event_abort 0 None stopped) ≠ Event_status 0 stopped ∧
  Event_status 0 done = FINISHED ∧
  Event_status 0 (Event_stop 0 None done) = STOPPED ∧
  Event_status 0 (Event_stop 0 None done) ≠ Event_status 0 done.
Proof. repeat split; done. Qed.

(** ** finish *)

Lemma finish_events_other (e e' : EvId) (h : Heap) :
  e' ≠ e → events (Event_finish e h) e' = events h e'.
Proof.
  intros Hne. unfold Event_finish. rewrite call_resolver_events.
  destruct (finished (status (slot h e))); [done|].
  unfold set_status, set_slot, set_event; simpl.
  unfold insert, fn_insert. by rewrite decide_False.
Qed.

Lemma finish_resolver (e : EvId) (h : Heap) :
  resolver (events (Event_finish e h) e) = resolver (events h e).
Proof.
  unfold Event_finish. rewrite call_resolver_events.
  destruct (finished (status (slot h e))); [done|].
  unfold set_status, set_slot, set_event; simpl.
  unfold insert, fn_insert. by rewrite decide_True.
Qed.

Lemma finish_reason (e e' : EvId) (h : Heap) :
  Event_reason e' (Event_finish e h) = Event_reason e' h.
Proof.
  unfold Event_finish, Event_reason, slot. rewrite call_resolver_events.
  destruct (finished (status (state (events h e)))); [done|].
  apply reason_set_status.
Qed.

Lemma finish_promises (e q : EvId) (h : Heap) :
  let r := resolver (events h e) in
  let h1 := Event_finish e h in
  promises h1 q
  = if decide (r = q) then
      match promises h r with
      | Pending => if aborted (Event_status e h1)
                   then Rejected (Event_reason r h) else Resolved r
      | s => s
      end
    else promises h q.
Proof.
  intros r h1.
  assert (aborted (Event_status e h1)
          = aborted (status (slot
              (if finished (status (slot h e)) then h
               else set_status e FINISHED h) e))) as Hab.
  { unfold h1, Event_finish, Event_status, slot.
    by rewrite call_resolver_events. }
  rewrite Hab. unfold h1, Event_finish.
  set (h0 := if finished (status (slot h e)) then h
             else set_status e FINISHED h).
  assert (resolver (events h0 e) = r) as ->.
  { unfold h0, r. destruct (finished (status (slot h e))); [done|].
    unfold set_status, set_slot, set_event; simpl.
    unfold insert, fn_insert. by rewrite decide_True. }
  assert (promises h0 = promises h) as Hp
    by (unfold h0; by destruct (finished (status (slot h e)))).
  assert (reason (slot h0 r) = Event_reason r h) as Hr.
  { unfold h0, Event_reason. destruct (finished (status (slot h e))); [done|].
    apply reason_set_status. }
  unfold call_resolver.
  destruct (aborted (status (slot h0 e))); simpl;
    rewrite settle_promises, Hp, ?Hr; done.
Qed.

(** C7: [finish()] is idempotent.  The first call moves the status to
    FINISHED when the event was not finished, and settles the promise of
    the resolver the event holds when that promise is pending: resolved
    when the event is not aborted, rejected with the stored reason when
    it is.  The second call changes no event and no promise.  For an
    event that holds its own resolver the promise is resolved with the
    event itself, or rejected with the event's reason. *)
Theorem finish_idempotent (e : EvId) (h : Heap) :
  let h1 := Event_finish e h in
  let h2 := Event_finish e h1 in
  let r := resolver (events h e) in
  Event_status e h1
    = (if finished (Event_status e h) then Event_status e h else FINISHED) ∧
  (∀ p, p ≠ r → promises h1 p = promises h p) ∧
  promises h1 r
    = match promises h r with
      | Pending => if aborted (Event_status e h1)
                   then Rejected (Event_reason r h) else Resolved r
      | s => s
      end ∧
  events h2 = events h1 ∧
  (∀ p, promises h2 p = promises h1 p) ∧
  (Event_status e h = RUNNING → r = e → promises h e = Pending →
   Event_status e h1 = FINISHED ∧ promises h1 e = Resolved e ∧
   Event_status e h2 = FINISHED ∧ promises h2 e = Resolved e).
Proof.
  intros h1 h2 r.
  assert (Hst : Event_status e h1
    = (if finished (Event_status e h) then Event_status e h else FINISHED))
    by apply status_finish.
  assert (Hfin1 : finished (Event_status e h1) = true).
  { rewrite Hst. by destruct (finished (Event_status e h)) eqn:Hf. }
  assert (Hp1 : ∀ p, promises h1 p
    = if decide (r = p) then
        match promises h r with
        | Pending => if aborted (Event_status e h1)
                     then Rejected (Event_reason r h) else Resolved r
        | s => s
        end
      else promises h p) by (intros p; apply finish_promises).
  assert (Hs2 : events h2 = events h1).
  { unfold h2, Event_finish. rewrite call_resolver_events.
    unfold Event_status in Hfin1. by rewrite Hfin1. }
  assert (Hp2 : ∀ p, promises h2 p = promises h1 p).
  { intros p.
    assert (Hres : resolver (events h1 e) = r) by apply finish_resolver.
    pose proof (finish_promises e p h1) as H. cbv zeta in H.
    rewrite Hres in H. fold h2 in H. rewrite H.
    destruct (decide (r = p)) as [<-|]; [|done].
    rewrite (Hp1 r), decide_True by done.
    destruct (promises h r); [|done..].
    by destruct (aborted (Event_status e h1)). }
  split; [exact Hst|].
  split; [intros p Hne; by rewrite Hp1, decide_False|].
  split; [by rewrite Hp1, decide_True|].
  split; [exact Hs2|]. split; [exact Hp2|].
  intros Hrun Hre Hpend.
  assert (Event_status e h1 = FINISHED) as H1 by (by rewrite Hst, Hrun).
  assert (promises h1 e = Resolved e) as H2.
  { rewrite Hp1, decide_True by done. rewrite Hre, Hpend, H1. by simpl. }
  split; [exact H1|]. split; [exact H2|].
  split; [|by rewrite Hp2].
  unfold Event_status, slot. rewrite Hs2. exact H1.
Qed.

Lemma finish_idempotent_witness :
  let h := (Event_new EventC initial_heap).2 in
  Event_status 0 (Event_finish 0 h) = FINISHED ∧
  promises (Event_finish 0 h) 0 = Resolved 0%nat ∧
  Event_status 0 (Event_finish 0 (Event_finish 0 h)) = FINISHED ∧
  promises (Event_finish 0 (Event_finish 0 h)) 0 = Resolved 0%nat.
Proof.
  intros h.
  exact (proj2 (proj2 (proj2 (proj2 (proj2 (finish_idempotent 0 h)))))
           eq_refl eq_refl eq_refl).
Defined.

(** ** inherit *)

Lemma set_parent_events (e p e' : EvId) (h : Heap) :
  events (Event_set_parent e p h) e'
  = if decide (e = e') then
      with_state (mkState (status (slot h e)) (reason (slot h e)) (Some p)
                          (depth (slot h p) + 1) (deliveries (slot h e))
                          (bus (slot h e)))
                 (events h e)
    else events h e'.
Proof.
  unfold Event_set_parent, set_slot, slot, set_event, with_state; simpl.
  destruct (decide (e = e')) as [<-|].
  - rewrite !fn_lookup_insert. simpl.
    destruct (decide (e = p)) as [<-|].
    + by rewrite !fn_lookup_insert.
    + by rewrite !fn_lookup_insert_ne.
  - by rewrite !fn_lookup_insert_ne.
Qed.

Lemma inherit_events (e p e' : EvId) (h : Heap) :
  events (Event_inherit e p h) e'
  = if decide (e = e') then
      mkEvent (class (events h e))
              (mkState (status (slot h e)) (reason (slot h e)) (Some p)
                       (depth (slot h p) + 1) (deliveries (slot h e))
                       (bus (slot h e)))
              (promise (events h p)) (resolver (events h p))
              (fields (events h p) ∪ fields (events h e))
    else events h e'.
Proof.
  unfold Event_inherit, Event_with.
  pose proof (set_parent_events e p) as Hsp.
  set (h1 := Event_set_parent e p h) in *.
  unfold set_event; cbn [events].
  destruct (decide (e = e')) as [<-|].
  - rewrite fn_lookup_insert. cbn [foldl].
    unfold assign, own_enumerable.
    cbn [p_promise p_resolver p_fields default]. unfold h1.
    rewrite !Hsp, !decide_True by done.
    destruct (decide (e = p)) as [<-|]; simpl; done.
  - rewrite fn_lookup_insert_ne by done. unfold h1.
    by rewrite Hsp, decide_False.
Qed.

Lemma inherit_promises (e p : EvId) (h : Heap) :
  promises (Event_inherit e p h) = promises h.
Proof. done. Qed.

(** C10: [e.inherit(p)] gives [e] the own enumerable properties of [p]:
    the payload fields of [p] (over those of [e]), and the [promise] and
    [resolver] fields.  The sealed slot is not copied: status, reason,
    deliveries and bus of [e] stay, the parent link is set and the depth
    is that of [p] plus one.  Afterwards [e.resolution()] is the promise
    [p] holds, and [e.finish()] calls the resolver [p] holds: it settles
    that resolver's promise and no other, so the promise made by the
    constructor of [e] is left as it was. *)
Theorem inherit_copies_enumerable_properties (e p : EvId) (h : Heap) :
  let h' := Event_inherit e p h in
  let r := resolver (events h p) in
  let h'' := Event_finish e h' in
  fields (events h' e) = fields (events h p) ∪ fields (events h e) ∧
  class (events h' e) = class (events h e) ∧
  status (slot h' e) = status (slot h e) ∧
  reason (slot h' e) = reason (slot h e) ∧
  deliveries (slot h' e) = deliveries (slot h e) ∧
  bus (slot h' e) = bus (slot h e) ∧
  parent (slot h' e) = Some p ∧
  depth (slot h' e) = (depth (slot h p) + 1)%nat ∧
  promise (events h' e) = promise (events h p) ∧
  resolver (events h' e) = r ∧
  Event_resolution e h' = Event_resolution p h ∧
  (∀ e', e' ≠ e → events h' e' = events h e') ∧
  promises h' = promises h ∧
  promises h'' r
    = match promises h r with
      | Pending => if aborted (Event_status e h'')
                   then Rejected (Event_reason r h) else Resolved r
      | s => s
      end ∧
  (∀ q, q ≠ r → promises h'' q = promises h q).
Proof.
  intros h' r h''.
  assert (He : events h' e
    = mkEvent (class (events h e))
              (mkState (status (slot h e)) (reason (slot h e)) (Some p)
                       (depth (slot h p) + 1) (deliveries (slot h e))
                       (bus (slot h e)))
              (promise (events h p)) (resolver (events h p))
              (fields (events h p) ∪ fields (events h e))).
  { unfold h'. by rewrite inherit_events, decide_True. }
  assert (Hreason : Event_reason r h' = Event_reason r h).
  { unfold Event_reason, slot, h'. rewrite inherit_events.
    destruct (decide (e = r)) as [<-|]; done. }
  assert (Hres : resolver (events h' e) = r) by (by rewrite He).
  pose proof (finish_promises e) as Hfin. cbv zeta in Hfin.
  assert (Hother : ∀ e', e' ≠ e → events h' e' = events h e').
  { intros e' Hne. unfold h'. by rewrite inherit_events, decide_False. }
  assert (Hset : promises h'' r
    = match promises h r with
      | Pending => if aborted (Event_status e h'')
                   then Rejected (Event_reason r h) else Resolved r
      | s => s
      end).
  { unfold h''. rewrite Hfin, Hres, decide_True by done.
    fold h''. by rewrite Hreason. }
  assert (Hframe : ∀ q, q ≠ r → promises h'' q = promises h q).
  { intros q Hne. unfold h''. by rewrite Hfin, Hres, decide_False. }
  unfold slot, Event_resolution. rewrite He.
  cbn [fields class state status reason deliveries bus parent depth promise
       resolver].
  repeat split; done.
Qed.

(** ** publishing a finished event *)

(** C5: an event whose status is FINISHED, STOPPED or ABORTED cannot be
    published: [publish()] of the event and [publish(event)] of a bus both
    throw at once, and the world they leave is the world they found, so
    no listener ran and the event is as it was. *)
Theorem publish_finished_event_throws (w : World) (this : BusId) (e : EvId) :
  terminal (Event_status e (heap w)) →
  Event_publish e w = Exc (Error "Event has already finished") w ∧
  EventBus_publish this e w
    = Exc (Error "This event has already been processed!") w.
Proof.
  intros Ht. apply terminal_finished in Ht.
  unfold Event_publish, EventBus_publish, bind, get_heap, throw.
  unfold Event_status in Ht. unfold Event_status. by rewrite Ht.
Qed.

(** ** The dispatch chain *)

Lemma execute_unfold (l : LId) (e : EvId) (w : World) :
  EventBus_execute l e w
  = match callback w l e (Event_delivered e l (heap w)) with
    | Normal h =>
        Ret (finished (Event_status e h))
            (mkWorld h (callback w) (logger w) (trace w ++ [Invoked l e]))
    | Throw x h =>
        Ret true
            (mkWorld (Event_abort e (Some abort_reason) h) (callback w) (logger w)
                     ((trace w ++ [Invoked l e]) ++ [ConsoleError x l e]))
    end.
Proof.
  unfold EventBus_execute, try_catch, modify_heap, onEvent, output,
    get_heap, ret. unfold bind. simpl.
  by destruct (callback w l e (Event_delivered e l (heap w))).
Qed.

Lemma invocations_app (t1 t2 : list Output) :
  invocations (t1 ++ t2) = invocations t1 ++ invocations t2.
Proof.
  induction t1 as [|o t1 IH]; simpl; [done|].
  destruct o; simpl; by rewrite IH.
Qed.

(** One listener: [execute] always returns, never throws; it calls the
    callback once, after logging the delivery. *)
Lemma execute_returns (l : LId) (e : EvId) (w : World) :
  ∃ b w', EventBus_execute l e w = Ret b w' ∧
    callback w' = callback w ∧
    invocations (trace w') = invocations (trace w) ++ [l] ∧
    (b = false → finished (Event_status e (heap w')) = false).
Proof.
  rewrite execute_unfold.
  destruct (callback w l e (Event_delivered e l (heap w))) as [h|x h].
  - eexists _, _. split; [done|]. simpl.
    rewrite invocations_app; simpl. by repeat split.
  - eexists _, _. split; [done|]. simpl.
    rewrite !invocations_app; simpl. rewrite app_nil_r. by repeat split.
Qed.

Lemma execute_logger (l : LId) (e : EvId) (w w' : World) (b : bool) :
  EventBus_execute l e w = Ret b w' → logger w' = logger w.
Proof.
  rewrite execute_unfold.
  destruct (callback w l e (Event_delivered e l (heap w)));
    by intros [= <- <-].
Qed.

Lemma some_app {A} (f : A → M bool) (l1 l2 : list A) (w : World) :
  some f (l1 ++ l2) w
  = match some f l1 w with
    | Ret false w' => some f l2 w'
    | r => r
    end.
Proof.
  revert w. induction l1 as [|x l1 IH]; intros w; simpl; [done|].
  unfold bind. destruct (f x w) as [[] w'| |]; try done.
Qed.

(** The chain always returns; the callbacks it called are those of a
    prefix of the list, the whole list when nobody halted. *)
Lemma some_execute_returns (e : EvId) (ls : list LId) (w : World) :
  ∃ b w' n, some (λ l, EventBus_execute l e) ls w = Ret b w' ∧
    callback w' = callback w ∧
    invocations (trace w') = invocations (trace w) ++ take n ls ∧
    (b = false → n = length ls) ∧
    (b = true → (0 < n ≤ length ls)%nat).
Proof.
  revert w. induction ls as [|l ls IH]; intros w; simpl.
  - exists false, w, 0%nat. unfold ret. rewrite app_nil_r.
    repeat split; done.
  - unfold bind.
    destruct (execute_returns l e w) as (b & w1 & -> & Hcb & Hinv & _).
    destruct b.
    + exists true, w1, 1%nat. unfold ret. simpl. rewrite take_0.
      repeat split; try done; lia.
    + destruct (IH w1) as (b & w' & n & -> & Hcb' & Hinv' & Hf & Ht).
      exists b, w', (S n). simpl. rewrite Hinv', Hinv, <- app_assoc.
      split; [done|]. split; [congruence|]. split; [done|]. split.
      * intros Hb. by rewrite Hf.
      * intros Hb. specialize (Ht Hb). lia.
Qed.

Lemma some_logger (e : EvId) (ls : list LId) (w w' : World) (b : bool) :
  some (λ l, EventBus_execute l e) ls w = Ret b w' → logger w' = logger w.
Proof.
  revert w. induction ls as [|l ls IH]; intros w; simpl.
  - unfold ret. by intros [= <- <-].
  - unfold bind.
    destruct (EventBus_execute l e w) as [b1 w1| |] eqn:Hex; [|done..].
    apply execute_logger in Hex.
    destruct b1; [unfold ret; by intros [= <- <-]|].
    intros Hrun. by rewrite (IH w1 Hrun).
Qed.

(** The log consumer of a bus, when it only observes. *)
Lemma log_quiet (this : BusId) (event : EvId) (w : World) :
  quiet_logger w this →
  EventBus_log this event w
  = Ret tt (mkWorld (heap w) (callback w) (logger w)
                    (trace w ++ [Logged this event])).
Proof.
  intros Hq. unfold EventBus_log, bind, output. cbn [logger heap].
  by rewrite Hq.
Qed.

(** The listeners before a halting one ran and did not halt: [some] went
    through them. *)
Lemma some_through (e : EvId) (pre : list LId) (w w' : World) :
  some (λ l, EventBus_execute l e) pre w = Ret false w' →
  callback w' = callback w ∧
  invocations (trace w') = invocations (trace w) ++ pre.
Proof.
  intros Hrun.
  destruct (some_execute_returns e pre w)
    as (b & w1 & n & Heq & Hcb & Hinv & Hf & _).
  rewrite Hrun in Heq. injection Heq as <- <-.
  rewrite Hf in Hinv by done. by rewrite firstn_all in Hinv.
Qed.

Lemma delivered_deliveries (e : EvId) (l : LId) (h : Heap) :
  deliveries (slot (Event_delivered e l h) e) = deliveries (slot h e) ++ [l].
Proof.
  unfold Event_delivered. rewrite slot_set_slot. by rewrite decide_True.
Qed.

Lemma deliveries_set_status (e e' : EvId) (st : EventStatus) (h : Heap) :
  deliveries (slot (set_status e st h) e') = deliveries (slot h e').
Proof.
  unfold set_status. rewrite slot_set_slot.
  by destruct (decide (e = e')) as [<-|].
Qed.

Lemma deliveries_set_reason (e e' : EvId) (r : option string) (h : Heap) :
  deliveries (slot (set_reason e r h) e') = deliveries (slot h e').
Proof.
  unfold set_reason. rewrite slot_set_slot.
  by destruct (decide (e = e')) as [<-|].
Qed.

Lemma abort_deliveries (e : EvId) (r : option string) (h : Heap) :
  deliveries (slot (Event_abort e r h) e) = deliveries (slot h e).
Proof.
  unfold Event_abort. by rewrite deliveries_set_reason, deliveries_set_status.
Qed.

Lemma finish_deliveries (e : EvId) (h : Heap) :
  deliveries (slot (Event_finish e h) e) = deliveries (slot h e).
Proof.
  unfold Event_finish, slot. rewrite call_resolver_events.
  destruct (finished (status (state (events h e)))); [done|].
  apply deliveries_set_status.
Qed.

Lemma execute_deliveries (l : LId) (e : EvId) (w w' : World) (b : bool) :
  keeps_deliveries (callback w l) e →
  EventBus_execute l e w = Ret b w' →
  deliveries (slot (heap w') e) = deliveries (slot (heap w) e) ++ [l].
Proof.
  intros Hk. rewrite execute_unfold.
  specialize (Hk (Event_delivered e l (heap w))).
  destruct (callback w l e (Event_delivered e l (heap w))) as [h|x h];
    simpl in Hk; intros [= <- <-]; simpl.
  - by rewrite Hk, delivered_deliveries.
  - by rewrite abort_deliveries, Hk, delivered_deliveries.
Qed.

Lemma some_through_deliveries (e : EvId) (pre : list LId) (w w' : World) :
  (∀ l, l ∈ pre → keeps_deliveries (callback w l) e) →
  some (λ l, EventBus_execute l e) pre w = Ret false w' →
  deliveries (slot (heap w') e) = deliveries (slot (heap w) e) ++ pre.
Proof.
  revert w. induction pre as [|l pre IH]; intros w Hk; simpl.
  - unfold ret. intros [= <-]. by rewrite app_nil_r.
  - unfold bind.
    destruct (execute_returns l e w) as (b & w1 & Hex & Hcb & _).
    rewrite Hex. destruct b; [done|]. intros Hrun.
    rewrite (IH w1); [|intros l' Hl'; rewrite Hcb; apply Hk; by right|done].
    rewrite (execute_deliveries l e w w1 false); [|apply Hk; by left|done].
    by rewrite <- app_assoc.
Qed.

(** [publish] on an unfinished event whose chain and channels are in
    place: the candidate pool is the concatenation of the channel lists of
    the chain, the sorted pool is dispatched. *)
Lemma publish_dispatch (w : World) (this : BusId) (event : EvId)
    (key : Sym) (h1 : Heap) (chain : list Sym) (lists : list (list LId)) :
  finished (Event_status event (heap w)) = false →
  Event_key event (heap w) = (key, h1) →
  hierarchy (buses h1 this) !! key = Some chain →
  channel_lists (buses h1 this) chain = Some lists →
  EventBus_publish this event w
  = dispatch this event
      (sort (λ a b, nice h1 a - nice h1 b) (concat lists))
      (mkWorld h1 (callback w) (logger w) (trace w)).
Proof.
  intros Hf Hk Hh Hc.
  unfold EventBus_publish, bind at 1, get_heap at 1. rewrite Hf.
  unfold bind at 1, lift. rewrite Hk.
  unfold bind at 1, get_heap at 1. cbn [heap]. by rewrite Hh, Hc.
Qed.

(** The dispatch when the listener after [pre] halts the chain. *)
Lemma dispatch_halted (this : BusId) (event : EvId) (pre post : list LId)
    (l : LId) (w w2 w3 : World) :
  quiet_logger w this →
  some (λ l, EventBus_execute l event) pre w = Ret false w2 →
  EventBus_execute l event w2 = Ret true w3 →
  dispatch this event (pre ++ l :: post) w
  = Ret tt (mkWorld (Event_finish event (heap w3)) (callback w3) (logger w3)
                    (trace w3 ++ [Logged this event])).
Proof.
  intros Hq Hpre Hl. unfold dispatch, bind at 1.
  rewrite some_app, Hpre. simpl. unfold bind at 1. rewrite Hl.
  unfold ret, bind at 1, modify_heap at 1. rewrite log_quiet; [done|].
  unfold quiet_logger. cbn [logger].
  rewrite (execute_logger _ _ _ _ _ Hl), (some_logger _ _ _ _ _ Hpre).
  exact Hq.
Qed.

(** The dispatch of any pool, with a log consumer that only observes:
    it returns. *)
Lemma dispatch_returns (this : BusId) (event : EvId) (ls : list LId)
    (w : World) :
  quiet_logger w this →
  ∃ b w1 n,
    some (λ l, EventBus_execute l event) ls w = Ret b w1 ∧
    invocations (trace w1) = invocations (trace w) ++ take n ls ∧
    dispatch this event ls w
    = Ret tt (mkWorld (Event_finish event (heap w1)) (callback w1) (logger w1)
                      (trace w1 ++ [Logged this event])).
Proof.
  intros Hq.
  destruct (some_execute_returns event ls w)
    as (b & w1 & n & Hrun & _ & Hinv & _).
  exists b, w1, n. split; [done|]. split; [done|].
  unfold dispatch, bind at 1. rewrite Hrun.
  unfold bind at 1, modify_heap at 1. rewrite log_quiet; [done|].
  unfold quiet_logger. cbn [logger].
  rewrite (some_logger _ _ _ _ _ Hrun). exact Hq.
Qed.

Lemma dispatch_completed (this : BusId) (event : EvId) (sorted : list LId)
    (w w2 : World) :
  quiet_logger w this →
  some (λ l, EventBus_execute l event) sorted w = Ret false w2 →
  dispatch this event sorted w = Ret tt (logged_world this event w2).
Proof.
  intros Hq Hrun.
  destruct (dispatch_returns this event sorted w Hq)
    as (b & w1 & n & Hrun' & _ & ->).
  rewrite Hrun in Hrun'. by injection Hrun' as <- <-.
Qed.

Lemma publish_sorted_pool (w : World) (this : BusId) (event : EvId)
    (sorted : list LId) :
  finished (Event_status event (heap w)) = false →
  sorted_pool this event (heap w) = Some sorted →
  EventBus_publish this event w = dispatch this event sorted (after_key event w).
Proof.
  intros Hf. unfold sorted_pool, candidate_pool, after_key.
  destruct (Event_key event (heap w)) as [key h1] eqn:Hk.
  destruct (hierarchy (buses h1 this) !! key) as [chain|] eqn:Hh;
    simpl; [|done].
  destruct (channel_lists (buses h1 this) chain) as [lists|] eqn:Hc;
    simpl; [|done].
  intros [= <-]. by apply (publish_dispatch w this event key h1 chain).
Qed.

Lemma after_key_events (event : EvId) (w : World) :
  events (heap (after_key event w)) = events (heap w).
Proof.
  unfold after_key, Event_key, Event_key_static; simpl.
  by destruct (static_slot _ _).
Qed.

Lemma after_key_promises (event : EvId) (w : World) :
  promises (heap (after_key event w)) = promises (heap w).
Proof.
  unfold after_key, Event_key, Event_key_static; simpl.
  by destruct (static_slot _ _).
Qed.

Lemma publish_of_event (w : World) (e : EvId) :
  finished (Event_status e (heap w)) = false →
  Event_publish e w
  = match EventBus_publish (bus (slot (heap w) e)) e w with
    | Ret _ w' => Ret (Event_resolution e (heap w')) w'
    | Exc x w' => Exc x w'
    | OutOfModel => OutOfModel
    end.
Proof.
  intros Hf. unfold Event_publish, bind at 1, get_heap at 1.
  unfold Event_status in Hf. rewrite Hf.
  unfold bind at 1, get_heap at 1. unfold bind at 1.
  destruct (EventBus_publish (bus (slot (heap w) e)) e w); try done.
Qed.

Lemma reason_abort (e : EvId) (r : string) (h : Heap) :
  Event_reason e (Event_abort e (Some r) h) = Some r.
Proof.
  unfold Event_abort, Event_reason, set_reason.
  by rewrite slot_set_slot, decide_True.
Qed.

Lemma abort_promises (e : EvId) (r : option string) (h : Heap) :
  promises (Event_abort e r h) = promises h.
Proof. done. Qed.

Lemma abort_resolver (e : EvId) (r : option string) (h : Heap) :
  resolver (events (Event_abort e r h) e) = resolver (events h e).
Proof.
  unfold Event_abort, set_reason, set_status, set_slot, set_event; simpl.
  by rewrite !fn_lookup_insert.
Qed.

Lemma abort_promise (e : EvId) (r : option string) (h : Heap) :
  promise (events (Event_abort e r h) e) = promise (events h e).
Proof.
  unfold Event_abort, set_reason, set_status, set_slot, set_event; simpl.
  by rewrite !fn_lookup_insert.
Qed.

Lemma finish_promise (e : EvId) (h : Heap) :
  promise (events (Event_finish e h) e) = promise (events h e).
Proof.
  unfold Event_finish. rewrite call_resolver_events.
  destruct (finished (status (slot h e))); [done|].
  unfold set_status, set_slot, set_event; simpl.
  by rewrite fn_lookup_insert.
Qed.

(** C4: a dispatch in which the callback of the listener at some
    position of the sorted pool throws (the listeners before it having run
    without halting the chain), on a bus whose log consumer only observes.
    [publish] returns normally; the event is
    ABORTED with the fixed reason; the error is reported on the console
    with the listener and the event; nothing is called after the failing
    callback but the log consumer; and [finish] rejects the promise of the
    resolver the event holds: for an event holding its own promise and
    resolver, still pending, the promise [publish()] returns is rejected
    with the fixed reason. *)
Theorem listener_error_aborts_event (w : World) (this : BusId) (event : EvId)
    (pre post : list LId) (l : LId) (w2 : World) (x : Exn) (h3 : Heap) :
  quiet_logger w this →
  finished (Event_status event (heap w)) = false →
  sorted_pool this event (heap w) = Some (pre ++ l :: post) →
  some (λ l, EventBus_execute l event) pre (after_key event w) = Ret false w2 →
  callback w l event (Event_delivered event l (heap w2)) = Throw x h3 →
  ∃ w', EventBus_publish this event w = Ret tt w' ∧
    Event_status event (heap w') = ABORTED ∧
    Event_reason event (heap w') = Some abort_reason ∧
    trace w'
      = trace w2 ++ [Invoked l event; ConsoleError x l event; Logged this event] ∧
    invocations (trace w') = invocations (trace w) ++ pre ++ [l] ∧
    (∀ r, r = resolver (events h3 event) →
       promises (heap w') r
       = match promises h3 r with
         | Pending =>
             Rejected (Event_reason r (Event_abort event (Some abort_reason) h3))
         | s => s
         end) ∧
    (resolver (events h3 event) = event → promise (events h3 event) = event →
     promises h3 event = Pending →
     promises (heap w') (Event_resolution event (heap w'))
       = Rejected (Some abort_reason)) ∧
    (bus (slot (heap w) event) = this →
     Event_publish event w = Ret (Event_resolution event (heap w')) w').
Proof.
  intros Hq Hf Hpool Hpre Hthrow.
  destruct (some_through event pre _ _ Hpre) as [Hcb Hinv].
  assert (Hex : EventBus_execute l event w2
    = Ret true (mkWorld (Event_abort event (Some abort_reason) h3) (callback w2) (logger w2)
                  ((trace w2 ++ [Invoked l event]) ++ [ConsoleError x l event]))).
  { rewrite execute_unfold, Hcb. simpl. by rewrite Hthrow. }
  pose proof (publish_sorted_pool w this event _ Hf Hpool) as Hpub.
  rewrite (dispatch_halted this event pre post l (after_key event w) w2 _
             Hq Hpre Hex) in Hpub.
  simpl in Hpub.
  set (ha := Event_abort event (Some abort_reason) h3) in *.
  assert (Hsta : Event_status event ha = ABORTED) by apply status_abort.
  eexists. split; [exact Hpub|]. cbn [heap trace].
  assert (Hres : resolver (events ha event) = resolver (events h3 event))
    by apply abort_resolver.
  assert (Hprom : ∀ r, r = resolver (events h3 event) →
    promises (Event_finish event ha) r
    = match promises h3 r with
      | Pending => Rejected (Event_reason r ha)
      | s => s
      end).
  { intros r ->. pose proof (finish_promises event (resolver (events h3 event)) ha) as H.
    cbv zeta in H. rewrite Hres, decide_True in H by done.
    rewrite H, status_finish, Hsta. done. }
  split; [by rewrite status_finish, Hsta|].
  split; [by rewrite finish_reason; apply reason_abort|].
  split; [by rewrite <- !app_assoc|].
  split.
  { rewrite !invocations_app, Hinv. simpl. rewrite app_nil_r.
    by rewrite <- !app_assoc. }
  split; [exact Hprom|].
  split.
  - intros Hown Hp Hpend. unfold Event_resolution.
    assert (Hpr : promise (events ha event) = promise (events h3 event))
      by apply abort_promise.
    rewrite finish_promise, Hpr, Hp.
    rewrite (Hprom event) by done. rewrite Hpend.
    unfold ha. by rewrite reason_abort.
  - intros Hbus. rewrite publish_of_event by done. rewrite Hbus, Hpub. done.
Qed.

Lemma execute_halting (l : LId) (e : EvId) (w : World) :
  halts e (callback w l e (Event_delivered e l (heap w))) →
  ∃ w', EventBus_execute l e w = Ret true w'.
Proof.
  rewrite execute_unfold.
  destruct (callback w l e (Event_delivered e l (heap w))) as [h|x h]; simpl.
  - intros ->. by eexists.
  - intros _. by eexists.
Qed.

(** C8: a dispatch in which the listener at position [length pre] of the
    sorted pool stops or aborts the event, or throws, the listeners before
    it having run without halting the chain (the log consumer of the bus
    only observes).  The callbacks called are
    those of the first [length pre + 1] listeners, so none at a later
    position runs.  Each callback is handed the event with its delivery
    already logged; when the callbacks leave the log alone, the log has
    grown by exactly [length pre + 1] entries, also when the last callback
    threw. *)
Theorem halting_listener_cuts_chain (w : World) (this : BusId) (event : EvId)
    (pre post : list LId) (l : LId) (w2 : World) :
  quiet_logger w this →
  finished (Event_status event (heap w)) = false →
  sorted_pool this event (heap w) = Some (pre ++ l :: post) →
  some (λ l, EventBus_execute l event) pre (after_key event w) = Ret false w2 →
  halts event (callback w l event (Event_delivered event l (heap w2))) →
  (∀ l', l' ∈ pre ++ [l] → keeps_deliveries (callback w l') event) →
  ∃ w', EventBus_publish this event w = Ret tt w' ∧
    invocations (trace w')
      = invocations (trace w) ++ take (length pre + 1) (pre ++ l :: post) ∧
    deliveries (slot (heap w') event)
      = deliveries (slot (heap w) event)
        ++ take (length pre + 1) (pre ++ l :: post) ∧
    Event_count event (heap w')
      = (Event_count event (heap w) + (length pre + 1))%nat ∧
    finished (Event_status event (heap w')) = true.
Proof.
  intros Hq Hf Hpool Hpre Hhalt Hkeep.
  assert (Htake : take (length pre + 1) (pre ++ l :: post) = pre ++ [l]).
  { rewrite take_app_add'; [|done]. by simpl; rewrite take_0. }
  destruct (some_through event pre _ _ Hpre) as [Hcb Hinv].
  assert (Hcb2 : callback w2 = callback w) by exact Hcb.
  rewrite <- Hcb2 in Hhalt.
  destruct (execute_halting l event w2 Hhalt) as [w3 Hex].
  pose proof (publish_sorted_pool w this event _ Hf Hpool) as Hpub.
  rewrite (dispatch_halted this event pre post l (after_key event w) w2 w3
             Hq Hpre Hex) in Hpub.
  destruct (execute_returns l event w2) as (b & w3' & Hex' & _ & Hinv3 & _).
  rewrite Hex in Hex'. injection Hex' as <- <-.
  assert (Hd2 : deliveries (slot (heap w2) event)
                = deliveries (slot (heap w) event) ++ pre).
  { rewrite (some_through_deliveries event pre (after_key event w) w2);
      [|intros l' Hl'; apply Hkeep, elem_of_app; by left | done].
    unfold slot. by rewrite after_key_events. }
  assert (Hd3 : deliveries (slot (heap w3) event)
                = deliveries (slot (heap w) event) ++ pre ++ [l]).
  { rewrite (execute_deliveries l event w2 w3 true); [| |done].
    - by rewrite Hd2, <- app_assoc.
    - rewrite Hcb2. apply Hkeep, elem_of_app. right. by left. }
  eexists. split; [exact Hpub|]. cbn [heap trace]. rewrite Htake.
  assert (Hdel : deliveries (slot (Event_finish event (heap w3)) event)
                 = deliveries (slot (heap w) event) ++ pre ++ [l])
    by (by rewrite finish_deliveries).
  split.
  { rewrite invocations_app, Hinv3, Hinv. simpl.
    by rewrite app_nil_r, <- app_assoc. }
  split; [exact Hdel|].
  split.
  { unfold Event_count. rewrite Hdel, !length_app. simpl. lia. }
  rewrite status_finish.
  by destruct (finished (Event_status event (heap w3))) eqn:Hfin.
Qed.

Lemma candidate_pool_chain (this : BusId) (key : Sym) (h : Heap)
    (pool : list LId) :
  candidate_pool this key h = Some pool ↔
  ∃ chain lists,
    hierarchy (buses h this) !! key = Some chain ∧
    Forall2 (λ k ch, channels (buses h this) !! k = Some ch) chain lists ∧
    pool = concat lists.
Proof.
  unfold candidate_pool, channel_lists. split.
  - destruct (hierarchy (buses h this) !! key) as [chain|]; simpl; [|done].
    destruct (mapM _ chain) as [lists|] eqn:Hm; simpl; [|done].
    intros [= <-]. exists chain, lists. by rewrite <- mapM_Some.
  - intros (chain & lists & -> & Hm & ->). simpl.
    apply mapM_Some in Hm. by rewrite Hm.
Qed.

Lemma elem_of_concat {A} (x : A) (ls : list (list A)) (l : list A) :
  l ∈ ls → x ∈ l → x ∈ concat ls.
Proof.
  induction 1 as [l ls|l' l ls _ IH]; simpl; intros Hx;
    apply elem_of_app; [by left|right; by apply IH].
Qed.

(** The listeners of a channel of the chain are in the pool. *)
Lemma candidate_pool_includes (this : BusId) (key k : Sym) (h : Heap)
    (chain : list Sym) (pool ch : list LId) (l : LId) :
  candidate_pool this key h = Some pool →
  hierarchy (buses h this) !! key = Some chain →
  k ∈ chain → channels (buses h this) !! k = Some ch → l ∈ ch →
  l ∈ pool.
Proof.
  intros (chain' & lists & Hh & Hm & ->)%candidate_pool_chain Hh' Hk Hch Hl.
  rewrite Hh in Hh'. injection Hh' as ->.
  apply list_elem_of_lookup in Hk as [i Hi].
  destruct (Forall2_lookup_l _ _ _ _ _ Hm Hi) as (ch' & Hi' & Hch').
  rewrite Hch in Hch'. injection Hch' as <-.
  apply (elem_of_concat _ _ ch); [|done].
  by eapply list_elem_of_lookup_2.
Qed.

Lemma subtype_root_key (h : Heap) (A B : Class) :
  only_Event_slot h → subtype B A →
  (Event_key_static (Cls A) h).1 = (Event_key_static (Cls B) h).1.
Proof. intros Hs _. by rewrite !key_static_root. Qed.


(** ** The registry *)

Lemma key_static_buses (c : Ctor) (h : Heap) :
  buses (Event_key_static c h).2 = buses h.
Proof.
  unfold Event_key_static. by destruct (read_key_slot (statics h) c).
Qed.

Lemma key_static_listeners (c : Ctor) (h : Heap) :
  listeners (Event_key_static c h).2 = listeners h.
Proof.
  unfold Event_key_static. by destruct (read_key_slot (statics h) c).
Qed.

(** The key of a type is assigned once: a second query finds the slot. *)
Lemma key_static_stable (c : Ctor) (h : Heap) :
  read_key_slot (statics (Event_key_static c h).2) c
  = Some (Event_key_static c h).1.
Proof.
  unfold Event_key_static.
  destruct (read_key_slot (statics h) c) as [k|] eqn:Hk; simpl; [done|].
  destruct c as [|[|n s]]; unfold set_statics;
    cbn [read_key_slot static_slot statics]; by rewrite fn_lookup_insert.
Qed.

Lemma channels_set_hierarchy (b b' : BusId) (k : Sym) (ks : list Sym) (h : Heap) :
  channels (buses (set_hierarchy b k ks h) b') = channels (buses h b').
Proof.
  unfold set_hierarchy, set_bus; simpl.
  destruct (decide (b = b')) as [<-|].
  - by rewrite fn_lookup_insert.
  - by rewrite fn_lookup_insert_ne.
Qed.

Lemma channels_set_channels (b b' : BusId) (k k' : Sym) (ls : list LId) (h : Heap) :
  channels (buses (set_channels b k ls h) b') !! k'
  = if decide (b = b' ∧ k = k') then Some ls
    else channels (buses h b') !! k'.
Proof.
  unfold set_channels, set_bus; simpl.
  destruct (decide (b = b')) as [<-|Hb].
  - rewrite fn_lookup_insert. simpl.
    destruct (decide (k = k')) as [<-|Hk].
    + by rewrite lookup_insert_eq, decide_True.
    + rewrite lookup_insert_ne by done. rewrite decide_False; [done|].
      by intros [_ ?].
  - rewrite fn_lookup_insert_ne by done. rewrite decide_False; [done|].
    by intros [? _].
Qed.

Lemma channels_grow_refl (h : Heap) : channels_grow h h.
Proof. intros b k ch Hch. by left. Qed.

Lemma channels_grow_trans (h1 h2 h3 : Heap) :
  channels_grow h1 h2 → channels_grow h2 h3 → channels_grow h1 h3.
Proof.
  intros H12 H23 b k ch Hch.
  destruct (H23 b k ch Hch) as [H|H]; [by apply H12|by right].
Qed.

Lemma channels_grow_buses (h h' : Heap) :
  buses h' = buses h → channels_grow h h'.
Proof. intros Hb b k ch Hch. left. by rewrite <- Hb. Qed.

Lemma channels_grow_nodup (h h' : Heap) :
  channels_grow h h' → channels_nodup h → channels_nodup h'.
Proof.
  intros Hg Hn b k ch Hch.
  destruct (Hg b k ch Hch) as [H| ->]; [by eapply Hn|constructor].
Qed.

(** [calculate] makes channels, all empty; it changes none. *)
Lemma calculate_class_channels (c : Class) (this : BusId) (key : Sym) (w : World) :
  match EventBus_calculate_class this key c w with
  | Ret _ w' | Exc _ w' => channels_grow (heap w) (heap w')
  | OutOfModel => False
  end.
Proof.
  revert key w. induction c as [|n s IH]; intros key w; simpl;
    unfold bind at 1, get_heap at 1;
    (destruct (hierarchy (buses (heap w) this) !! key) eqn:Hk;
     [apply channels_grow_refl|]);
    unfold bind at 1, lift.
  - (* Event: the super constructor is Object *)
    destruct (Event_key_static ObjectC (heap w)) as [sk h1] eqn:Hsk.
    assert (Hb1 : buses h1 = buses (heap w))
      by (by rewrite <- (key_static_buses ObjectC (heap w)), Hsk).
    unfold bind at 1, get_heap at 1. cbn [heap]. unfold bind at 1.
    destruct (hierarchy (buses h1 this) !! sk) as [chain|] eqn:Hsup.
    + unfold ret. unfold bind at 1, get_heap at 1. cbn [heap].
      rewrite Hsup. unfold bind at 1, modify_heap at 1. cbn [heap].
      unfold bind at 1, get_heap at 1. cbn [heap].
      destruct (channels _ !! key) eqn:Hck; unfold ret, modify_heap; cbn [heap].
      * intros b k ch. rewrite channels_set_hierarchy, Hb1. by left.
      * intros b k ch. rewrite channels_set_channels.
        case_decide; [intros [= <-]; by right|].
        rewrite channels_set_hierarchy, Hb1. by left.
    + unfold EventBus_calculate_object, bind at 1, get_heap at 1. cbn [heap].
      rewrite Hsup. unfold throw. cbn [heap].
      by apply channels_grow_buses.
  - (* a class that extends [s] *)
    destruct (Event_key_static (Cls s) (heap w)) as [sk h1] eqn:Hsk.
    assert (Hb1 : buses h1 = buses (heap w))
      by (by rewrite <- (key_static_buses (Cls s) (heap w)), Hsk).
    unfold bind at 1, get_heap at 1. cbn [heap]. unfold bind at 1.
    set (w1 := mkWorld h1 (callback w) (logger w) (trace w)).
    assert (Hstep : ∀ w2, channels_grow (heap w) (heap w2) →
      match
        (do h <- get_heap;
         match hierarchy (buses h this) !! sk with
         | None => throw TypeError
         | Some chain =>
             run modify_heap (set_hierarchy this key (chain ++ [key]));
             do h <- get_heap;
             match channels (buses h this) !! key with
             | Some _ => ret tt
             | None => modify_heap (set_channels this key [])
             end
         end) w2
      with
      | Ret _ w' | Exc _ w' => channels_grow (heap w) (heap w')
      | OutOfModel => False
      end).
    { intros w2 Hg. unfold bind at 1, get_heap at 1.
      destruct (hierarchy (buses (heap w2) this) !! sk) as [chain|];
        [|exact Hg].
      unfold bind at 1, modify_heap at 1. unfold bind at 1, get_heap at 1.
      cbn [heap].
      destruct (channels _ !! key) eqn:Hck; unfold ret, modify_heap; cbn [heap].
      - eapply channels_grow_trans; [exact Hg|].
        intros b k ch. rewrite channels_set_hierarchy. by left.
      - eapply channels_grow_trans; [exact Hg|].
        intros b k ch. rewrite channels_set_channels.
        case_decide; [intros [= <-]; by right|].
        rewrite channels_set_hierarchy. by left. }
    destruct (hierarchy (buses h1 this) !! sk) as [chain|] eqn:Hsup.
    + unfold ret. apply (Hstep w1). by apply channels_grow_buses.
    + specialize (IH sk w1).
      destruct (EventBus_calculate_class this sk s w1) as [[] w2|x w2|];
        [| |done].
      * apply Hstep. eapply channels_grow_trans; [|exact IH].
        by apply channels_grow_buses.
      * eapply channels_grow_trans; [|exact IH]. by apply channels_grow_buses.
Qed.

Lemma subscribe_present (w : World) (this : BusId) (type : Class)
    (listener : LId) (ch : list LId) :
  let key := (Event_key_static (Cls type) (heap w)).1 in
  let h1 := (Event_key_static (Cls type) (heap w)).2 in
  channels (buses h1 this) !! key = Some ch →
  EventBus_subscribe this type listener w
  = if bool_decide (listener ∈ ch) then
      Exc duplicate_error (mkWorld h1 (callback w) (logger w) (trace w))
    else
      Ret tt (mkWorld (push_channel listener key
                         (set_channels this key (ch ++ [listener]) h1))
                      (callback w) (logger w) (trace w)).
Proof.
  intros key h1 Hch. unfold EventBus_subscribe, bind at 1, lift.
  subst key h1. destruct (Event_key_static (Cls type) (heap w)) as [key h1].
  simpl in Hch. unfold bind at 1, get_heap at 1. cbn [heap]. rewrite Hch.
  unfold bind at 1. cbn [fst snd]. case_bool_decide; [done|].
  unfold ret. unfold bind at 1, get_heap at 1. cbn [heap]. rewrite Hch.
  done.
Qed.

Lemma subscribe_channels_nodup (w : World) (this : BusId) (type : Class)
    (listener : LId) :
  channels_nodup (heap w) →
  match EventBus_subscribe this type listener w with
  | Ret _ w' | Exc _ w' => channels_nodup (heap w')
  | OutOfModel => False
  end.
Proof.
  intros Hn.
  pose proof (key_static_buses (Cls type) (heap w)) as Hb.
  pose proof (subscribe_present w this type listener) as Hpres.
  cbv zeta in Hpres.
  assert (Hn1 : channels_nodup (Event_key_static (Cls type) (heap w)).2)
    by (intros b k ch; rewrite Hb; apply Hn).
  destruct (channels (buses (Event_key_static (Cls type) (heap w)).2 this)
              !! (Event_key_static (Cls type) (heap w)).1) as [ch|] eqn:Hch.
  - rewrite (Hpres ch) by done. case_bool_decide as Hin; cbn [heap]; [done|].
    intros b k ch'. unfold push_channel, set_listener. cbn [buses].
    rewrite channels_set_channels. case_decide as Hd.
    + intros [= <-]. apply NoDup_app. split; [by eapply Hn1|].
      split; [|apply NoDup_singleton].
      intros x Hx ->%list_elem_of_singleton. done.
    + apply Hn1.
  - clear Hpres. unfold EventBus_subscribe, bind at 1, lift.
    destruct (Event_key_static (Cls type) (heap w)) as [key h1].
    simpl in Hch, Hn1. unfold bind at 1, get_heap at 1. cbn [heap].
    rewrite Hch. unfold bind at 1, EventBus_calculate.
    pose proof (calculate_class_channels type this key
                  (mkWorld h1 (callback w) (logger w) (trace w))) as Hg.
    destruct (EventBus_calculate_class this key type _) as [[] w2|x w2|];
      cbn [heap] in Hg; [| |done].
    + pose proof (channels_grow_nodup _ _ Hg Hn1) as Hn2.
      unfold bind at 1, get_heap at 1.
      destruct (channels (buses (heap w2) this) !! key) as [ch|] eqn:Hch2;
        [|exact Hn2].
      unfold bind, modify_heap. cbn [heap].
      destruct (Hg this key ch Hch2) as [Hold| ->]; [congruence|].
      intros b k ch'. unfold push_channel, set_listener. cbn [buses].
      rewrite channels_set_channels. case_decide as Hd.
      * intros [= <-]. apply NoDup_singleton.
      * apply Hn2.
    + by apply (channels_grow_nodup _ _ Hg).
Qed.

(** C9: subscribing a listener that is already in the channel of the
    type's key throws the duplicate-subscription error and leaves every
    bus and every listener as it was.  A listener that is not yet in the
    channel is appended; subscribing it again then throws and the channel
    keeps its length: one more than before, 1 for a channel that was
    empty.  No call of [subscribe], however it ends, puts a listener twice
    in a channel. *)
Theorem duplicate_subscription_rejected (w : World) (this : BusId)
    (type : Class) (listener : LId) (ch : list LId) :
  let key := (Event_key_static (Cls type) (heap w)).1 in
  let h1 := (Event_key_static (Cls type) (heap w)).2 in
  channels (buses h1 this) !! key = Some ch →
  (listener ∈ ch →
     EventBus_subscribe this type listener w
       = Exc duplicate_error (mkWorld h1 (callback w) (logger w) (trace w)) ∧
     buses h1 = buses (heap w) ∧ listeners h1 = listeners (heap w)) ∧
  (listener ∉ ch →
     ∃ w1, EventBus_subscribe this type listener w = Ret tt w1 ∧
       channels (buses (heap w1) this) !! key = Some (ch ++ [listener]) ∧
       EventBus_subscribe this type listener w1 = Exc duplicate_error w1 ∧
       length (ch ++ [listener]) = S (length ch)) ∧
  (channels_nodup (heap w) →
     match EventBus_subscribe this type listener w with
     | Ret _ w' | Exc _ w' => channels_nodup (heap w')
     | OutOfModel => False
     end).
Proof.
  intros key h1 Hch.
  pose proof (subscribe_present w this type listener ch Hch) as Hpres.
  fold key h1 in Hpres.
  split; [|split].
  - intros Hin. rewrite Hpres, bool_decide_eq_true_2 by done.
    split; [done|]. split;
      [apply key_static_buses | apply key_static_listeners].
  - intros Hnin. rewrite Hpres, bool_decide_eq_false_2 by done.
    eexists. split; [done|]. cbn [heap].
    set (h2 := push_channel listener key
                 (set_channels this key (ch ++ [listener]) h1)).
    assert (Hch2 : channels (buses h2 this) !! key = Some (ch ++ [listener])).
    { unfold h2, push_channel, set_listener. cbn [buses].
      by rewrite channels_set_channels, decide_True. }
    assert (Hkey2 : Event_key_static (Cls type) h2 = (key, h2)).
    { unfold Event_key_static.
      assert (statics h2 = statics h1) as -> by done.
      unfold key, h1. by rewrite key_static_stable. }
    split; [exact Hch2|]. split; [|by rewrite length_app; simpl; lia].
    pose proof (subscribe_present (mkWorld h2 (callback w) (logger w) (trace w))
                  this type listener (ch ++ [listener])) as Hagain.
    cbv zeta in Hagain. cbn [heap] in Hagain. rewrite Hkey2 in Hagain.
    rewrite (Hagain Hch2), bool_decide_eq_true_2; [done|].
    apply elem_of_app. right. by left.
  - apply subscribe_channels_nodup.
Qed.

(** [calculate] records, for a key that has no chain yet, the chain of
    the super key followed by the key itself: chains are root first. *)
Lemma calculate_class_chain (c : Class) (this : BusId) (key : Sym)
    (w w' : World) :
  let superEvent :=
    match c with EventC => ObjectC | Extends _ s => Cls s end in
  let superKey := (Event_key_static superEvent (heap w)).1 in
  hierarchy (buses (heap w) this) !! key = None →
  EventBus_calculate_class this key c w = Ret tt w' →
  ∃ chain,
    hierarchy (buses (heap w') this) !! key = Some (chain ++ [key]) ∧
    (superKey ≠ key →
     hierarchy (buses (heap w') this) !! superKey = Some chain).
Proof.
  intros superEvent superKey Hnone.
  assert (Hfinal : ∀ w2 r,
    (do h <- get_heap;
     match hierarchy (buses h this) !! superKey with
     | None => throw TypeError
     | Some chain =>
         run modify_heap (set_hierarchy this key (chain ++ [key]));
         do h <- get_heap;
         match channels (buses h this) !! key with
         | Some _ => ret tt
         | None => modify_heap (set_channels this key [])
         end
     end) w2 = Ret r w' →
    ∃ chain,
      hierarchy (buses (heap w') this) !! key = Some (chain ++ [key]) ∧
      (superKey ≠ key →
       hierarchy (buses (heap w') this) !! superKey = Some chain)).
  { intros w2 r. unfold bind at 1, get_heap at 1.
    destruct (hierarchy (buses (heap w2) this) !! superKey) as [chain|] eqn:Hs;
      [|done].
    unfold bind at 1, modify_heap at 1. unfold bind at 1, get_heap at 1.
    cbn [heap].
    destruct (channels _ !! key) eqn:Hck; unfold ret, modify_heap; cbn [heap];
      intros [= <- <-]; exists chain; cbn [heap];
      unfold set_channels, set_hierarchy, set_bus; cbn [buses];
      rewrite ?fn_lookup_insert; cbn [hierarchy];
      rewrite ?fn_lookup_insert; cbn [hierarchy];
      (split; [by rewrite lookup_insert_eq|]);
      intros Hne; by rewrite lookup_insert_ne. }
  subst superKey superEvent.
  destruct c as [|n s]; simpl; unfold bind at 1, get_heap at 1;
    rewrite Hnone; unfold bind at 1, lift.
  - destruct (Event_key_static ObjectC (heap w)) as [sk h1]. cbn [fst] in *.
    unfold bind at 1, get_heap at 1. cbn [heap]. unfold bind at 1.
    destruct (hierarchy (buses h1 this) !! sk) eqn:Hs.
    + unfold ret. apply Hfinal.
    + unfold EventBus_calculate_object, bind at 1, get_heap at 1. cbn [heap].
      by rewrite Hs.
  - destruct (Event_key_static (Cls s) (heap w)) as [sk h1]. cbn [fst] in *.
    unfold bind at 1, get_heap at 1. cbn [heap]. unfold bind at 1.
    destruct (hierarchy (buses h1 this) !! sk) eqn:Hs.
    + unfold ret. apply Hfinal.
    + destruct (EventBus_calculate_class this sk s _) as [[] w2| |]; [|done..].
      apply Hfinal.
Qed.

(** With a slot of its own for [Child], subscribing to [Child] computes
    the chain [root; key of Child] and publishing a [Child] event would
    draw on both channels, the root channel first. *)
Example calculate_chain_root_first :
  let w := mkWorld own_slot_heap (λ _, noop) (λ _, no_log) [] in
  let w' := world_of (EventBus_subscribe GLOBAL Child 7 w) in
  hierarchy (buses (heap w') GLOBAL) !! 1%N = Some [root; 1%N] ∧
  channels (buses (heap w') GLOBAL) !! 1%N = Some [7%nat] ∧
  candidate_pool GLOBAL 1%N (heap w') = Some [7%nat].
Proof. by vm_compute. Qed.

(** ** The invariants of the registry *)

Lemma bus_rooted_new (n : string) (h : Heap) :
  bus_rooted (alloc_bus n h).2 (alloc_bus n h).1.
Proof.
  unfold bus_rooted, alloc_bus; cbn [fst snd buses].
  rewrite fn_lookup_insert. cbn [hierarchy channels].
  rewrite !lookup_singleton_eq. by eauto.
Qed.

Lemma bus_rooted_initial : bus_rooted initial_heap GLOBAL.
Proof. apply (bus_rooted_new "global" empty_heap). Qed.

(** [subscribe] on a rooted bus of the program: the key is [root], the
    listener goes to the root channel or the call throws, and the
    invariants stay. *)
Lemma subscribe_rooted (w : World) (this : BusId) (type : Class) (listener : LId) :
  only_Event_slot (heap w) → bus_rooted (heap w) this →
  ∃ ch, channels (buses (heap w) this) !! root = Some ch ∧
    EventBus_subscribe this type listener w
    = if bool_decide (listener ∈ ch) then Exc duplicate_error w
      else Ret tt (mkWorld (push_channel listener root
                              (set_channels this root (ch ++ [listener])
                                            (heap w)))
                           (callback w) (logger w) (trace w)).
Proof.
  intros Hs [Hh [ch Hch]]. exists ch. split; [done|].
  pose proof (subscribe_present w this type listener ch) as H.
  cbv zeta in H. rewrite key_static_root in H by done. cbn [fst snd] in H.
  rewrite (H Hch). by destruct w.
Qed.

Lemma subscribe_keeps_rooted (w : World) (this b : BusId) (type : Class)
    (listener : LId) :
  only_Event_slot (heap w) → bus_rooted (heap w) this → bus_rooted (heap w) b →
  match EventBus_subscribe this type listener w with
  | Ret _ w' | Exc _ w' => only_Event_slot (heap w') ∧ bus_rooted (heap w') b
  | OutOfModel => False
  end.
Proof.
  intros Hs Hr Hb.
  destruct (subscribe_rooted w this type listener Hs Hr) as (ch & Hch & ->).
  case_bool_decide; [done|]. cbn [heap]. split; [exact Hs|].
  destruct Hb as [Hh [chb Hchb]]. split.
  - unfold push_channel, set_listener, set_channels, set_bus. cbn [buses].
    destruct (decide (this = b)) as [<-|].
    + by rewrite fn_lookup_insert.
    + by rewrite fn_lookup_insert_ne.
  - unfold push_channel, set_listener. cbn [buses].
    rewrite channels_set_channels. case_decide; by eauto.
Qed.

(** A listener subscribed to a type is in the channel of the type's key. *)
Lemma subscribed_in_channel (w w' : World) (this : BusId) (type : Class)
    (listener : LId) :
  only_Event_slot (heap w) → bus_rooted (heap w) this →
  EventBus_subscribe this type listener w = Ret tt w' →
  ∃ ch, channels (buses (heap w') this)
          !! (Event_key_static (Cls type) (heap w')).1 = Some ch ∧
        listener ∈ ch.
Proof.
  intros Hs Hr.
  destruct (subscribe_rooted w this type listener Hs Hr) as (ch & Hch & ->).
  case_bool_decide; [done|]. intros [= <-]. cbn [heap].
  exists (ch ++ [listener]). split.
  - rewrite key_static_root by exact Hs. cbn [fst].
    unfold push_channel, set_listener. cbn [buses].
    by rewrite channels_set_channels, decide_True.
  - apply elem_of_app. right. by left.
Qed.

Lemma unsubscribe_each_keeps (this : BusId) (listener : LId) (cs : list Sym)
    (w : World) :
  match EventBus_unsubscribe_each this listener cs w with
  | Ret _ w' | Exc _ w' =>
      statics (heap w') = statics (heap w) ∧
      (∀ b, hierarchy (buses (heap w') b) = hierarchy (buses (heap w) b)) ∧
      (∀ b k, is_Some (channels (buses (heap w) b) !! k) →
              is_Some (channels (buses (heap w') b) !! k)) ∧
      (channels_nodup (heap w) → channels_nodup (heap w'))
  | OutOfModel => False
  end.
Proof.
  revert w. induction cs as [|c cs IH]; intros w; simpl.
  - unfold ret. by repeat split.
  - unfold bind at 1, get_heap at 1.
    destruct (channels (buses (heap w) this) !! c) as [ch|] eqn:Hch.
    + unfold bind at 1, modify_heap at 1.
      set (w1 := mkWorld _ (callback w) (logger w) (trace w)).
      specialize (IH w1).
      assert (H1 : statics (heap w1) = statics (heap w) ∧
        (∀ b, hierarchy (buses (heap w1) b) = hierarchy (buses (heap w) b)) ∧
        (∀ b k, is_Some (channels (buses (heap w) b) !! k) →
                is_Some (channels (buses (heap w1) b) !! k)) ∧
        (channels_nodup (heap w) → channels_nodup (heap w1))).
      { unfold w1; cbn [heap]. split; [done|]. split; [|split].
        - intros b. unfold set_channels, set_bus. cbn [buses].
          destruct (decide (this = b)) as [<-|].
          + by rewrite fn_lookup_insert.
          + by rewrite fn_lookup_insert_ne.
        - intros b k. rewrite channels_set_channels. case_decide; by eauto.
        - intros Hn b k ch'. rewrite channels_set_channels.
          case_decide; [|apply Hn]. intros [= <-].
          apply NoDup_filter. by eapply Hn. }
      destruct H1 as (Hs1 & Hh1 & Hc1 & Hn1).
      destruct (EventBus_unsubscribe_each this listener cs w1)
        as [[] w2|x w2|]; [| |done];
        destruct IH as (Hs2 & Hh2 & Hc2 & Hn2);
        (split; [congruence|]); (split; [intros b; by rewrite Hh2|]);
        (split; [intros b k Hk; by apply Hc2, Hc1|]);
        intros Hn; by apply Hn2, Hn1.
    + unfold throw. by repeat split.
Qed.

(** [unsubscribe] keeps the invariants too, however it ends. *)
Lemma unsubscribe_keeps (w : World) (this b : BusId) (listener : LId) :
  match EventBus_unsubscribe this listener w with
  | Ret _ w' | Exc _ w' =>
      (only_Event_slot (heap w) → only_Event_slot (heap w')) ∧
      (bus_rooted (heap w) b → bus_rooted (heap w') b) ∧
      (channels_nodup (heap w) → channels_nodup (heap w'))
  | OutOfModel => False
  end.
Proof.
  unfold EventBus_unsubscribe, bind at 1, get_heap at 1. unfold bind at 1.
  pose proof (unsubscribe_each_keeps this listener
                (l_channels (listeners (heap w) listener)) w) as H.
  destruct (EventBus_unsubscribe_each this listener _ w) as [[] w1|x w1|];
    [| |done]; destruct H as (Hs & Hh & Hc & Hn).
  - unfold modify_heap. cbn [heap].
    split; [|split].
    + unfold only_Event_slot, set_listener. cbn [statics]. by rewrite Hs.
    + intros [Hr Hch]. split; unfold set_listener; cbn [buses].
      * by rewrite Hh.
      * by apply Hc.
    + intros Hnd b' k ch. unfold set_listener. cbn [buses]. by apply Hn.
  - split; [|split].
    + unfold only_Event_slot. by rewrite Hs.
    + intros [Hr Hch]. split; [by rewrite Hh|by apply Hc].
    + exact Hn.
Qed.

(** ** Chains and their channels

    A bus made by the constructor and changed by [subscribe] and
    [unsubscribe] has a channel for every key of every chain, and on such
    a bus [publish] stays inside the model. *)

Lemma hierarchy_set_channels (b b' : BusId) (k : Sym) (ls : list LId) (h : Heap) :
  hierarchy (buses (set_channels b k ls h) b') = hierarchy (buses h b').
Proof.
  unfold set_channels, set_bus; simpl.
  destruct (decide (b = b')) as [<-|].
  - by rewrite fn_lookup_insert.
  - by rewrite fn_lookup_insert_ne.
Qed.

Lemma hierarchy_set_hierarchy (b b' : BusId) (k k' : Sym) (ks : list Sym)
    (h : Heap) :
  hierarchy (buses (set_hierarchy b k ks h) b') !! k'
  = if decide (b = b' ∧ k = k') then Some ks
    else hierarchy (buses h b') !! k'.
Proof.
  unfold set_hierarchy, set_bus; simpl.
  destruct (decide (b = b')) as [<-|Hb].
  - rewrite fn_lookup_insert. simpl.
    destruct (decide (k = k')) as [<-|Hk].
    + by rewrite lookup_insert_eq, decide_True.
    + rewrite lookup_insert_ne by done. rewrite decide_False; [done|].
      by intros [_ ?].
  - rewrite fn_lookup_insert_ne by done. rewrite decide_False; [done|].
    by intros [? _].
Qed.

Lemma chains_have_channels_buses (h h' : Heap) :
  buses h' = buses h → chains_have_channels h → chains_have_channels h'.
Proof. intros Hb Hc b k k' chain. rewrite Hb. apply Hc. Qed.

Lemma chains_have_channels_set_channels (b : BusId) (k : Sym)
    (ls : list LId) (h : Heap) :
  chains_have_channels h → chains_have_channels (set_channels b k ls h).
Proof.
  intros Hc b' k1 k2 chain. rewrite hierarchy_set_channels.
  intros Hh Hin. rewrite channels_set_channels.
  case_decide; [by eauto|]. by eapply Hc.
Qed.

(** The last step of [calculate]: record the chain, make the channel. *)
Lemma record_chain_keeps (this : BusId) (key superKey : Sym) (w : World) :
  chains_have_channels (heap w) →
  match
    (do h <- get_heap;
     match hierarchy (buses h this) !! superKey with
     | None => throw TypeError
     | Some chain =>
         run modify_heap (set_hierarchy this key (chain ++ [key]));
         do h <- get_heap;
         match channels (buses h this) !! key with
         | Some _ => ret tt
         | None => modify_heap (set_channels this key [])
         end
     end) w
  with
  | Ret _ w' | Exc _ w' => chains_have_channels (heap w')
  | OutOfModel => False
  end.
Proof.
  intros Hc. unfold bind at 1, get_heap at 1.
  destruct (hierarchy (buses (heap w) this) !! superKey) as [chain|] eqn:Hs;
    [|exact Hc].
  unfold bind at 1, modify_heap at 1. unfold bind at 1, get_heap at 1.
  cbn [heap].
  assert (Hstep : ∀ b k k' ch,
    hierarchy (buses (set_hierarchy this key (chain ++ [key]) (heap w)) b)
      !! k = Some ch → k' ∈ ch →
    (b = this ∧ k' = key) ∨ is_Some (channels (buses (heap w) b) !! k')).
  { intros b k k' ch. rewrite hierarchy_set_hierarchy.
    case_decide as Hd.
    - destruct Hd as [<- <-]. intros [= <-] [Hin|Hin]%elem_of_app.
      + right. by eapply Hc.
      + apply list_elem_of_singleton in Hin as ->. by left.
    - intros Hh Hin. right. by eapply Hc. }
  destruct (channels _ !! key) as [c0|] eqn:Hck; unfold ret, modify_heap;
    cbn [heap]; intros b k k' ch Hh Hin.
  - rewrite channels_set_hierarchy.
    destruct (Hstep b k k' ch Hh Hin) as [[-> ->]|Hold]; [|done].
    rewrite channels_set_hierarchy in Hck. by eauto.
  - rewrite hierarchy_set_channels in Hh.
    rewrite channels_set_channels. case_decide as Hd; [by eauto|].
    rewrite channels_set_hierarchy.
    destruct (Hstep b k k' ch Hh Hin) as [[-> ->]|Hold]; [|done].
    by destruct Hd.
Qed.

Lemma calculate_class_chains (c : Class) (this : BusId) (key : Sym) (w : World) :
  chains_have_channels (heap w) →
  match EventBus_calculate_class this key c w with
  | Ret _ w' | Exc _ w' => chains_have_channels (heap w')
  | OutOfModel => False
  end.
Proof.
  revert key w. induction c as [|n s IH]; intros key w Hc; simpl;
    unfold bind at 1, get_heap at 1;
    (destruct (hierarchy (buses (heap w) this) !! key) eqn:Hk; [exact Hc|]);
    unfold bind at 1, lift.
  - destruct (Event_key_static ObjectC (heap w)) as [sk h1] eqn:Hsk.
    assert (Hc1 : chains_have_channels h1).
    { apply (chains_have_channels_buses (heap w)); [|done].
      by rewrite <- (key_static_buses ObjectC (heap w)), Hsk. }
    unfold bind at 1, get_heap at 1. cbn [heap]. unfold bind at 1.
    destruct (hierarchy (buses h1 this) !! sk) as [chain|] eqn:Hsup.
    + unfold ret. by apply record_chain_keeps.
    + unfold EventBus_calculate_object, bind at 1, get_heap at 1. cbn [heap].
      by rewrite Hsup.
  - destruct (Event_key_static (Cls s) (heap w)) as [sk h1] eqn:Hsk.
    assert (Hc1 : chains_have_channels h1).
    { apply (chains_have_channels_buses (heap w)); [|done].
      by rewrite <- (key_static_buses (Cls s) (heap w)), Hsk. }
    unfold bind at 1, get_heap at 1. cbn [heap]. unfold bind at 1.
    destruct (hierarchy (buses h1 this) !! sk) as [chain|] eqn:Hsup.
    + unfold ret. by apply record_chain_keeps.
    + specialize (IH sk (mkWorld h1 (callback w) (logger w) (trace w)) Hc1).
      destruct (EventBus_calculate_class this sk s _) as [[] w2|x w2|];
        [|done..].
      by apply record_chain_keeps.
Qed.

Lemma subscribe_chains (w : World) (this : BusId) (type : Class)
    (listener : LId) :
  chains_have_channels (heap w) →
  match EventBus_subscribe this type listener w with
  | Ret _ w' | Exc _ w' => chains_have_channels (heap w')
  | OutOfModel => False
  end.
Proof.
  intros Hc. unfold EventBus_subscribe, bind at 1, lift.
  destruct (Event_key_static (Cls type) (heap w)) as [key h1] eqn:Hk.
  assert (Hc1 : chains_have_channels h1).
  { apply (chains_have_channels_buses (heap w)); [|done].
    by rewrite <- (key_static_buses (Cls type) (heap w)), Hk. }
  unfold bind at 1, get_heap at 1. cbn [heap].
  assert (Hpush : ∀ w2, chains_have_channels (heap w2) →
    match
      (do h <- get_heap;
       match channels (buses h this) !! key with
       | None => throw TypeError
       | Some ch =>
           run modify_heap (set_channels this key (ch ++ [listener]));
           modify_heap (push_channel listener key)
       end) w2
    with
    | Ret _ w' | Exc _ w' => chains_have_channels (heap w')
    | OutOfModel => False
    end).
  { intros w2 Hc2. unfold bind at 1, get_heap at 1.
    destruct (channels (buses (heap w2) this) !! key); [|exact Hc2].
    unfold bind, modify_heap. cbn [heap].
    apply (chains_have_channels_buses
             (set_channels this key (l ++ [listener]) (heap w2))); [done|].
    by apply chains_have_channels_set_channels. }
  destruct (channels (buses h1 this) !! key) as [ch|] eqn:Hch.
  - unfold bind at 1. case_bool_decide; [exact Hc1|].
    unfold ret. by apply Hpush.
  - unfold bind at 1, EventBus_calculate.
    pose proof (calculate_class_chains type this key
                  (mkWorld h1 (callback w) (logger w) (trace w)) Hc1) as Hg.
    destruct (EventBus_calculate_class this key type _) as [[] w2|x w2|];
      [|done..].
    by apply Hpush.
Qed.

Lemma unsubscribe_chains (w : World) (this : BusId) (listener : LId) :
  chains_have_channels (heap w) →
  match EventBus_unsubscribe this listener w with
  | Ret _ w' | Exc _ w' => chains_have_channels (heap w')
  | OutOfModel => False
  end.
Proof.
  intros Hc. unfold EventBus_unsubscribe, bind at 1, get_heap at 1.
  unfold bind at 1.
  pose proof (unsubscribe_each_keeps this listener
                (l_channels (listeners (heap w) listener)) w) as H.
  destruct (EventBus_unsubscribe_each this listener _ w) as [[] w1|x w1|];
    [| |done]; destruct H as (_ & Hh & Hch & _).
  - unfold modify_heap. cbn [heap]. intros b k k' chain.
    unfold set_listener. cbn [buses]. rewrite Hh. intros Hk Hin.
    apply Hch. by eapply Hc.
  - intros b k k' chain. rewrite Hh. intros Hk Hin.
    apply Hch. by eapply Hc.
Qed.

Lemma chains_have_channels_initial : chains_have_channels initial_heap.
Proof.
  intros b k k' chain. unfold initial_heap, alloc_bus, empty_heap.
  cbn [buses snd next_bus]. unfold insert, fn_insert.
  destruct (decide (0%nat = b)); cbn [hierarchy channels].
  - intros [<- <-]%lookup_singleton_Some ->%list_elem_of_singleton.
    rewrite lookup_singleton_eq. by eauto.
  - by rewrite lookup_empty.
Qed.

(** On such a bus [publish] returns or throws: the model covers it. *)
Lemma publish_in_model (w : World) (this : BusId) (event : EvId) :
  chains_have_channels (heap w) →
  EventBus_publish this event w ≠ OutOfModel.
Proof.
  intros Hc. unfold EventBus_publish, bind at 1, get_heap at 1.
  destruct (finished (Event_status event (heap w))); [done|].
  unfold bind at 1, lift.
  destruct (Event_key event (heap w)) as [key h1] eqn:Hk.
  assert (Hc1 : chains_have_channels h1).
  { apply (chains_have_channels_buses (heap w)); [|done].
    unfold Event_key in Hk.
    by rewrite <- (key_static_buses (Cls (class (events (heap w) event)))
                     (heap w)), Hk. }
  unfold bind at 1, get_heap at 1. cbn [heap].
  destruct (hierarchy (buses h1 this) !! key) as [chain|] eqn:Hh; [|done].
  assert (is_Some (channel_lists (buses h1 this) chain)) as [lists ->].
  { apply mapM_is_Some, Forall_forall. intros k' Hin. by eapply Hc1. }
  unfold bind at 1.
  destruct (some_execute_returns event
              (sort (λ a b, nice h1 a - nice h1 b) (concat lists))
              (mkWorld h1 (callback w) (logger w) (trace w)))
    as (b & w1 & n & -> & _).
  unfold bind at 1, modify_heap at 1.
  unfold EventBus_log, bind, output. cbn [logger heap].
  by destruct (logger w1 this event _).
Qed.

(** ** Chains run from the root to the type itself *)

Lemma root_to_self_buses (h h' : Heap) :
  buses h' = buses h → chains_root_to_self h → chains_root_to_self h'.
Proof. intros Hb Hc b k chain. rewrite Hb. apply Hc. Qed.

Lemma root_to_self_set_channels (b : BusId) (k : Sym) (ls : list LId)
    (h : Heap) :
  chains_root_to_self h → chains_root_to_self (set_channels b k ls h).
Proof.
  intros Hc b' k' chain. rewrite hierarchy_set_channels. apply Hc.
Qed.

Lemma root_to_self_set_hierarchy (b : BusId) (key superKey : Sym)
    (chain : list Sym) (h : Heap) :
  chains_root_to_self h →
  hierarchy (buses h b) !! superKey = Some chain →
  chains_root_to_self (set_hierarchy b key (chain ++ [key]) h).
Proof.
  intros Hc Hs b' k' chain'. rewrite hierarchy_set_hierarchy.
  case_decide as Hd; [|apply Hc].
  destruct Hd as [_ <-]. intros [= <-].
  destruct (Hc b superKey chain Hs) as [Hhead _].
  split; [|apply last_snoc].
  destruct chain as [|x r]; [done|]. exact Hhead.
Qed.

Lemma record_chain_root_to_self (this : BusId) (key superKey : Sym)
    (w : World) :
  chains_root_to_self (heap w) →
  leaves chains_root_to_self
    ((do h <- get_heap;
      match hierarchy (buses h this) !! superKey with
      | None => throw TypeError
      | Some chain =>
          run modify_heap (set_hierarchy this key (chain ++ [key]));
          do h <- get_heap;
          match channels (buses h this) !! key with
          | Some _ => ret tt
          | None => modify_heap (set_channels this key [])
          end
      end) w).
Proof.
  intros Hc. unfold bind at 1, get_heap at 1.
  destruct (hierarchy (buses (heap w) this) !! superKey) as [chain|] eqn:Hs;
    [|exact Hc].
  unfold bind at 1, modify_heap at 1. unfold bind at 1, get_heap at 1.
  cbn [heap].
  pose proof (root_to_self_set_hierarchy this key superKey chain (heap w)
                Hc Hs) as Hc'.
  destruct (channels _ !! key); unfold ret, modify_heap, leaves; cbn [heap];
    [exact Hc'|by apply root_to_self_set_channels].
Qed.

Lemma calculate_class_root_to_self (c : Class) (this : BusId) (key : Sym)
    (w : World) :
  chains_root_to_self (heap w) →
  leaves chains_root_to_self (EventBus_calculate_class this key c w).
Proof.
  revert key w. induction c as [|n s IH]; intros key w Hc; simpl;
    unfold bind at 1, get_heap at 1;
    (destruct (hierarchy (buses (heap w) this) !! key) eqn:Hk; [exact Hc|]);
    unfold bind at 1, lift.
  - destruct (Event_key_static ObjectC (heap w)) as [sk h1] eqn:Hsk.
    assert (Hc1 : chains_root_to_self h1).
    { apply (root_to_self_buses (heap w)); [|done].
      by rewrite <- (key_static_buses ObjectC (heap w)), Hsk. }
    unfold bind at 1, get_heap at 1. cbn [heap]. unfold bind at 1.
    destruct (hierarchy (buses h1 this) !! sk) as [chain|] eqn:Hsup.
    + unfold ret. by apply record_chain_root_to_self.
    + unfold EventBus_calculate_object, bind at 1, get_heap at 1. cbn [heap].
      by rewrite Hsup.
  - destruct (Event_key_static (Cls s) (heap w)) as [sk h1] eqn:Hsk.
    assert (Hc1 : chains_root_to_self h1).
    { apply (root_to_self_buses (heap w)); [|done].
      by rewrite <- (key_static_buses (Cls s) (heap w)), Hsk. }
    unfold bind at 1, get_heap at 1. cbn [heap]. unfold bind at 1.
    destruct (hierarchy (buses h1 this) !! sk) as [chain|] eqn:Hsup.
    + unfold ret. by apply record_chain_root_to_self.
    + specialize (IH sk (mkWorld h1 (callback w) (logger w) (trace w)) Hc1).
      destruct (EventBus_calculate_class this sk s _) as [[] w2|x w2|];
        [|done..].
      by apply record_chain_root_to_self.
Qed.

Lemma subscribe_root_to_self (w : World) (this : BusId) (type : Class)
    (listener : LId) :
  chains_root_to_self (heap w) →
  leaves chains_root_to_self (EventBus_subscribe this type listener w).
Proof.
  intros Hc. unfold EventBus_subscribe, bind at 1, lift.
  destruct (Event_key_static (Cls type) (heap w)) as [key h1] eqn:Hk.
  assert (Hc1 : chains_root_to_self h1).
  { apply (root_to_self_buses (heap w)); [|done].
    by rewrite <- (key_static_buses (Cls type) (heap w)), Hk. }
  unfold bind at 1, get_heap at 1. cbn [heap].
  assert (Hpush : ∀ w2, chains_root_to_self (heap w2) →
    leaves chains_root_to_self
      ((do h <- get_heap;
        match channels (buses h this) !! key with
        | None => throw TypeError
        | Some ch =>
            run modify_heap (set_channels this key (ch ++ [listener]));
            modify_heap (push_channel listener key)
        end) w2)).
  { intros w2 Hc2. unfold bind at 1, get_heap at 1.
    destruct (channels (buses (heap w2) this) !! key); [|exact Hc2].
    unfold bind, modify_heap, leaves. cbn [heap].
    apply (root_to_self_buses
             (set_channels this key (l ++ [listener]) (heap w2))); [done|].
    by apply root_to_self_set_channels. }
  destruct (channels (buses h1 this) !! key) as [ch|] eqn:Hch.
  - unfold bind at 1. case_bool_decide; [exact Hc1|].
    unfold ret. by apply Hpush.
  - unfold bind at 1, EventBus_calculate.
    pose proof (calculate_class_root_to_self type this key
                  (mkWorld h1 (callback w) (logger w) (trace w)) Hc1) as Hg.
    destruct (EventBus_calculate_class this key type _) as [[] w2|x w2|];
      [|done..].
    by apply Hpush.
Qed.

Lemma alloc_bus_root_to_self (n : string) (h : Heap) :
  chains_root_to_self h → chains_root_to_self (alloc_bus n h).2.
Proof.
  intros Hc b k chain. unfold alloc_bus. cbn [snd buses].
  destruct (decide (b = next_bus h)) as [->|Hne].
  - rewrite fn_lookup_insert. cbn [hierarchy].
    by intros [<- <-]%lookup_singleton_Some.
  - rewrite fn_lookup_insert_ne by done. apply Hc.
Qed.

Lemma root_to_self_initial : chains_root_to_self initial_heap.
Proof.
  apply (alloc_bus_root_to_self "global" empty_heap).
  intros b k chain. unfold empty_heap. cbn [buses hierarchy].
  by rewrite lookup_empty.
Qed.

(** ** The order of the calls *)

Lemma chain_runs_or_halts (e : EvId) (ls : list LId) (w : World) :
  (∃ w2, some (λ l, EventBus_execute l e) ls w = Ret false w2) ∨
  (∃ pre l post w2, ls = pre ++ l :: post ∧
     some (λ l, EventBus_execute l e) pre w = Ret false w2 ∧
     halts e (callback w l e (Event_delivered e l (heap w2)))).
Proof.
  revert w. induction ls as [|x r IH]; intros w.
  { left. by eexists. }
  destruct (callback w x e (Event_delivered e x (heap w))) as [h|xn h] eqn:Hcb.
  - destruct (finished (Event_status e h)) eqn:Hfin.
    + right. exists [], x, r, w. split; [done|]. split; [done|].
      rewrite Hcb. exact Hfin.
    + set (w1 := mkWorld h (callback w) (logger w) (trace w ++ [Invoked x e])).
      assert (Hex : EventBus_execute x e w = Ret false w1).
      { rewrite execute_unfold, Hcb. by rewrite Hfin. }
      destruct (IH w1) as [[w2 Hrun]|(pre & l & post & w2 & -> & Hrun & Hh)].
      * left. exists w2. simpl. unfold bind. by rewrite Hex.
      * right. exists (x :: pre), l, post, w2. split; [done|].
        split; [|exact Hh]. simpl. unfold bind. by rewrite Hex.
  - right. exists [], x, r, w. split; [done|]. split; [done|].
    by rewrite Hcb.
Qed.

Lemma halting_listener_returns_true (e : EvId) (pre post : list LId)
    (l : LId) (w w2 : World) :
  some (λ l, EventBus_execute l e) pre w = Ret false w2 →
  halts e (callback w l e (Event_delivered e l (heap w2))) →
  ∃ w3, some (λ l, EventBus_execute l e) (pre ++ l :: post) w = Ret true w3.
Proof.
  intros Hpre Hh. destruct (some_through e pre w w2 Hpre) as [Hcb _].
  rewrite <- Hcb in Hh. destruct (execute_halting l e w2 Hh) as [w3 Hex].
  exists w3. rewrite some_app, Hpre. simpl. unfold bind. by rewrite Hex.
Qed.

Lemma first_halt_unique (e : EvId) (pre post pre' post' : list LId)
    (l l' : LId) (w w2 w2' : World) :
  pre ++ l :: post = pre' ++ l' :: post' →
  some (λ l, EventBus_execute l e) pre w = Ret false w2 →
  halts e (callback w l e (Event_delivered e l (heap w2))) →
  some (λ l, EventBus_execute l e) pre' w = Ret false w2' →
  halts e (callback w l' e (Event_delivered e l' (heap w2'))) →
  length pre = length pre'.
Proof.
  intros Heq Hpre Hh Hpre' Hh'.
  apply app_eq_inv in Heq as [(k & Hk1 & Hk2)|(k & Hk1 & Hk2)].
  - destruct k as [|y k]; [by rewrite Hk1, app_nil_r|].
    simpl in Hk2. injection Hk2 as <- _. subst pre.
    destruct (halting_listener_returns_true e pre' k l' w w2' Hpre' Hh')
      as [w3 H3].
    rewrite H3 in Hpre. discriminate Hpre.
  - destruct k as [|y k]; [by rewrite Hk1, app_nil_r|].
    simpl in Hk2. injection Hk2 as <- _. subst pre'.
    destruct (halting_listener_returns_true e pre k l w w2 Hpre Hh)
      as [w3 H3].
    rewrite H3 in Hpre'. discriminate Hpre'.
Qed.

(** C2: the listeners of a publish are called in the order of the sorted
    pool (the log consumer of the bus only observes).  The pool is the
    concatenation of the channel lists of the keys of the chain, in the
    order of the chain.  The callbacks called by the publish are exactly
    those of the first [n] listeners of the sorted pool, in that order,
    where [n] is the length of the pool when no listener halts the chain,
    and the position of the first listener that halts it plus one
    otherwise; one of the two is always the case.  The sorted pool is a
    permutation of the pool in which a listener of strictly lower [nice]
    stands before one of higher [nice], and in which the listeners of
    each [nice] value keep the order they have in the pool.  The chains
    run from the root to the type itself: the constructor of a bus gives
    the root key the chain [[root]], and [calculate] gives a key the
    chain of the key of the extended class followed by the key itself;
    so the constructor and [subscribe] (the only caller of [calculate])
    keep every chain starting with the root key and ending with its own
    key, and where that holds the chain of the published event does. *)
Theorem listeners_run_in_stable_priority_order (w : World) (this : BusId)
    (event : EvId) (pool : list LId) :
  let key := (Event_key event (heap w)).1 in
  let h1 := (Event_key event (heap w)).2 in
  let sorted := sort (λ a b, nice h1 a - nice h1 b) pool in
  quiet_logger w this →
  finished (Event_status event (heap w)) = false →
  candidate_pool this key h1 = Some pool →
  (∃ chain lists,
     hierarchy (buses h1 this) !! key = Some chain ∧
     Forall2 (λ k ch, channels (buses h1 this) !! k = Some ch) chain lists ∧
     pool = concat lists ∧
     (chains_root_to_self (heap w) →
      head chain = Some root ∧ last chain = Some key)) ∧
  (∃ w' n, EventBus_publish this event w = Ret tt w' ∧
     invocations (trace w') = invocations (trace w) ++ take n sorted ∧
     (n ≤ length sorted)%nat ∧
     (∀ w2, some (λ l, EventBus_execute l event) sorted (after_key event w)
            = Ret false w2 →
            n = length sorted) ∧
     (∀ pre l post w2,
        sorted = pre ++ l :: post →
        some (λ l, EventBus_execute l event) pre (after_key event w)
        = Ret false w2 →
        halts event (callback w l event (Event_delivered event l (heap w2))) →
        n = S (length pre)) ∧
     ((∃ w2, some (λ l, EventBus_execute l event) sorted (after_key event w)
             = Ret false w2) ∨
      (∃ pre l post w2,
         sorted = pre ++ l :: post ∧
         some (λ l, EventBus_execute l event) pre (after_key event w)
         = Ret false w2 ∧
         halts event
               (callback w l event (Event_delivered event l (heap w2)))))) ∧
  sorted ≡ₚ pool ∧
  (∀ i j a b, sorted !! i = Some a → sorted !! j = Some b →
     nice h1 a < nice h1 b → (i < j)%nat) ∧
  (∀ p, filter (λ a, nice h1 a = p) sorted = filter (λ a, nice h1 a = p) pool) ∧
  (∀ n0 h0,
     hierarchy (buses (alloc_bus n0 h0).2 (alloc_bus n0 h0).1) !! root
     = Some [root]) ∧
  (∀ c k w0 w0',
     hierarchy (buses (heap w0) this) !! k = None →
     EventBus_calculate_class this k c w0 = Ret tt w0' →
     ∃ chain0,
       hierarchy (buses (heap w0') this) !! k = Some (chain0 ++ [k]) ∧
       ((Event_key_static
           match c with EventC => ObjectC | Extends _ s => Cls s end
           (heap w0)).1 ≠ k →
        hierarchy (buses (heap w0') this)
          !! (Event_key_static
                match c with EventC => ObjectC | Extends _ s => Cls s end
                (heap w0)).1 = Some chain0)) ∧
  (∀ n0 h0, chains_root_to_self h0 →
            chains_root_to_self (alloc_bus n0 h0).2) ∧
  (∀ type l w0,
     chains_root_to_self (heap w0) →
     leaves chains_root_to_self (EventBus_subscribe this type l w0)).
Proof.
  intros key h1 sorted Hq Hf Hpool.
  split.
  { destruct (proj1 (candidate_pool_chain _ _ _ _) Hpool)
      as (chain & lists & Hh & Hm & Hp).
    exists chain, lists. split; [exact Hh|]. split; [exact Hm|].
    split; [exact Hp|]. intros Hc. apply (Hc this).
    unfold h1, Event_key in Hh. by rewrite key_static_buses in Hh. }
  split.
  { assert (Hsp : sorted_pool this event (heap w) = Some sorted).
    { unfold sorted_pool. fold key h1 in Hpool.
      destruct (Event_key event (heap w)) as [k' h'] eqn:Hk.
      simpl in key, h1. subst key h1. by rewrite Hpool. }
    rewrite (publish_sorted_pool w this event sorted Hf Hsp).
    assert (Hq' : quiet_logger (after_key event w) this) by exact Hq.
    clear Hsp. clearbody sorted.
    destruct (chain_runs_or_halts event sorted (after_key event w))
      as [[w2 Hrun]|(pre & l & post & w2 & Hs & Hrun & Hh)].
    - rewrite (dispatch_completed this event sorted (after_key event w) w2
                 Hq' Hrun).
      exists (logged_world this event w2), (length sorted).
      split; [done|]. split.
      { unfold logged_world. cbn [trace]. rewrite invocations_app.
        destruct (some_through _ _ _ _ Hrun) as [_ ->]. simpl.
        by rewrite app_nil_r, firstn_all. }
      split; [done|]. split; [done|]. split.
      { intros pre l post w2' Hs Hpre Hh. exfalso.
        destruct (halting_listener_returns_true event pre post l _ _ Hpre Hh)
          as [w3 H3].
        rewrite <- Hs, Hrun in H3. discriminate H3. }
      left. by exists w2.
    - subst sorted.
      destruct (some_through _ _ _ _ Hrun) as [Hcb Hinv].
      destruct (execute_halting l event w2) as [w3 Hex].
      { rewrite Hcb. exact Hh. }
      rewrite (dispatch_halted this event pre post l (after_key event w)
                 w2 w3 Hq' Hrun Hex).
      eexists _, (S (length pre)). split; [done|]. cbn [trace]. split.
      { destruct (execute_returns l event w2)
          as (b & w3' & Hex' & _ & Hinv3 & _).
        rewrite Hex in Hex'. injection Hex' as <- <-.
        rewrite invocations_app, Hinv3, Hinv. simpl. rewrite app_nil_r.
        replace (S (length pre)) with (length pre + 1)%nat by lia.
        rewrite take_app_add' by done. simpl. rewrite take_0.
        by rewrite <- app_assoc. }
      split; [rewrite length_app; simpl; lia|]. split.
      { intros w2' Hall. exfalso.
        destruct (halting_listener_returns_true event pre post l _ _ Hrun Hh)
          as [w3' H3].
        rewrite Hall in H3. discriminate H3. }
      split.
      { intros pre' l' post' w2' Hs' Hpre' Hh'. f_equal.
        exact (first_halt_unique event pre post pre' post' l l' _ w2 w2'
                 Hs' Hrun Hh Hpre' Hh'). }
      right. by exists pre, l, post, w2. }
  split; [apply (sort_perm (nice h1))|].
  split.
  { intros i j a b. apply (ascending_lower_first (nice h1)).
    apply (sort_ascending (nice h1)). }
  split; [intros p; apply (sort_stable (nice h1))|].
  split; [intros n0 h0; exact (proj1 (bus_rooted_new n0 h0))|].
  split.
  { intros c k w0 w0' Hnone Hrun.
    exact (calculate_class_chain c this k w0 w0' Hnone Hrun). }
  split; [intros n0 h0; apply alloc_bus_root_to_self|].
  intros type l w0. apply subscribe_root_to_self.
Qed.

(** ** The properties on the sample programs *)

Lemma stop_deliveries (e : EvId) (r : option string) (h : Heap) :
  deliveries (slot (Event_stop e r h) e) = deliveries (slot h e).
Proof.
  unfold Event_stop. by rewrite deliveries_set_reason, deliveries_set_status.
Qed.

Lemma channels_nodup_initial : channels_nodup initial_heap.
Proof.
  intros b k ch. unfold initial_heap, alloc_bus, empty_heap.
  cbn [buses snd next_bus]. unfold insert, fn_insert.
  destruct (decide (0%nat = b)); cbn [channels].
  - intros [_ <-]%lookup_singleton_Some. constructor.
  - by rewrite lookup_empty.
Qed.



Lemma listeners_run_in_stable_priority_order_witness :
  candidate_pool GLOBAL (Event_key 0 (heap root_and_child)).1
                 (Event_key 0 (heap root_and_child)).2
  = Some [0%nat; 1%nat] ∧
  nice (heap root_and_child) 1 < nice (heap root_and_child) 0 ∧
  (∃ w',
     EventBus_publish GLOBAL 0 root_and_child = Ret tt w' ∧
     invocations (trace w') = [1%nat; 0%nat]) ∧
  leaves chains_root_to_self
         (EventBus_subscribe GLOBAL Child 0 initial_world).
Proof.
  assert (Hf : finished (Event_status 0 (heap root_and_child)) = false)
    by (vm_compute; reflexivity).
  assert (Hpool : candidate_pool GLOBAL
                    (Event_key 0 (heap root_and_child)).1
                    (Event_key 0 (heap root_and_child)).2
                  = Some [0%nat; 1%nat]) by (vm_compute; reflexivity).
  assert (Hq : quiet_logger root_and_child GLOBAL).
  { intros e h. vm_compute. reflexivity. }
  split; [exact Hpool|]. split; [vm_compute; reflexivity|].
  destruct (listeners_run_in_stable_priority_order root_and_child GLOBAL 0
              [0%nat; 1%nat] Hq Hf Hpool)
    as (_ & (w' & n & Hpub & Hinv & _ & Hall & _ & _) & _ & _ & _ & _ & _
        & _ & Hsub).
  split; [|exact (Hsub Child 0%nat initial_world root_to_self_initial)].
  assert (Hn : n = 2%nat).
  { etrans; [eapply Hall; vm_compute; reflexivity|].
    vm_compute. reflexivity. }
  rewrite Hn in Hinv.
  exists w'. split; [exact Hpub|].
  revert Hinv. vm_compute. exact (λ H, H).
Defined.

Lemma listener_error_aborts_event_witness :
  ∃ w',
    EventBus_publish GLOBAL 0 (three_listeners thrower) = Ret tt w' ∧
    Event_status 0 (heap w') = ABORTED ∧
    Event_reason 0 (heap w') = Some abort_reason ∧
    invocations (trace w') = [0%nat; 1%nat] ∧
    promises (heap w') (Event_resolution 0 (heap w'))
      = Rejected (Some abort_reason).
Proof.
  edestruct (listener_error_aborts_event (three_listeners thrower) GLOBAL 0
               [0%nat] [2%nat] 1)
    as (w' & Hpub & Hst & Hre & _ & Hinv & _ & Hown & _);
    [intros e h; vm_compute; reflexivity
    | vm_compute; reflexivity | vm_compute; reflexivity
    | vm_compute; reflexivity | vm_compute; reflexivity |].
  exists w'. split; [exact Hpub|]. split; [exact Hst|]. split; [exact Hre|].
  split; [revert Hinv; vm_compute; exact (λ H, H)|].
  apply Hown; vm_compute; reflexivity.
Defined.

Lemma publish_finished_event_throws_witness :
  let w := mkWorld (Event_stop 0 (Some "done"%string) (heap root_and_child))
                   (callback root_and_child) (logger root_and_child) [] in
  Event_publish 0 w = Exc (Error "Event has already finished") w ∧
  EventBus_publish GLOBAL 0 w
    = Exc (Error "This event has already been processed!") w.
Proof.
  intros w. apply (publish_finished_event_throws w GLOBAL 0).
  right. left. by vm_compute.
Defined.

Lemma halting_listener_cuts_chain_witness :
  ∃ w',
    EventBus_publish GLOBAL 0 (three_listeners stopper) = Ret tt w' ∧
    invocations (trace w') = [0%nat; 1%nat] ∧
    deliveries (slot (heap w') 0) = [0%nat; 1%nat] ∧
    Event_count 0 (heap w') = 2%nat.
Proof.
  edestruct (halting_listener_cuts_chain (three_listeners stopper) GLOBAL 0
               [0%nat] [2%nat] 1)
    as (w' & Hpub & Hinv & Hdel & Hcount & _);
    [intros e h; vm_compute; reflexivity
    | vm_compute; reflexivity | vm_compute; reflexivity
    | vm_compute; reflexivity | vm_compute; reflexivity | |].
  - intros l' [Hl'|Hl']%elem_of_app; apply list_elem_of_singleton in Hl' as ->.
    + change (keeps_deliveries noop 0). intros h. reflexivity.
    + change (keeps_deliveries stopper 0). intros h. apply stop_deliveries.
  - exists w'. split; [exact Hpub|].
    split; [revert Hinv; vm_compute; exact (λ H, H)|].
    split; [revert Hdel; vm_compute; exact (λ H, H)|].
    revert Hcount; vm_compute; exact (λ H, H).
Defined.

Lemma duplicate_subscription_rejected_witness :
  let w1 := world_of (EventBus_subscribe GLOBAL Child 5 initial_world) in
  (∃ w', EventBus_subscribe GLOBAL Child 5 initial_world = Ret tt w' ∧
     channels (buses (heap w') GLOBAL) !! root = Some [5%nat] ∧
     EventBus_subscribe GLOBAL Child 5 w' = Exc duplicate_error w') ∧
  EventBus_subscribe GLOBAL Child 5 w1 = Exc duplicate_error w1 ∧
  channels_nodup (heap w1).
Proof.
  intros w1.
  assert (H0 : channels
                 (buses (Event_key_static (Cls Child) (heap initial_world)).2
                        GLOBAL)
                 !! (Event_key_static (Cls Child) (heap initial_world)).1
               = Some []) by (by vm_compute).
  destruct (duplicate_subscription_rejected initial_world GLOBAL Child 5 []
              H0) as (_ & Hnew & Hnodup).
  destruct (Hnew (not_elem_of_nil 5%nat)) as (w' & Hfirst & Hch & Hagain & _).
  split.
  { exists w'. split; [exact Hfirst|]. split; [|exact Hagain].
    revert Hch. vm_compute. exact (λ H, H). }
  assert (H1 : channels
                 (buses (Event_key_static (Cls Child) (heap w1)).2 GLOBAL)
                 !! (Event_key_static (Cls Child) (heap w1)).1
               = Some [5%nat]) by (by vm_compute).
  destruct (duplicate_subscription_rejected w1 GLOBAL Child 5 [5%nat] H1)
    as (Hdup & _ & _).
  destruct (Hdup (list_elem_of_here 5%nat [])) as (Hexc & _ & _).
  split.
  { etrans; [exact Hexc|]. vm_compute. reflexivity. }
  specialize (Hnodup channels_nodup_initial).
  rewrite Hfirst in Hnodup.
  assert (w1 = w') as ->; [|exact Hnodup].
  unfold w1. by rewrite Hfirst.
Defined.

Lemma inherit_copies_enumerable_properties_sample :
  let h0 := heap root_and_child in
  let h1 := (Event_new EventC
               (Event_with 0 [mkProps None None {["user" := VStr "ann"]}]
                           h0)).2 in
  let h2 := Event_inherit 1 0 h1 in
  fields (events h2 1) !! "user" = Some (VStr "ann") ∧
  Event_depth 1 h2 = 1%nat ∧
  Event_resolution 1 h2 = 0%nat ∧
  promises (Event_finish 1 h2) 0 = Resolved 0%nat ∧
  promises (Event_finish 1 h2) 1 = Pending.
Proof. by vm_compute. Qed.

(** * The other methods *)

(** ** EventListener: the constructor *)

Lemma listener_new_in_range (cb : EventConsumer) (n : Z) (w : World) :
  MIN_VALUE ≤ n ≤ MAX_VALUE →
  EventListener_new cb n w
  = Ret (next_listener (heap w))
        (mkWorld
           (mkHeap (statics (heap w)) (next_symbol (heap w)) (events (heap w))
                   (next_event (heap w)) (promises (heap w))
                   (<[next_listener (heap w) := mkListener None None n []]>
                      (listeners (heap w)))
                   (S (next_listener (heap w))) (buses (heap w))
                   (next_bus (heap w)))
           (<[next_listener (heap w) := cb]> (callback w)) (logger w)
           (trace w)).
Proof.
  intros Hin. unfold EventListener_new.
  by rewrite bool_decide_eq_false_2 by lia.
Qed.

Lemma listener_new_out_of_range (cb : EventConsumer) (n : Z) (w : World) :
  n < MIN_VALUE ∨ n > MAX_VALUE →
  ∃ msg, EventListener_new cb n w = Exc (Error msg) w.
Proof.
  intros Hout. unfold EventListener_new.
  rewrite bool_decide_eq_true_2 by done. by eexists.
Qed.

(** X1: [new EventListener(callback, nice)] accepts exactly the priorities
    from MIN_VALUE to MAX_VALUE.  Inside the range it makes a new listener
    with that priority, no name, no owner, no recorded channel and the
    callback given, and touches no other listener, no bus and no event;
    outside it throws and changes nothing. *)
Theorem listener_constructor_checks_range (cb : EventConsumer) (n : Z)
    (w : World) :
  let l := next_listener (heap w) in
  (MIN_VALUE ≤ n ≤ MAX_VALUE →
     ∃ w', EventListener_new cb n w = Ret l w' ∧
       listeners (heap w') l = mkListener None None n [] ∧
       nice (heap w') l = n ∧
       callback w' l = cb ∧
       (∀ l', l' ≠ l →
          listeners (heap w') l' = listeners (heap w) l' ∧
          callback w' l' = callback w l') ∧
       buses (heap w') = buses (heap w) ∧
       events (heap w') = events (heap w) ∧
       statics (heap w') = statics (heap w) ∧
       trace w' = trace w) ∧
  (n < MIN_VALUE ∨ n > MAX_VALUE →
     ∃ msg, EventListener_new cb n w = Exc (Error msg) w).
Proof.
  intros l. split; [|apply listener_new_out_of_range].
  intros Hin. rewrite listener_new_in_range by done. fold l.
  eexists. split; [done|].
  cbn [heap callback trace listeners buses events statics].
  unfold nice. cbn [listeners]. rewrite !fn_lookup_insert.
  repeat split; try done; by rewrite fn_lookup_insert_ne.
Qed.

Lemma listener_constructor_checks_range_witness :
  (∃ w', EventListener_new noop POST_PROCESS initial_world = Ret 0%nat w' ∧
     nice (heap w') 0 = POST_PROCESS) ∧
  (∃ msg, EventListener_new noop 20001 initial_world
          = Exc (Error msg) initial_world).
Proof.
  destruct (listener_constructor_checks_range noop POST_PROCESS initial_world)
    as [Hin _].
  destruct (listener_constructor_checks_range noop 20001 initial_world)
    as [_ Hout].
  split.
  - destruct Hin as (w' & Hnew & _ & Hnice & _);
      [unfold MIN_VALUE, POST_PROCESS, MAX_VALUE; lia|].
    exists w'. split; [exact Hnew|exact Hnice].
  - apply Hout. right. unfold MAX_VALUE. lia.
Defined.

(** ** EventBus: listen *)

(** X2: [listen(type, name, owner, callback, nice)] on a bus that has the
    root channel.  With a priority in range it makes a new listener,
    names it, appends it to the channel after the listeners already
    there and records the key on it; with a priority out of range it
    throws before anything is subscribed and changes nothing. *)
Theorem listen_subscribes_new_listener (w : World) (this : BusId)
    (type : Class) (n o : string) (cb : EventConsumer) (p : Z)
    (ch : list LId) :
  let l := next_listener (heap w) in
  only_Event_slot (heap w) →
  channels (buses (heap w) this) !! root = Some ch →
  l ∉ ch →
  (MIN_VALUE ≤ p ≤ MAX_VALUE →
     ∃ w', EventBus_listen this type n o cb p w = Ret l w' ∧
       channels (buses (heap w') this) !! root = Some (ch ++ [l]) ∧
       listeners (heap w') l = mkListener (Some n) (Some o) p [root] ∧
       callback w' l = cb ∧
       trace w' = trace w) ∧
  (p < MIN_VALUE ∨ p > MAX_VALUE →
     ∃ msg, EventBus_listen this type n o cb p w = Exc (Error msg) w).
Proof.
  intros l Hs Hch Hnin. split.
  - intros Hin.
    unfold EventBus_listen, bind at 1.
    rewrite listener_new_in_range by done. fold l.
    unfold bind at 1, modify_heap at 1. cbn [heap callback logger trace].
    set (w2 := mkWorld _ (<[l := cb]> (callback w)) (logger w) (trace w)).
    assert (Hs2 : only_Event_slot (heap w2)) by exact Hs.
    assert (Hch2 : channels
                     (buses (Event_key_static (Cls type) (heap w2)).2 this)
                     !! (Event_key_static (Cls type) (heap w2)).1 = Some ch).
    { rewrite key_static_root by exact Hs2. exact Hch. }
    pose proof (subscribe_present w2 this type l ch Hch2) as Hsub.
    rewrite key_static_root in Hsub by exact Hs2. cbn [fst snd] in Hsub.
    rewrite bool_decide_eq_false_2 in Hsub by exact Hnin.
    unfold bind at 1. rewrite Hsub. unfold ret.
    eexists. split; [done|]. cbn [heap callback trace].
    split.
    { unfold push_channel, set_listener. cbn [buses].
      by rewrite channels_set_channels, decide_True. }
    split; [|split; [unfold w2; cbn [callback]; by rewrite fn_lookup_insert
                    |done]].
    unfold push_channel, set_listener, set_channels, set_bus.
    cbn [listeners]. rewrite fn_lookup_insert.
    unfold w2, named, set_listener. cbn [heap listeners].
    by rewrite !fn_lookup_insert.
  - intros Hout.
    destruct (listener_new_out_of_range cb p w Hout) as (msg & Hexc).
    exists msg.
    unfold EventBus_listen, bind at 1. by rewrite Hexc.
Qed.

Lemma listen_subscribes_new_listener_witness :
  (∃ w', EventBus_listen GLOBAL Child "n" "o" noop 5 initial_world = Ret 0%nat w' ∧
     channels (buses (heap w') GLOBAL) !! root = Some [0%nat] ∧
     listeners (heap w') 0
       = mkListener (Some "n"%string) (Some "o"%string) 5 [root]) ∧
  (∃ msg, EventBus_listen GLOBAL Child "n" "o" noop (-20001) initial_world
          = Exc (Error msg) initial_world).
Proof.
  assert (Hch : channels (buses (heap initial_world) GLOBAL) !! root = Some [])
    by (by vm_compute).
  destruct (listen_subscribes_new_listener initial_world GLOBAL Child
              "n" "o" noop 5 [] only_Event_slot_initial Hch
              (not_elem_of_nil _)) as [Hin _].
  destruct (listen_subscribes_new_listener initial_world GLOBAL Child
              "n" "o" noop (-20001) [] only_Event_slot_initial Hch
              (not_elem_of_nil _)) as [_ Hout].
  split.
  - destruct Hin as (w' & Hl & Hc & Hn & _);
      [unfold MIN_VALUE, MAX_VALUE; lia|].
    exists w'. split; [exact Hl|]. split; [exact Hc|exact Hn].
  - apply Hout. left. unfold MIN_VALUE. lia.
Defined.

(** ** EventBus: unsubscribe *)

Lemma filter_out_idemp (l : LId) (ch : list LId) :
  filter (λ x, x ≠ l) (filter (λ x, x ≠ l) ch) = filter (λ x, x ≠ l) ch.
Proof.
  induction ch as [|x ch IH]; [done|].
  rewrite (filter_cons _ x ch). destruct (decide (x ≠ l)); [|exact IH].
  rewrite filter_cons_True by done. by rewrite IH.
Qed.

Lemma filter_out_absent (l : LId) (ch : list LId) :
  l ∉ ch → filter (λ x, x ≠ l) ch = ch.
Proof.
  induction ch as [|x ch IH]; [done|].
  intros [Hne Hnin]%not_elem_of_cons.
  rewrite filter_cons_True by done. by rewrite IH.
Qed.

Lemma elem_of_concat_inv {A} (x : A) (ls : list (list A)) :
  x ∈ concat ls → ∃ l, l ∈ ls ∧ x ∈ l.
Proof.
  induction ls as [|l ls IH]; simpl; [by intros ?%elem_of_nil|].
  intros [Hx|Hx]%elem_of_app.
  - exists l. split; [left|done].
  - destruct (IH Hx) as (l' & Hl' & Hx'). exists l'. split; [by right|done].
Qed.

(** The loop of [unsubscribe]: each recorded channel is filtered, and
    nothing else is written. *)
Lemma unsubscribe_each_spec (this : BusId) (l : LId) (cs : list Sym)
    (w w' : World) :
  EventBus_unsubscribe_each this l cs w = Ret tt w' →
  (∀ k, channels (buses (heap w') this) !! k
        = if decide (k ∈ cs)
          then filter (λ x, x ≠ l) <$> channels (buses (heap w) this) !! k
          else channels (buses (heap w) this) !! k) ∧
  (∀ b, b ≠ this → buses (heap w') b = buses (heap w) b) ∧
  hierarchy (buses (heap w') this) = hierarchy (buses (heap w) this) ∧
  listeners (heap w') = listeners (heap w) ∧
  events (heap w') = events (heap w) ∧
  promises (heap w') = promises (heap w) ∧
  callback w' = callback w ∧ logger w' = logger w ∧ trace w' = trace w.
Proof.
  revert w. induction cs as [|c cs IH]; intros w; simpl.
  - unfold ret. intros [= <-]. split; [|done].
    intros k. by destruct (decide (k ∈ [])) as [?%elem_of_nil|].
  - unfold bind at 1, get_heap at 1.
    destruct (channels (buses (heap w) this) !! c) as [ch|] eqn:Hc; [|done].
    unfold bind at 1, modify_heap at 1. intros Hrun.
    destruct (IH _ Hrun) as (Hch & Hb & Hh & Hl & He & Hp & Hcb & Hlg & Htr).
    cbn [heap callback logger trace] in *.
    split; [|split; [|split]];
      [| |by rewrite Hh, hierarchy_set_channels
       |repeat split; first [exact Hl | exact He | exact Hp | done]].
    + intros k. rewrite Hch, channels_set_channels.
      destruct (decide (k = c)) as [->|Hkc].
      * rewrite (decide_True (P := this = this ∧ c = c)) by done.
        rewrite (decide_True (P := c ∈ c :: cs)) by left. rewrite Hc. simpl.
        destruct (decide (c ∈ cs)); simpl; [|done].
        by rewrite filter_out_idemp.
      * rewrite (decide_False (P := this = this ∧ c = k))
          by (intros [_ ?]; done).
        destruct (decide (k ∈ cs)) as [Hin|Hnin].
        -- rewrite decide_True; [done|]. by right.
        -- rewrite decide_False; [done|].
           intros [?|?]%elem_of_cons; done.
    + intros b Hne. rewrite Hb by done.
      unfold set_channels, set_bus. cbn [buses].
      by rewrite fn_lookup_insert_ne.
Qed.

Lemma unsubscribe_each_returns (this : BusId) (l : LId) (cs : list Sym)
    (w : World) :
  (∀ k, k ∈ cs → is_Some (channels (buses (heap w) this) !! k)) →
  ∃ w', EventBus_unsubscribe_each this l cs w = Ret tt w'.
Proof.
  revert w. induction cs as [|c cs IH]; intros w Hall; simpl.
  - by eexists.
  - unfold bind at 1, get_heap at 1.
    destruct (Hall c) as [ch ->]; [left|].
    unfold bind at 1, modify_heap at 1. apply IH.
    intros k Hk. cbn [heap]. rewrite channels_set_channels.
    case_decide; [by eauto|]. apply Hall. by right.
Qed.

Lemma unsubscribe_unfold (this : BusId) (l : LId) (w : World) :
  EventBus_unsubscribe this l w
  = match EventBus_unsubscribe_each this l
            (l_channels (listeners (heap w) l)) w with
    | Ret _ w1 =>
        Ret tt (mkWorld
                  (set_listener l
                     (mkListener (l_name (listeners (heap w1) l))
                                 (l_owner (listeners (heap w1) l))
                                 (_nice (listeners (heap w1) l)) [])
                     (heap w1))
                  (callback w1) (logger w1) (trace w1))
    | Exc x w1 => Exc x w1
    | OutOfModel => OutOfModel
    end.
Proof.
  unfold EventBus_unsubscribe, bind at 1, get_heap at 1. unfold bind at 1.
  by destruct (EventBus_unsubscribe_each this l _ w).
Qed.

(** X3: [unsubscribe(listener)] on a bus that has a channel for every key
    the listener has on record returns; every channel of the bus whose
    key was on record has lost the listener and kept the others in their
    order; the other channels, the chains, the other buses and the other
    listeners are as they were; the listener's record of keys is
    empty. *)
Theorem unsubscribe_filters_recorded_channels (w : World) (this : BusId)
    (l : LId) :
  let cs := l_channels (listeners (heap w) l) in
  (∀ k, k ∈ cs → is_Some (channels (buses (heap w) this) !! k)) →
  ∃ w', EventBus_unsubscribe this l w = Ret tt w' ∧
  (∀ k, channels (buses (heap w') this) !! k
        = if decide (k ∈ cs)
          then filter (λ x, x ≠ l) <$> channels (buses (heap w) this) !! k
          else channels (buses (heap w) this) !! k) ∧
  (∀ k, k ∈ cs → ∀ ch, channels (buses (heap w') this) !! k = Some ch →
        l ∉ ch) ∧
  hierarchy (buses (heap w') this) = hierarchy (buses (heap w) this) ∧
  (∀ b, b ≠ this → buses (heap w') b = buses (heap w) b) ∧
  l_channels (listeners (heap w') l) = [] ∧
  nice (heap w') l = nice (heap w) l ∧
  (∀ l', l' ≠ l → listeners (heap w') l' = listeners (heap w) l') ∧
  trace w' = trace w.
Proof.
  intros cs Hall. rewrite unsubscribe_unfold. fold cs.
  destruct (unsubscribe_each_returns this l cs w Hall) as [w1 Hrun].
  rewrite Hrun. eexists. split; [reflexivity|].
  destruct (unsubscribe_each_spec _ _ _ _ _ Hrun)
    as (Hch & Hb & Hh & Hl & _ & _ & _ & _ & Htr).
  cbn [heap trace]. unfold set_listener, nice. cbn [buses listeners].
  rewrite fn_lookup_insert. cbn [l_channels _nice]. rewrite Hl.
  split; [exact Hch|]. split.
  { intros k Hk ch. rewrite Hch, decide_True by done.
    destruct (channels (buses (heap w) this) !! k) as [ch0|]; simpl; [|done].
    intros [= <-]. intros [Hne _]%list_elem_of_filter. done. }
  repeat split; try done.
  intros l' Hne. by rewrite fn_lookup_insert_ne.
Qed.

Lemma unsubscribe_filters_recorded_channels_witness :
  let w := three_listeners noop in
  ∃ w', EventBus_unsubscribe GLOBAL 1 w = Ret tt w' ∧
    channels (buses (heap w) GLOBAL) !! root = Some [0%nat; 1%nat; 2%nat] ∧
    channels (buses (heap w') GLOBAL) !! root = Some [0%nat; 2%nat] ∧
    l_channels (listeners (heap w') 1) = [].
Proof.
  intros w.
  assert (Hall : ∀ k, k ∈ l_channels (listeners (heap w) 1) →
                      is_Some (channels (buses (heap w) GLOBAL) !! k)).
  { intros k Hk.
    assert (Hroot : l_channels (listeners (heap w) 1) = [root])
      by (vm_compute; reflexivity).
    rewrite Hroot in Hk. apply list_elem_of_singleton in Hk as ->.
    eexists. vm_compute. reflexivity. }
  destruct (unsubscribe_filters_recorded_channels w GLOBAL 1 Hall)
    as (w' & Hrun & Hch & _ & _ & _ & Hcs & _).
  exists w'. split; [exact Hrun|].
  split; [vm_compute; reflexivity|]. split; [|exact Hcs].
  etrans; [exact (Hch root)|]. vm_compute. reflexivity.
Defined.

(** X4: a listener that has on record exactly channels of the bus, and
    every channel of the bus it stands in (as [subscribe] leaves it), is
    after [unsubscribe] in no channel of the bus and so in no candidate
    pool: no later publish on the bus can call it.  Every other listener
    is in a channel exactly when it was before. *)
Theorem unsubscribed_listener_leaves_every_pool (w : World) (this : BusId)
    (l : LId) :
  recorded_on (heap w) this l →
  (∀ k, k ∈ l_channels (listeners (heap w) l) →
        is_Some (channels (buses (heap w) this) !! k)) →
  ∃ w', EventBus_unsubscribe this l w = Ret tt w' ∧
  (∀ k ch, channels (buses (heap w') this) !! k = Some ch → l ∉ ch) ∧
  (∀ key pool, candidate_pool this key (heap w') = Some pool → l ∉ pool) ∧
  (∀ k ch, channels (buses (heap w) this) !! k = Some ch →
     ∃ ch', channels (buses (heap w') this) !! k = Some ch' ∧
            ∀ x, x ≠ l → (x ∈ ch' ↔ x ∈ ch)).
Proof.
  intros Hrec Hall. rewrite unsubscribe_unfold.
  destruct (unsubscribe_each_returns this l _ w Hall) as [w1 Hrun].
  rewrite Hrun. eexists. split; [reflexivity|].
  destruct (unsubscribe_each_spec _ _ _ _ _ Hrun) as (Hch & _).
  cbn [heap]. unfold set_listener. cbn [buses].
  assert (Hgone : ∀ k ch, channels (buses (heap w1) this) !! k = Some ch →
                          l ∉ ch).
  { intros k ch. rewrite Hch. case_decide as Hk.
    - destruct (channels (buses (heap w) this) !! k) as [ch0|]; simpl;
        [|done].
      intros [= <-]. by intros [Hne _]%list_elem_of_filter.
    - intros Hc Hin. apply Hk. by eapply Hrec. }
  split; [exact Hgone|]. split.
  - intros key pool (chain & lists & _ & Hm & ->)%candidate_pool_chain Hin.
    cbn [buses] in Hm.
    apply elem_of_concat_inv in Hin as (ch & Hch' & Hin).
    apply list_elem_of_lookup in Hch' as [i Hi].
    destruct (Forall2_lookup_r _ _ _ _ _ Hm Hi) as (k & _ & Hk).
    by eapply Hgone.
  - intros k ch Hc. rewrite Hch, Hc. case_decide; simpl.
    + eexists. split; [done|]. intros x Hx.
      rewrite list_elem_of_filter. split; [by intros [_ ?]|by split].
    + by eexists.
Qed.

Lemma unsubscribed_listener_leaves_every_pool_witness :
  let w := three_listeners noop in
  ∃ w', EventBus_unsubscribe GLOBAL 1 w = Ret tt w' ∧
    ∀ key pool, candidate_pool GLOBAL key (heap w') = Some pool →
                1%nat ∉ pool.
Proof.
  intros w.
  assert (Hroot : l_channels (listeners (heap w) 1) = [root])
    by (vm_compute; reflexivity).
  assert (Hall : ∀ k, k ∈ l_channels (listeners (heap w) 1) →
                      is_Some (channels (buses (heap w) GLOBAL) !! k)).
  { intros k Hk. rewrite Hroot in Hk.
    apply list_elem_of_singleton in Hk as ->.
    eexists. vm_compute. reflexivity. }
  assert (Hrec : recorded_on (heap w) GLOBAL 1).
  { intros k ch Hk _.
    rewrite Hroot. apply list_elem_of_singleton.
    destruct (decide (k = root)) as [->|Hne]; [done|].
    assert (Hnone : ∀ k', k' ≠ root →
              channels (buses (heap w) GLOBAL) !! k' = None).
    { intros k' Hk'.
      assert (Hm : channels (buses (heap w) GLOBAL)
                   = {[root := [0%nat; 1%nat; 2%nat]]})
        by (vm_compute; reflexivity).
      rewrite Hm. by apply lookup_singleton_ne. }
    rewrite Hnone in Hk by done. discriminate Hk. }
  destruct (unsubscribed_listener_leaves_every_pool w GLOBAL 1 Hrec Hall)
    as (w' & Hrun & _ & Hpool & _).
  exists w'. split; [exact Hrun|exact Hpool].
Defined.

(** X5: subscribing a listener that is in no channel yet and then
    unsubscribing it gives the bus back its channels and its chains, and
    the listener an empty record. *)
Theorem subscribe_unsubscribe_round_trip (w : World) (this : BusId)
    (type : Class) (l : LId) (ch : list LId) :
  only_Event_slot (heap w) →
  channels (buses (heap w) this) !! root = Some ch →
  l ∉ ch →
  l_channels (listeners (heap w) l) = [] →
  ∃ w1 w2,
    EventBus_subscribe this type l w = Ret tt w1 ∧
    channels (buses (heap w1) this) !! root = Some (ch ++ [l]) ∧
    EventBus_unsubscribe this l w1 = Ret tt w2 ∧
    channels (buses (heap w2) this) = channels (buses (heap w) this) ∧
    hierarchy (buses (heap w2) this) = hierarchy (buses (heap w) this) ∧
    l_channels (listeners (heap w2) l) = [].
Proof.
  intros Hs Hch Hnin Hrec.
  assert (Hch0 : channels
                   (buses (Event_key_static (Cls type) (heap w)).2 this)
                   !! (Event_key_static (Cls type) (heap w)).1 = Some ch).
  { rewrite key_static_root by exact Hs. exact Hch. }
  pose proof (subscribe_present w this type l ch Hch0) as Hsub.
  rewrite key_static_root in Hsub by exact Hs. cbn [fst snd] in Hsub.
  rewrite bool_decide_eq_false_2 in Hsub by exact Hnin.
  set (w1 := mkWorld (push_channel l root
                        (set_channels this root (ch ++ [l]) (heap w)))
                     (callback w) (logger w) (trace w)) in *.
  assert (Hch1 : ∀ k, channels (buses (heap w1) this) !! k
                      = if decide (k = root) then Some (ch ++ [l])
                        else channels (buses (heap w) this) !! k).
  { intros k. unfold w1, push_channel, set_listener. cbn [heap buses].
    rewrite channels_set_channels.
    destruct (decide (k = root)) as [->|Hne].
    - by rewrite decide_True.
    - rewrite decide_False; [done|]. by intros [_ ?]. }
  assert (Hcs1 : l_channels (listeners (heap w1) l) = [root]).
  { unfold w1, push_channel, set_listener, set_channels, set_bus.
    cbn [heap listeners]. rewrite fn_lookup_insert. cbn [l_channels].
    by rewrite Hrec. }
  destruct (unsubscribe_each_returns this l [root] w1) as [w1' Heach].
  { intros k ->%list_elem_of_singleton. rewrite Hch1, decide_True by done.
    by eauto. }
  pose proof (unsubscribe_unfold this l w1) as Hun.
  rewrite Hcs1, Heach in Hun.
  destruct (unsubscribe_each_spec _ _ _ _ _ Heach) as (Hch2 & _ & Hh2 & _).
  exists w1. eexists. split; [exact Hsub|].
  split; [by rewrite Hch1, decide_True|]. split; [exact Hun|].
  cbn [heap]. unfold set_listener at 1 2 3. cbn [buses listeners].
  rewrite fn_lookup_insert. cbn [l_channels].
  split; [|split; [|done]].
  - apply map_eq. intros k. rewrite Hch2, Hch1.
    destruct (decide (k = root)) as [->|Hne].
    + rewrite decide_True by left. simpl.
      rewrite filter_app, filter_out_absent by done.
      rewrite filter_cons_False, filter_nil by (intros Hne; by apply Hne).
      by rewrite app_nil_r, Hch.
    + rewrite decide_False; [done|]. by intros ?%list_elem_of_singleton.
  - rewrite Hh2. unfold w1, push_channel, set_listener. cbn [heap buses].
    unfold set_channels, set_bus. cbn [buses].
    by rewrite fn_lookup_insert.
Qed.

Lemma subscribe_unsubscribe_round_trip_witness :
  let w := three_listeners noop in
  ∃ w1 w2,
    EventBus_subscribe GLOBAL Child 9 w = Ret tt w1 ∧
    EventBus_unsubscribe GLOBAL 9 w1 = Ret tt w2 ∧
    channels (buses (heap w2) GLOBAL) = channels (buses (heap w) GLOBAL).
Proof.
  intros w.
  assert (Hs : only_Event_slot (heap w)).
  { split; [by vm_compute|]. intros n s. by vm_compute. }
  assert (Hch : channels (buses (heap w) GLOBAL) !! root
                = Some [0%nat; 1%nat; 2%nat]) by (vm_compute; reflexivity).
  assert (Hnin : 9%nat ∉ [0%nat; 1%nat; 2%nat]).
  { intros Hin. apply list_elem_of_In in Hin. simpl in Hin.
    repeat destruct Hin as [Hin|Hin]; first [discriminate Hin | exact Hin]. }
  assert (Hrec : l_channels (listeners (heap w) 9) = [])
    by (vm_compute; reflexivity).
  destruct (subscribe_unsubscribe_round_trip w GLOBAL Child 9
              [0%nat; 1%nat; 2%nat] Hs Hch Hnin Hrec)
    as (w1 & w2 & Hsub & _ & Hun & Hsame & _).
  exists w1, w2. split; [exact Hsub|]. split; [exact Hun|exact Hsame].
Defined.

(** X6: the record of keys belongs to the listener, not to a bus, and
    [unsubscribe] empties it whatever bus it is called on.  Unsubscribing
    a listener from a bus other than the one it stands in leaves that
    bus as it was and the record empty; a later [unsubscribe] on its own
    bus then finds nothing to filter, and the listener stays in its
    channels. *)
Theorem unsubscribe_elsewhere_forgets_record (w : World) (b1 b2 : BusId)
    (l : LId) :
  b1 ≠ b2 →
  (∀ k, k ∈ l_channels (listeners (heap w) l) →
        is_Some (channels (buses (heap w) b2) !! k)) →
  ∃ w1 w2,
    EventBus_unsubscribe b2 l w = Ret tt w1 ∧
    buses (heap w1) b1 = buses (heap w) b1 ∧
    l_channels (listeners (heap w1) l) = [] ∧
    EventBus_unsubscribe b1 l w1 = Ret tt w2 ∧
    buses (heap w2) b1 = buses (heap w) b1.
Proof.
  intros Hne Hall.
  destruct (unsubscribe_each_returns b2 l _ w Hall) as [w0 Heach].
  pose proof (unsubscribe_unfold b2 l w) as Hun. rewrite Heach in Hun.
  destruct (unsubscribe_each_spec _ _ _ _ _ Heach) as (_ & Hb & _).
  eexists. eexists. split; [exact Hun|].
  cbn [heap]. unfold set_listener at 1 2. cbn [buses listeners].
  rewrite fn_lookup_insert. cbn [l_channels].
  split; [by apply Hb|]. split; [done|].
  rewrite unsubscribe_unfold. cbn [heap]. unfold set_listener at 1.
  cbn [listeners]. rewrite fn_lookup_insert. cbn [l_channels].
  unfold EventBus_unsubscribe_each, ret. split; [done|].
  cbn [heap]. unfold set_listener. cbn [buses]. by apply Hb.
Qed.

Lemma unsubscribe_elsewhere_forgets_record_witness :
  let w := world_of
             ((do b <- EventBus_new "second";
               EventBus_listen GLOBAL EventC "global" "sample" noop DEFAULT)
                initial_world) in
  ∃ w1 w2,
    EventBus_unsubscribe 1 0 w = Ret tt w1 ∧
    EventBus_unsubscribe GLOBAL 0 w1 = Ret tt w2 ∧
    buses (heap w2) GLOBAL = buses (heap w) GLOBAL ∧
    channels (buses (heap w) GLOBAL) !! root = Some [0%nat].
Proof.
  intros w.
  assert (Hne : GLOBAL ≠ 1%nat) by (unfold GLOBAL; lia).
  assert (Hall : ∀ k, k ∈ l_channels (listeners (heap w) 0) →
                      is_Some (channels (buses (heap w) 1) !! k)).
  { assert (Hcs : l_channels (listeners (heap w) 0) = [root])
      by (vm_compute; reflexivity).
    rewrite Hcs. intros k ->%list_elem_of_singleton.
    exists []. vm_compute. reflexivity. }
  destruct (unsubscribe_elsewhere_forgets_record w GLOBAL 1 0 Hne Hall)
    as (w1 & w2 & H1 & _ & _ & H2 & Hsame).
  exists w1, w2. split; [exact H1|]. split; [exact H2|].
  split; [exact Hsame|]. vm_compute. reflexivity.
Defined.

(** ** EventBus: publish, the other ways it ends *)

Lemma some_false_unfinished (e : EvId) (ls : list LId) (w w' : World) :
  finished (Event_status e (heap w)) = false →
  some (λ l, EventBus_execute l e) ls w = Ret false w' →
  finished (Event_status e (heap w')) = false.
Proof.
  revert w. induction ls as [|l ls IH]; intros w Hf; simpl.
  - unfold ret. by intros [= <-].
  - unfold bind.
    destruct (execute_returns l e w) as (b & w1 & -> & _ & _ & Hb).
    destruct b; [done|]. apply IH. by apply Hb.
Qed.

Lemma finish_settles (e : EvId) (h : Heap) :
  promises (Event_finish e h) (resolver (events (Event_finish e h) e))
  ≠ Pending.
Proof.
  rewrite finish_resolver.
  pose proof (finish_promises e (resolver (events h e)) h) as H.
  cbv zeta in H. rewrite decide_True in H by done. rewrite H.
  destruct (promises h (resolver (events h e))); [|done..].
  by destruct (aborted _).
Qed.

(** X7: a publish in which no listener halts the chain.  Every listener
    of the sorted pool is called, in the order of the pool; the event
    ends FINISHED; nothing follows the last callback but the call of the
    log consumer; callbacks that leave the delivery log alone leave it
    longer by the sorted pool; an event that holds its own pending
    promise and resolver has the promise resolved with the event. *)
Theorem publish_runs_whole_pool (w : World) (this : BusId) (event : EvId)
    (sorted : list LId) (w2 : World) :
  quiet_logger w this →
  finished (Event_status event (heap w)) = false →
  sorted_pool this event (heap w) = Some sorted →
  some (λ l, EventBus_execute l event) sorted (after_key event w)
    = Ret false w2 →
  ∃ w', EventBus_publish this event w = Ret tt w' ∧
    invocations (trace w') = invocations (trace w) ++ sorted ∧
    trace w' = trace w2 ++ [Logged this event] ∧
    Event_status event (heap w') = FINISHED ∧
    ((∀ l, l ∈ sorted → keeps_deliveries (callback w l) event) →
     deliveries (slot (heap w') event)
       = deliveries (slot (heap w) event) ++ sorted) ∧
    (resolver (events (heap w2) event) = event →
     promises (heap w2) event = Pending →
     promises (heap w') event = Resolved event).
Proof.
  intros Hq Hf Hpool Hrun.
  rewrite (publish_sorted_pool w this event sorted Hf Hpool).
  rewrite (dispatch_completed this event sorted (after_key event w) w2 Hq Hrun).
  destruct (some_through event sorted _ _ Hrun) as [_ Hinv].
  assert (Hf2 : finished (Event_status event (heap w2)) = false).
  { apply (some_false_unfinished event sorted (after_key event w)); [|done].
    unfold Event_status, slot. by rewrite after_key_events. }
  eexists. split; [done|]. unfold logged_world. cbn [heap trace].
  split; [|split; [done|split; [|split]]].
  - rewrite invocations_app, Hinv. simpl. by rewrite app_nil_r.
  - by rewrite status_finish, Hf2.
  - intros Hkeep. rewrite finish_deliveries.
    rewrite (some_through_deliveries event sorted (after_key event w) w2);
      [|exact Hkeep|exact Hrun].
    unfold slot. by rewrite after_key_events.
  - intros Hown Hpend.
    pose proof (finish_promises event event (heap w2)) as H. cbv zeta in H.
    rewrite Hown, decide_True in H by done.
    rewrite H, Hpend, status_finish, Hf2. done.
Qed.

Lemma publish_runs_whole_pool_witness :
  ∃ w', EventBus_publish GLOBAL 0 (three_listeners noop) = Ret tt w' ∧
    invocations (trace w') = [0%nat; 1%nat; 2%nat] ∧
    Event_status 0 (heap w') = FINISHED ∧
    deliveries (slot (heap w') 0) = [0%nat; 1%nat; 2%nat] ∧
    promises (heap w') 0 = Resolved 0%nat.
Proof.
  edestruct (publish_runs_whole_pool (three_listeners noop) GLOBAL 0
               [0%nat; 1%nat; 2%nat])
    as (w' & Hpub & Hinv & _ & Hst & Hdel & Hres);
    [intros e h; vm_compute; reflexivity
    | vm_compute; reflexivity | vm_compute; reflexivity
    | vm_compute; reflexivity |].
  exists w'. split; [exact Hpub|].
  split; [revert Hinv; vm_compute; exact (λ H, H)|].
  split; [exact Hst|]. split.
  - assert (Hkeep : ∀ l, l ∈ [0%nat; 1%nat; 2%nat] →
              keeps_deliveries (callback (three_listeners noop) l) 0).
    { intros l Hl. apply list_elem_of_In in Hl. simpl in Hl.
      destruct Hl as [<-|[<-|[<-|[]]]]; intros h; reflexivity. }
    specialize (Hdel Hkeep). revert Hdel. vm_compute. exact (λ H, H).
  - apply Hres; vm_compute; reflexivity.
Defined.

(** X8: a publish in which a listener returns with the event finished:
    it stopped or aborted it.  The status and the reason the listener
    left are those the event ends with; nothing is called after the
    listener but the log consumer; an event that holds its own pending
    promise and resolver has the promise resolved with the event when the
    status is not aborted (a stop), and rejected with the reason the
    listener gave when it is (an abort). *)
Theorem listener_verdict_settles_promise (w : World) (this : BusId)
    (event : EvId) (pre post : list LId) (l : LId) (w2 : World) (h3 : Heap) :
  quiet_logger w this →
  finished (Event_status event (heap w)) = false →
  sorted_pool this event (heap w) = Some (pre ++ l :: post) →
  some (λ l, EventBus_execute l event) pre (after_key event w) = Ret false w2 →
  callback w l event (Event_delivered event l (heap w2)) = Normal h3 →
  finished (Event_status event h3) = true →
  ∃ w', EventBus_publish this event w = Ret tt w' ∧
    trace w' = trace w2 ++ [Invoked l event; Logged this event] ∧
    Event_status event (heap w') = Event_status event h3 ∧
    Event_reason event (heap w') = Event_reason event h3 ∧
    (resolver (events h3 event) = event → promises h3 event = Pending →
     promises (heap w') event
       = if aborted (Event_status event h3)
         then Rejected (Event_reason event h3) else Resolved event).
Proof.
  intros Hq Hf Hpool Hpre Hcb Hfin.
  destruct (some_through event pre _ _ Hpre) as [Hcb2 _].
  assert (Hex : EventBus_execute l event w2
    = Ret true (mkWorld h3 (callback w2) (logger w2)
                        (trace w2 ++ [Invoked l event]))).
  { rewrite execute_unfold, Hcb2. simpl. by rewrite Hcb, Hfin. }
  rewrite (publish_sorted_pool w this event _ Hf Hpool).
  rewrite (dispatch_halted this event pre post l (after_key event w) w2 _
             Hq Hpre Hex).
  eexists. split; [done|]. cbn [heap trace].
  assert (Hst : Event_status event (Event_finish event h3)
                = Event_status event h3) by (by rewrite status_finish, Hfin).
  split; [by rewrite <- app_assoc|]. split; [exact Hst|].
  split; [apply finish_reason|].
  intros Hown Hpend.
  pose proof (finish_promises event event h3) as H. cbv zeta in H.
  rewrite Hown, decide_True in H by done.
  by rewrite H, Hpend, Hst.
Qed.

Lemma listener_verdict_settles_promise_witness :
  (∃ w', EventBus_publish GLOBAL 0 (three_listeners stopper) = Ret tt w' ∧
     Event_status 0 (heap w') = STOPPED ∧
     Event_reason 0 (heap w') = Some "done"%string ∧
     promises (heap w') 0 = Resolved 0%nat) ∧
  (∃ w', EventBus_publish GLOBAL 0 (three_listeners vetoer) = Ret tt w' ∧
     Event_status 0 (heap w') = ABORTED ∧
     promises (heap w') 0 = Rejected (Some "veto"%string)).
Proof.
  split.
  - edestruct (listener_verdict_settles_promise (three_listeners stopper)
                 GLOBAL 0 [0%nat] [2%nat] 1)
      as (w' & Hpub & _ & Hst & Hre & Hprom);
      [intros e h; vm_compute; reflexivity
      | vm_compute; reflexivity | vm_compute; reflexivity
      | vm_compute; reflexivity | vm_compute; reflexivity
      | vm_compute; reflexivity |].
    exists w'. split; [exact Hpub|].
    split; [revert Hst; vm_compute; exact (λ H, H)|].
    split; [revert Hre; vm_compute; exact (λ H, H)|].
    etrans; [apply Hprom; vm_compute; reflexivity|].
    vm_compute. reflexivity.
  - edestruct (listener_verdict_settles_promise (three_listeners vetoer)
                 GLOBAL 0 [0%nat] [2%nat] 1)
      as (w' & Hpub & _ & Hst & _ & Hprom);
      [intros e h; vm_compute; reflexivity
      | vm_compute; reflexivity | vm_compute; reflexivity
      | vm_compute; reflexivity | vm_compute; reflexivity
      | vm_compute; reflexivity |].
    exists w'. split; [exact Hpub|].
    split; [revert Hst; vm_compute; exact (λ H, H)|].
    etrans; [apply Hprom; vm_compute; reflexivity|].
    vm_compute. reflexivity.
Defined.

(** X9: the log consumer.  When the chain has run, [publish] finishes
    the event and only then calls the log consumer of the bus, once,
    outside any [try]: the consumer sees the event finished and the promise
    of the resolver it holds settled, and [publish] ends as the consumer
    does, so an error thrown by the consumer escapes [publish]. *)
Theorem publish_ends_as_log_consumer (w : World) (this : BusId)
    (event : EvId) (sorted : list LId) :
  finished (Event_status event (heap w)) = false →
  sorted_pool this event (heap w) = Some sorted →
  ∃ b w0,
    some (λ l, EventBus_execute l event) sorted (after_key event w)
      = Ret b w0 ∧
    logger w0 = logger w ∧
    finished (Event_status event (heap (logged_world this event w0))) = true ∧
    promises (heap (logged_world this event w0))
             (resolver (events (heap (logged_world this event w0)) event))
      ≠ Pending ∧
    EventBus_publish this event w
    = match logger w this event (heap (logged_world this event w0)) with
      | Normal h =>
          Ret tt (mkWorld h (callback w0) (logger w0)
                          (trace w0 ++ [Logged this event]))
      | Throw x h =>
          Exc x (mkWorld h (callback w0) (logger w0)
                         (trace w0 ++ [Logged this event]))
      end.
Proof.
  intros Hf Hpool.
  rewrite (publish_sorted_pool w this event sorted Hf Hpool).
  destruct (some_execute_returns event sorted (after_key event w))
    as (b & w0 & n & Hrun & _).
  pose proof (some_logger _ _ _ _ _ Hrun) as Hlg. cbn [after_key logger] in Hlg.
  exists b, w0. split; [exact Hrun|]. split; [exact Hlg|].
  unfold logged_world. cbn [heap]. split; [|split].
  - rewrite status_finish.
    by destruct (finished (Event_status event (heap w0))) eqn:Hfin.
  - apply finish_settles.
  - unfold dispatch, bind at 1. rewrite Hrun.
    unfold bind at 1, modify_heap at 1.
    unfold EventBus_log, bind, output. cbn [logger heap callback trace].
    by rewrite Hlg.
Qed.

Lemma publish_ends_as_log_consumer_witness :
  let w := world_of (EventBus_logger GLOBAL failing_log (three_listeners noop)) in
  ∃ w', EventBus_publish GLOBAL 0 w = Exc (Raised (VStr "log failed")) w' ∧
        finished (Event_status 0 (heap w')) = true.
Proof.
  intros w.
  assert (Hf : finished (Event_status 0 (heap w)) = false)
    by (vm_compute; reflexivity).
  assert (Hpool : sorted_pool GLOBAL 0 (heap w) = Some [0%nat; 1%nat; 2%nat])
    by (vm_compute; reflexivity).
  assert (Hlog : logger w GLOBAL = failing_log) by (vm_compute; reflexivity).
  destruct (publish_ends_as_log_consumer w GLOBAL 0 _ Hf Hpool)
    as (b & w0 & _ & _ & Hfin & _ & Hpub).
  rewrite Hlog in Hpub. unfold failing_log in Hpub.
  eexists. split; [exact Hpub|]. exact Hfin.
Defined.

Lemma elem_of_take_sorted (h : Heap) (pool : list LId) (n : nat) (l : LId) :
  l ∈ take n (sort (λ a b, nice h a - nice h b) pool) → l ∈ pool.
Proof.
  intros Hin. apply (subseteq_take n) in Hin.
  by rewrite (sort_perm (nice h)) in Hin.
Qed.

(** X10: [publish()] of an event dispatches on the bus the event is bound
    to, the one [bus(b)] set last, and returns the promise the event holds
    after the dispatch.  The callbacks called are all those of listeners
    of the candidate pool of that bus: a listener that stands only on
    another bus is not called. *)
Theorem event_publish_uses_bound_bus (w : World) (e : EvId)
    (pool : list LId) :
  let b := Event_bus e (heap w) in
  let key := (Event_key e (heap w)).1 in
  let h1 := (Event_key e (heap w)).2 in
  quiet_logger w b →
  finished (Event_status e (heap w)) = false →
  candidate_pool b key h1 = Some pool →
  (∀ b' h, Event_bus e (Event_set_bus e b' h) = b') ∧
  ∃ w' called,
    Event_publish e w = Ret (Event_resolution e (heap w')) w' ∧
    invocations (trace w') = invocations (trace w) ++ called ∧
    (∀ l, l ∈ called → l ∈ pool) ∧
    finished (Event_status e (heap w')) = true.
Proof.
  intros b key h1 Hq Hf Hpool. split.
  { intros b' h. unfold Event_bus, Event_set_bus.
    by rewrite slot_set_slot, decide_True. }
  assert (Hsp : sorted_pool b e (heap w)
                = Some (sort (λ x y, nice h1 x - nice h1 y) pool)).
  { unfold sorted_pool. fold key h1 in Hpool.
    destruct (Event_key e (heap w)) as [k' h'] eqn:Hk.
    simpl in key, h1. subst key h1. by rewrite Hpool. }
  rewrite publish_of_event by exact Hf. fold (Event_bus e (heap w)). fold b.
  rewrite (publish_sorted_pool w b e _ Hf Hsp).
  destruct (dispatch_returns b e (sort (λ x y, nice h1 x - nice h1 y) pool)
              (after_key e w) Hq)
    as (halted & w1 & n & _ & Hinv & ->).
  eexists. exists (take n (sort (λ x y, nice h1 x - nice h1 y) pool)).
  split; [done|]. cbn [heap trace]. split; [|split].
  - rewrite invocations_app, Hinv. simpl. by rewrite app_nil_r.
  - intros l. apply elem_of_take_sorted.
  - rewrite status_finish.
    by destruct (finished (Event_status e (heap w1))) eqn:Hfin.
Qed.

Lemma event_publish_uses_bound_bus_witness :
  channels (buses (heap two_buses) GLOBAL) !! root = Some [0%nat] ∧
  Event_bus 0 (heap two_buses) = 1%nat ∧
  ∃ w', Event_publish 0 two_buses = Ret (Event_resolution 0 (heap w')) w' ∧
        invocations (trace w') = [].
Proof.
  split; [vm_compute; reflexivity|]. split; [vm_compute; reflexivity|].
  assert (Hq : quiet_logger two_buses (Event_bus 0 (heap two_buses))).
  { intros e h. vm_compute. reflexivity. }
  assert (Hf : finished (Event_status 0 (heap two_buses)) = false)
    by (vm_compute; reflexivity).
  assert (Hpool : candidate_pool (Event_bus 0 (heap two_buses))
                    (Event_key 0 (heap two_buses)).1
                    (Event_key 0 (heap two_buses)).2 = Some [])
    by (vm_compute; reflexivity).
  destruct (event_publish_uses_bound_bus two_buses 0 [] Hq Hf Hpool)
    as (_ & w' & called & Hpub & Hinv & Hsub & _).
  assert (called = []) as ->.
  { destruct called as [|l called]; [reflexivity|].
    destruct (not_elem_of_nil l (Hsub l (list_elem_of_here l called))). }
  exists w'. split; [exact Hpub|].
  revert Hinv. vm_compute. exact (λ H, H).
Defined.

(** X11: [new EventBus(name)] makes a bus with the root chain, an empty
    root channel and the default log consumer, and touches no other bus.
    Publishing an unfinished event on the new bus calls no listener and
    leaves the event FINISHED. *)
Theorem new_bus_publish_finishes (w : World) (n : string) (event : EvId) :
  only_Event_slot (heap w) →
  finished (Event_status event (heap w)) = false →
  ∃ w1 w2,
    EventBus_new n w = Ret (next_bus (heap w)) w1 ∧
    buses (heap w1) (next_bus (heap w))
      = mkBus n {[root := []]} {[root := [root]]} ∧
    (∀ b', b' ≠ next_bus (heap w) →
       buses (heap w1) b' = buses (heap w) b' ∧ logger w1 b' = logger w b') ∧
    EventBus_publish (next_bus (heap w)) event w1 = Ret tt w2 ∧
    invocations (trace w2) = invocations (trace w) ∧
    Event_status event (heap w2) = FINISHED.
Proof.
  intros Hs Hf. set (b := next_bus (heap w)).
  unfold EventBus_new, alloc_bus. fold b.
  set (w1 := mkWorld _ (callback w) (<[b := no_log]> (logger w)) (trace w)).
  assert (Hbus : buses (heap w1) b = mkBus n {[root := []]} {[root := [root]]}).
  { unfold w1. cbn [heap buses]. by rewrite fn_lookup_insert. }
  assert (Hq : quiet_logger w1 b).
  { intros e h. unfold w1. cbn [logger]. by rewrite fn_lookup_insert. }
  assert (Hs1 : only_Event_slot (heap w1)) by exact Hs.
  assert (Hf1 : finished (Event_status event (heap w1)) = false) by exact Hf.
  assert (Hkey : Event_key event (heap w1) = (root, heap w1)).
  { unfold Event_key. by rewrite key_static_root. }
  assert (Hsp : sorted_pool b event (heap w1) = Some []).
  { unfold sorted_pool, candidate_pool, channel_lists.
    rewrite Hkey, Hbus. cbn [hierarchy channels].
    rewrite lookup_singleton_eq. simpl. by rewrite lookup_singleton_eq. }
  assert (Hak : after_key event w1 = w1).
  { unfold after_key. rewrite Hkey. done. }
  exists w1. eexists. split; [done|]. split; [exact Hbus|]. split.
  { intros b' Hne. unfold w1. cbn [heap buses logger].
    by rewrite !fn_lookup_insert_ne. }
  rewrite (publish_sorted_pool w1 b event [] Hf1 Hsp), Hak.
  rewrite (dispatch_completed b event [] w1 w1 Hq eq_refl).
  split; [done|]. unfold logged_world. cbn [heap trace]. split.
  - rewrite invocations_app. simpl. by rewrite app_nil_r.
  - by rewrite status_finish, Hf1.
Qed.

Lemma new_bus_publish_finishes_witness :
  ∃ w1 w2,
    EventBus_new "second" (three_listeners noop) = Ret 1%nat w1 ∧
    EventBus_publish 1 0 w1 = Ret tt w2 ∧
    invocations (trace w2) = [] ∧
    Event_status 0 (heap w2) = FINISHED.
Proof.
  assert (Hs : only_Event_slot (heap (three_listeners noop))).
  { split; [by vm_compute|]. intros n s. by vm_compute. }
  assert (Hf : finished (Event_status 0 (heap (three_listeners noop))) = false)
    by (vm_compute; reflexivity).
  destruct (new_bus_publish_finishes (three_listeners noop) "second" 0 Hs Hf)
    as (w1 & w2 & Hnew & _ & _ & Hpub & Hinv & Hst).
  exists w1, w2. split; [exact Hnew|]. split; [exact Hpub|].
  split; [|exact Hst]. revert Hinv. vm_compute. exact (λ H, H).
Defined.

(** X12: [publish(event)] on a bus that has no chain for the key of the
    event throws a TypeError before any listener is called, before
    [finish] and before the log consumer: the event keeps its status, its
    delivery log and its pending promise, and nothing is put on the
    trace.  [publish()] of the event lets the error through. *)
Theorem publish_without_chain_throws (w : World) (this : BusId)
    (event : EvId) :
  finished (Event_status event (heap w)) = false →
  hierarchy (buses (Event_key event (heap w)).2 this)
    !! (Event_key event (heap w)).1 = None →
  EventBus_publish this event w = Exc TypeError (after_key event w) ∧
  events (heap (after_key event w)) = events (heap w) ∧
  promises (heap (after_key event w)) = promises (heap w) ∧
  trace (after_key event w) = trace w ∧
  (Event_bus event (heap w) = this →
   Event_publish event w = Exc TypeError (after_key event w)).
Proof.
  intros Hf Hnone.
  assert (Hpub : EventBus_publish this event w
                 = Exc TypeError (after_key event w)).
  { unfold EventBus_publish, bind at 1, get_heap at 1. rewrite Hf.
    unfold bind at 1, lift, after_key.
    destruct (Event_key event (heap w)) as [key h1]. cbn [fst snd] in *.
    unfold bind at 1, get_heap at 1. cbn [heap]. by rewrite Hnone. }
  split; [exact Hpub|]. split; [apply after_key_events|].
  split; [apply after_key_promises|]. split; [done|].
  intros Hbus. rewrite publish_of_event by exact Hf.
  unfold Event_bus in Hbus. by rewrite Hbus, Hpub.
Qed.

Lemma publish_without_chain_throws_witness :
  let w := world_of
             ((do _ <- EventBus_listen GLOBAL EventC "root" "sample" noop 0;
               lift (Event_new Child))
                (mkWorld own_slot_heap (λ _, noop) (λ _, no_log) [])) in
  channels (buses (heap w) GLOBAL) !! root = Some [0%nat] ∧
  Event_publish 0 w = Exc TypeError (after_key 0 w) ∧
  Event_status 0 (heap (after_key 0 w)) = RUNNING.
Proof.
  intros w.
  assert (Hf : finished (Event_status 0 (heap w)) = false)
    by (vm_compute; reflexivity).
  assert (Hnone : hierarchy (buses (Event_key 0 (heap w)).2 GLOBAL)
                    !! (Event_key 0 (heap w)).1 = None)
    by (vm_compute; reflexivity).
  destruct (publish_without_chain_throws w GLOBAL 0 Hf Hnone)
    as (_ & _ & _ & _ & Hev).
  split; [vm_compute; reflexivity|]. split; [|vm_compute; reflexivity].
  apply Hev. vm_compute. reflexivity.
Defined.

(** ** Event: with, parent and the promise *)

Lemma foldl_assign_frame (o : EventObj) (props : list Props) :
  state (foldl assign o props) = state o ∧
  class (foldl assign o props) = class o.
Proof.
  revert o. induction props as [|p props IH]; intros o; [done|].
  simpl. destruct (IH (assign o p)) as [-> ->]. done.
Qed.

Lemma assign_fields (o : EventObj) (p : Props) (f : string) :
  fields (assign o p) !! f
  = match p_fields p !! f with
    | Some v => Some v
    | None => fields o !! f
    end.
Proof.
  unfold assign. cbn [fields].
  destruct (p_fields p !! f) as [v|] eqn:Hp.
  - by apply lookup_union_Some_l.
  - by rewrite lookup_union_r.
Qed.

Lemma foldl_assign_absent (o : EventObj) (props : list Props) (f : string) :
  Forall (λ q, p_fields q !! f = None) props →
  fields (foldl assign o props) !! f = fields o !! f.
Proof.
  revert o. induction props as [|p props IH]; intros o Hall; [done|].
  apply Forall_cons in Hall as [Hp Hall]. simpl.
  rewrite IH by exact Hall. by rewrite assign_fields, Hp.
Qed.

(** X13: [with(...props)] assigns the own properties of the sources from
    left to right: a property of the event ends as the last source that
    has it says, and keeps its value when no source has it.  The sealed
    state of the event (status, reason, parent, depth, deliveries, bus)
    is out of reach of [with], and so are the other events and every
    promise. *)
Theorem with_last_source_wins (e : EvId) (props : list Props) (h : Heap) :
  let h' := Event_with e props h in
  (∀ e', slot h' e' = slot h e') ∧
  (∀ e', e' ≠ e → events h' e' = events h e') ∧
  promises h' = promises h ∧
  (∀ f ps p qs v,
     props = ps ++ p :: qs → p_fields p !! f = Some v →
     Forall (λ q, p_fields q !! f = None) qs →
     fields (events h' e) !! f = Some v) ∧
  (∀ f, Forall (λ q, p_fields q !! f = None) props →
        fields (events h' e) !! f = fields (events h e) !! f).
Proof.
  intros h'.
  assert (Hev : events h' e = foldl assign (events h e) props).
  { unfold h', Event_with, set_event. cbn [events].
    by rewrite fn_lookup_insert. }
  assert (Hother : ∀ e', e' ≠ e → events h' e' = events h e').
  { intros e' Hne. unfold h', Event_with, set_event. cbn [events].
    by rewrite fn_lookup_insert_ne. }
  split; [|split; [exact Hother|split; [done|split]]].
  - intros e'. unfold slot. destruct (decide (e' = e)) as [->|Hne].
    + rewrite Hev. apply foldl_assign_frame.
    + by rewrite Hother.
  - intros f ps p qs v -> Hp Hqs. rewrite Hev, foldl_app. simpl.
    rewrite foldl_assign_absent by exact Hqs.
    by rewrite assign_fields, Hp.
  - intros f Hall. rewrite Hev. by apply foldl_assign_absent.
Qed.

(** X14: [parent(p)] records [p] as the parent and sets the depth to the
    depth [p] has at that moment plus one; the rest of the state and the
    other events stay.  The depth is not kept up to date: when [p] gets a
    parent later, the depth of [p] changes and the depth of the child
    stays.  Nothing checks for cycles: [p] may take its own child as
    parent. *)
Theorem parent_sets_depth_once (e p q : EvId) (h : Heap) :
  e ≠ p →
  let h1 := Event_set_parent e p h in
  let h2 := Event_set_parent p q h1 in
  Event_parent e h1 = Some p ∧
  Event_depth e h1 = S (Event_depth p h) ∧
  Event_status e h1 = Event_status e h ∧
  Event_bus e h1 = Event_bus e h ∧
  Event_count e h1 = Event_count e h ∧
  (∀ e', e' ≠ e → events h1 e' = events h e') ∧
  Event_parent p h2 = Some q ∧
  Event_depth p h2 = S (Event_depth q h1) ∧
  Event_parent e h2 = Some p ∧
  Event_depth e h2 = S (Event_depth p h).
Proof.
  intros Hne h1 h2.
  assert (H1 : slot h1 e
               = mkState (status (slot h e)) (reason (slot h e)) (Some p)
                         (depth (slot h p) + 1) (deliveries (slot h e))
                         (bus (slot h e))).
  { unfold slot at 1, h1. rewrite set_parent_events.
    by rewrite decide_True. }
  assert (Hother : ∀ e', e' ≠ e → events h1 e' = events h e').
  { intros e' Hne'. unfold h1. rewrite set_parent_events.
    by rewrite decide_False. }
  assert (H2p : slot h2 p
                = mkState (status (slot h1 p)) (reason (slot h1 p)) (Some q)
                          (depth (slot h1 q) + 1) (deliveries (slot h1 p))
                          (bus (slot h1 p))).
  { unfold slot at 1, h2. rewrite set_parent_events.
    by rewrite decide_True. }
  assert (H2e : slot h2 e = slot h1 e).
  { unfold slot at 1, h2. rewrite set_parent_events.
    by rewrite decide_False. }
  unfold Event_parent, Event_depth, Event_status, Event_bus, Event_count.
  rewrite H2p, H2e, H1. cbn [parent depth status bus deliveries].
  repeat split; try done; try lia.
Qed.

Lemma parent_sets_depth_once_witness :
  Event_depth 0 (Event_set_parent 0 1 two_events) = 1%nat ∧
  Event_parent 0 (Event_set_parent 1 0 (Event_set_parent 0 1 two_events))
  = Some 1%nat ∧
  Event_parent 1 (Event_set_parent 1 0 (Event_set_parent 0 1 two_events))
  = Some 0%nat ∧
  Event_depth 1 (Event_set_parent 1 0 (Event_set_parent 0 1 two_events))
  = 2%nat ∧
  Event_depth 0 (Event_set_parent 1 0 (Event_set_parent 0 1 two_events))
  = 1%nat.
Proof.
  assert (Hne : (0 ≠ 1)%nat) by lia.
  destruct (parent_sets_depth_once 0 1 0 two_events Hne)
    as (_ & Hd & _ & _ & _ & _ & Hpp & Hdp & Hpe & Hde).
  split; [exact Hd|]. split; [exact Hpe|]. split; [exact Hpp|].
  split; [exact Hdp|exact Hde].
Defined.

Lemma apply_op_settled (e p : EvId) (op : Op) (h : Heap) :
  promises h p ≠ Pending → promises (apply_op e h op) p = promises h p.
Proof.
  intros Hp. destruct op as [|r|r]; cbn [apply_op];
    [|done|by rewrite abort_promises].
  rewrite finish_promises. case_decide as Hr; [|done]. subst p.
  by destruct (promises h (resolver (events h e))).
Qed.

(** X15: a promise that is settled stays as it is: no [finish], [stop] or
    [abort], of its own event or of another, in any number and order,
    changes it.  The status is not protected in the same way, so an
    event can end ABORTED with a promise that resolved. *)
Theorem settled_promise_is_final (h : Heap) (p : EvId)
    (ops : list (EvId * Op)) :
  promises h p ≠ Pending →
  promises (apply_ops h ops) p = promises h p.
Proof.
  unfold apply_ops. revert h.
  induction ops as [|[e op] ops IH]; intros h Hp; [done|].
  simpl. rewrite IH.
  - by apply apply_op_settled.
  - by rewrite apply_op_settled.
Qed.

Lemma settled_promise_is_final_witness :
  let h := Event_finish 0 two_events in
  let h' := apply_ops h [(0%nat, Abort None); (1%nat, Finish); (0%nat, Finish)] in
  promises h' 0%nat = Resolved 0%nat ∧ Event_status 0 h' = ABORTED.
Proof.
  intros h h'. split; [|vm_compute; reflexivity].
  etrans; [apply settled_promise_is_final|]; [|vm_compute; reflexivity].
  vm_compute. discriminate.
Defined.

(** ** The registry, call after call *)

Lemma publish_ready_intro (b : BusId) (h : Heap) :
  only_Event_slot h → registry_ok h → bus_rooted h b → publish_ready b h.
Proof.
  intros Hs Hr Hb. split; [exact Hs|]. split; [exact Hr|].
  split; [exact Hb|]. destruct Hb as [Hh [ch Hch]].
  intros e. unfold sorted_pool, Event_key.
  rewrite key_static_root by exact Hs.
  unfold candidate_pool, channel_lists. rewrite Hh. simpl.
  rewrite Hch. simpl. by eexists.
Qed.

Lemma alloc_bus_registry (n : string) (h : Heap) :
  registry_ok h → registry_ok (alloc_bus n h).2.
Proof.
  intros [Hnd Hc]. split.
  - intros b k ch. unfold alloc_bus. cbn [snd buses].
    destruct (decide (b = next_bus h)) as [->|Hne].
    + rewrite fn_lookup_insert. cbn [channels].
      intros [_ <-]%lookup_singleton_Some. constructor.
    + rewrite fn_lookup_insert_ne by done. apply Hnd.
  - intros b k k' chain. unfold alloc_bus. cbn [snd buses].
    destruct (decide (b = next_bus h)) as [->|Hne].
    + rewrite fn_lookup_insert. cbn [channels hierarchy].
      intros [_ <-]%lookup_singleton_Some ->%list_elem_of_singleton.
      by rewrite lookup_singleton_eq.
    + rewrite fn_lookup_insert_ne by done. apply Hc.
Qed.

Lemma alloc_bus_rooted (n : string) (b : BusId) (h : Heap) :
  bus_rooted h b → bus_rooted (alloc_bus n h).2 b.
Proof.
  intros Hb. destruct (decide (b = next_bus h)) as [->|Hne].
  - apply bus_rooted_new.
  - unfold bus_rooted, alloc_bus. cbn [snd buses].
    by rewrite fn_lookup_insert_ne.
Qed.

Lemma subscribe_keeps_ready (w : World) (this b : BusId) (type : Class)
    (l : LId) :
  bus_rooted (heap w) this → publish_ready b (heap w) →
  leaves (publish_ready b) (EventBus_subscribe this type l w).
Proof.
  intros Hthis (Hs & [Hnd Hc] & Hb & _).
  pose proof (subscribe_keeps_rooted w this b type l Hs Hthis Hb) as H1.
  pose proof (subscribe_channels_nodup w this type l Hnd) as H2.
  pose proof (subscribe_chains w this type l Hc) as H3.
  destruct (EventBus_subscribe this type l w) as [[] w'|x w'|]; [| |done];
    destruct H1 as [Hs' Hb']; by apply publish_ready_intro.
Qed.

(** X16: the calls that build the registry keep a bus ready for
    [publish].  On a bus made by the constructor, with the key slot of
    [Event] as Event.ts declares it, [subscribe], [unsubscribe], [listen]
    and [new EventBus], on this or on another bus and whether they return
    or throw, leave every channel free of duplicates, a channel for every
    key of every chain, and the root chain in place; so [publish] finds
    the pool of every event, and never fails for want of a chain or a
    channel.  The bus [new EventBus] makes is ready as well. *)
Theorem registry_calls_keep_bus_ready (w : World) (this b : BusId)
    (type : Class) (l : LId) (n o : string) (cb : EventConsumer) (z : Z) :
  bus_rooted (heap w) this →
  publish_ready b (heap w) →
  leaves (publish_ready b) (EventBus_subscribe this type l w) ∧
  leaves (publish_ready b) (EventBus_unsubscribe this l w) ∧
  leaves (publish_ready b) (EventBus_listen this type n o cb z w) ∧
  leaves (λ h, publish_ready b h ∧ publish_ready (next_bus (heap w)) h)
         (EventBus_new n w).
Proof.
  intros Hthis Hready. split; [by apply subscribe_keeps_ready|].
  destruct Hready as (Hs & [Hnd Hc] & Hb & Hpool).
  split; [|split].
  - pose proof (unsubscribe_keeps w this b l) as H1.
    pose proof (unsubscribe_chains w this l Hc) as H2.
    destruct (EventBus_unsubscribe this l w) as [[] w'|x w'|]; [| |done];
      destruct H1 as (Hs' & Hb' & Hnd');
      apply publish_ready_intro; auto; split; auto.
  - unfold EventBus_listen, bind at 1, EventListener_new.
    case_bool_decide as Hz; [by apply publish_ready_intro|].
    unfold bind at 1, modify_heap at 1. cbn [heap callback logger trace].
    set (w2 := mkWorld _ _ (logger w) (trace w)).
    assert (Hr2 : publish_ready b (heap w2)).
    { apply publish_ready_intro; [exact Hs|by split|exact Hb]. }
    assert (Hthis2 : bus_rooted (heap w2) this) by exact Hthis.
    pose proof (subscribe_keeps_ready w2 this b type (next_listener (heap w))
                  Hthis2 Hr2) as H.
    unfold bind at 1.
    by destruct (EventBus_subscribe this type _ w2) as [[] w'|x w'|].
  - unfold EventBus_new, leaves.
    destruct (alloc_bus n (heap w)) as [b' h'] eqn:Ha. cbn [heap].
    assert (h' = (alloc_bus n (heap w)).2) as -> by (by rewrite Ha).
    split; apply publish_ready_intro;
      first [exact Hs | by apply alloc_bus_registry
            | by apply alloc_bus_rooted | apply bus_rooted_new].
Qed.

Lemma registry_calls_keep_bus_ready_witness :
  leaves (publish_ready GLOBAL)
         (EventBus_listen GLOBAL Child "n" "o" noop 5 initial_world) ∧
  leaves (publish_ready GLOBAL)
         (EventBus_unsubscribe GLOBAL 3 initial_world) ∧
  leaves (λ h, publish_ready GLOBAL h ∧ publish_ready 1 h)
         (EventBus_new "second" initial_world).
Proof.
  assert (Hr : registry_ok (heap initial_world)).
  { split; [apply channels_nodup_initial|apply chains_have_channels_initial]. }
  assert (Hb : bus_rooted (heap initial_world) GLOBAL).
  { split; [vm_compute; reflexivity|]. eexists. vm_compute. reflexivity. }
  assert (Hs : only_Event_slot (heap initial_world)).
  { split; [vm_compute; reflexivity|]. intros n s. vm_compute. reflexivity. }
  destruct (registry_calls_keep_bus_ready initial_world GLOBAL GLOBAL Child 3
              "n" "o" noop 5 Hb (publish_ready_intro _ _ Hs Hr Hb))
    as (_ & Hu & Hl & _).
  destruct (registry_calls_keep_bus_ready initial_world GLOBAL GLOBAL Child 3
              "second" "o" noop 5 Hb (publish_ready_intro _ _ Hs Hr Hb))
    as (_ & _ & _ & Hn).
  split; [exact Hl|]. split; [exact Hu|exact Hn].
Defined.

(** ** The type a listener subscribes to *)

(** X17: the type given to [subscribe] does not select events.  With the
    key slot of [Event] as Event.ts declares it, every class answers
    [key()] with the root key, so a subscription to any type lands in the
    root channel, no chain is ever computed, and the candidate pool of
    every event, of whatever class, is the root channel of the bus: a
    listener subscribed to a subtype is a candidate for plain [Event]s
    and for events of unrelated types as well. *)
Theorem subscription_type_is_ignored (w : World) (this : BusId)
    (type : Class) (l : LId) (ch : list LId) :
  only_Event_slot (heap w) →
  bus_rooted (heap w) this →
  channels (buses (heap w) this) !! root = Some ch →
  l ∉ ch →
  ∃ w', EventBus_subscribe this type l w = Ret tt w' ∧
    (∀ b, hierarchy (buses (heap w') b) = hierarchy (buses (heap w) b)) ∧
    statics (heap w') = statics (heap w) ∧
    ∀ e, candidate_pool this (Event_key e (heap w')).1
                        (Event_key e (heap w')).2 = Some (ch ++ [l]).
Proof.
  intros Hs Hb Hch Hnin.
  destruct (subscribe_rooted w this type l Hs Hb) as (ch' & Hch' & ->).
  rewrite Hch in Hch'. injection Hch' as <-.
  rewrite bool_decide_eq_false_2 by exact Hnin.
  eexists. split; [done|]. cbn [heap].
  set (h' := push_channel l root _).
  assert (Hh : ∀ b, hierarchy (buses h' b) = hierarchy (buses (heap w) b)).
  { intros b. unfold h', push_channel, set_listener. cbn [buses].
    apply hierarchy_set_channels. }
  assert (Hs' : only_Event_slot h') by exact Hs.
  assert (Hroot : channels (buses h' this) !! root = Some (ch ++ [l])).
  { unfold h', push_channel, set_listener. cbn [buses].
    by rewrite channels_set_channels, decide_True. }
  split; [exact Hh|]. split; [done|]. clearbody h'. intros e.
  unfold Event_key. rewrite key_static_root by exact Hs'. cbn [fst snd].
  unfold candidate_pool, channel_lists. rewrite Hh.
  destruct Hb as [-> _]. simpl. rewrite Hroot. simpl.
  by rewrite app_nil_r.
Qed.

Lemma subscription_type_is_ignored_witness :
  let w := world_of ((do _ <- lift (Event_new EventC);
                      EventListener_new noop DEFAULT) initial_world) in
  ∃ w', EventBus_subscribe GLOBAL (Extends 2 Child) 0 w = Ret tt w' ∧
    class (events (heap w') 0) = EventC ∧
    candidate_pool GLOBAL (Event_key 0 (heap w')).1 (Event_key 0 (heap w')).2
    = Some [0%nat].
Proof.
  intros w.
  assert (Hs : only_Event_slot (heap w)).
  { split; [vm_compute; reflexivity|]. intros n s. vm_compute. reflexivity. }
  assert (Hb : bus_rooted (heap w) GLOBAL).
  { split; [vm_compute; reflexivity|]. eexists. vm_compute. reflexivity. }
  assert (Hch : channels (buses (heap w) GLOBAL) !! root = Some [])
    by (vm_compute; reflexivity).
  destruct (subscription_type_is_ignored w GLOBAL (Extends 2 Child) 0 []
              Hs Hb Hch (not_elem_of_nil 0%nat))
    as (w' & Hsub & _ & _ & Hpool).
  exists w'. split; [exact Hsub|]. split; [|exact (Hpool 0%nat)].
  revert Hsub. vm_compute. intros [= <-]. reflexivity.
Defined.

(** ** The key of a type, query after query *)

Lemma static_slot_insert_keeps (st : Ctor → option Sym) (c : Ctor)
    (k k' : Sym) (cl : Class) :
  read_key_slot st c = None →
  static_slot st cl = Some k' →
  static_slot (<[c := Some k]> st) cl = Some k'.
Proof.
  intros Hc. induction cl as [|n s IH]; simpl; intros Hcl.
  - destruct (st (Cls EventC)) as [k0|] eqn:HE; [|done].
    rewrite fn_lookup_insert_ne; [by rewrite HE|].
    intros ->. simpl in Hc. by rewrite HE in Hc.
  - assert (Hne : c ≠ Cls (Extends n s)).
    { intros ->. simpl in Hc. by rewrite Hc in Hcl. }
    rewrite fn_lookup_insert_ne by exact Hne.
    destruct (st (Cls (Extends n s))) as [k0|]; [done|]. by apply IH.
Qed.

Lemma read_key_slot_insert_keeps (st : Ctor → option Sym) (c c' : Ctor)
    (k k' : Sym) :
  read_key_slot st c = None →
  read_key_slot st c' = Some k' →
  read_key_slot (<[c := Some k]> st) c' = Some k'.
Proof.
  intros Hc Hc'. destruct c' as [|cl]; simpl in *.
  - rewrite fn_lookup_insert_ne; [done|]. intros ->. simpl in Hc.
    by rewrite Hc in Hc'.
  - by apply static_slot_insert_keeps.
Qed.

(** X18: [key()] assigns at most once.  Asking a constructor for its key
    a second time returns the same key and changes nothing; a key that a
    constructor answers with (its own or one found along the classes it
    extends) is still its answer after any other constructor was asked;
    a key that has to be made is the symbol the counter of [Symbol()]
    gives next.  Events, promises, listeners and buses are not
    touched. *)
Theorem key_is_assigned_once (c c' : Ctor) (h : Heap) :
  let k := (Event_key_static c h).1 in
  let h1 := (Event_key_static c h).2 in
  Event_key_static c h1 = (k, h1) ∧
  (∀ k', read_key_slot (statics h) c' = Some k' →
         Event_key_static c' h1 = (k', h1)) ∧
  (read_key_slot (statics h) c = None →
   k = next_symbol h ∧ next_symbol h1 = N.succ k) ∧
  events h1 = events h ∧ promises h1 = promises h ∧
  listeners h1 = listeners h ∧ buses h1 = buses h.
Proof.
  intros k h1. split; [|split; [|split]].
  - pose proof (key_static_stable c h) as Hst. fold k h1 in Hst.
    unfold Event_key_static at 1. by rewrite Hst.
  - intros k' Hk'. unfold Event_key_static at 1.
    assert (read_key_slot (statics h1) c' = Some k') as ->; [|done].
    unfold h1, Event_key_static.
    destruct (read_key_slot (statics h) c) eqn:Hc; [done|].
    cbn [snd set_statics statics].
    by apply read_key_slot_insert_keeps.
  - intros Hc. unfold k, h1, Event_key_static. by rewrite Hc.
  - unfold h1, Event_key_static.
    by destruct (read_key_slot (statics h) c).
Qed.

(** ** calculate *)

Lemma key_static_keeps_slot (c c0 : Ctor) (k0 : Sym) (h : Heap) :
  statics h c0 = Some k0 → statics (Event_key_static c h).2 c0 = Some k0.
Proof.
  intros H0. unfold Event_key_static.
  destruct (read_key_slot (statics h) c) eqn:Hc; [done|].
  cbn [snd set_statics statics]. rewrite fn_lookup_insert_ne; [done|].
  intros ->. destruct c0 as [|[|n s]]; simpl in Hc; by rewrite H0 in Hc.
Qed.

Lemma record_chain_returns (this : BusId) (key superKey : Sym)
    (chain : list Sym) (w : World) :
  hierarchy (buses (heap w) this) !! superKey = Some chain →
  ∃ w',
    (do h <- get_heap;
     match hierarchy (buses h this) !! superKey with
     | None => throw TypeError
     | Some chain =>
         run modify_heap (set_hierarchy this key (chain ++ [key]));
         do h <- get_heap;
         match channels (buses h this) !! key with
         | Some _ => ret tt
         | None => modify_heap (set_channels this key [])
         end
     end) w = Ret tt w' ∧
    hierarchy (buses (heap w') this) !! key = Some (chain ++ [key]) ∧
    (∀ k, k ≠ key → hierarchy (buses (heap w') this) !! k
                    = hierarchy (buses (heap w) this) !! k) ∧
    statics (heap w') = statics (heap w) ∧
    trace w' = trace w.
Proof.
  intros Hs. unfold bind at 1, get_heap at 1. rewrite Hs.
  unfold bind at 1, modify_heap at 1. unfold bind at 1, get_heap at 1.
  cbn [heap].
  destruct (channels _ !! key) eqn:Hck; unfold ret, modify_heap; cbn [heap];
    eexists; (split; [done|]); cbn [heap trace];
    rewrite ?hierarchy_set_channels;
    (split; [by rewrite hierarchy_set_hierarchy, decide_True|]);
    (split; [|done]); intros k Hne;
    rewrite ?hierarchy_set_channels, hierarchy_set_hierarchy;
    rewrite decide_False; [done| |done|]; by intros [_ ?].
Qed.

Lemma calculate_class_returns (c : Class) (this : BusId) (kE : Sym) :
  ∀ w : World,
  statics (heap w) (Cls EventC) = Some kE →
  is_Some (hierarchy (buses (heap w) this) !! kE) →
  ∃ w',
    EventBus_calculate_class this (Event_key_static (Cls c) (heap w)).1 c
      (mkWorld (Event_key_static (Cls c) (heap w)).2 (callback w) (logger w)
               (trace w)) = Ret tt w' ∧
    is_Some (hierarchy (buses (heap w') this)
               !! (Event_key_static (Cls c) (heap w)).1) ∧
    statics (heap w') (Cls EventC) = Some kE ∧
    (∀ k chain, hierarchy (buses (heap w) this) !! k = Some chain →
                hierarchy (buses (heap w') this) !! k = Some chain) ∧
    trace w' = trace w.
Proof.
  induction c as [|n s IH]; intros w HE [chE HchE].
  - assert (Hk : Event_key_static (Cls EventC) (heap w) = (kE, heap w)).
    { unfold Event_key_static. simpl. by rewrite HE. }
    rewrite Hk. cbn [fst snd]. simpl. unfold bind at 1, get_heap at 1.
    cbn [heap]. rewrite HchE. unfold ret. eexists. split; [done|].
    cbn [heap trace]. split; [by eexists|]. done.
  - destruct (Event_key_static (Cls (Extends n s)) (heap w))
      as [key h1] eqn:Hk.
    cbn [fst snd].
    assert (Hb1 : buses h1 = buses (heap w)).
    { by rewrite <- (key_static_buses (Cls (Extends n s)) (heap w)), Hk. }
    assert (HE1 : statics h1 (Cls EventC) = Some kE).
    { pose proof (key_static_keeps_slot (Cls (Extends n s)) (Cls EventC) kE
                    (heap w) HE) as H.
      by rewrite Hk in H. }
    simpl. unfold bind at 1, get_heap at 1. cbn [heap].
    destruct (hierarchy (buses h1 this) !! key) as [ch0|] eqn:Hkey.
    { unfold ret. eexists. split; [done|]. cbn [heap trace].
      rewrite Hb1. rewrite Hb1 in Hkey. split; [by eexists|]. done. }
    unfold bind at 1, lift. cbn [heap callback logger trace].
    set (w1 := mkWorld h1 (callback w) (logger w) (trace w)).
    assert (HchE1 : is_Some (hierarchy (buses (heap w1) this) !! kE)).
    { unfold w1. cbn [heap]. rewrite Hb1. by eexists. }
    destruct (IH w1 HE1 HchE1) as (w2 & Hrun & Hsome & HE2 & Hkeep & Htr).
    unfold w1 in Hrun, Hsome, Hkeep, Htr.
    cbn [heap callback logger trace] in Hrun, Hsome, Hkeep, Htr.
    destruct (Event_key_static (Cls s) h1) as [sk h2] eqn:Hsk.
    cbn [fst snd] in Hrun, Hsome.
    assert (Hb2 : buses h2 = buses h1).
    { by rewrite <- (key_static_buses (Cls s) h1), Hsk. }
    unfold bind at 1, get_heap at 1. cbn [heap]. unfold bind at 1.
    destruct (hierarchy (buses h2 this) !! sk) as [chs|] eqn:Hs.
    + unfold ret.
      destruct (record_chain_returns this key sk chs
                  (mkWorld h2 (callback w) (logger w) (trace w)) Hs)
        as (w' & Heq & Hnew & Hold & Hst & Htr').
      cbn [heap trace] in Hold, Hst, Htr'.
      exists w'. split; [exact Heq|]. split; [by eexists|]. split.
      { rewrite Hst.
        pose proof (key_static_keeps_slot (Cls s) (Cls EventC) kE h1 HE1) as H.
        by rewrite Hsk in H. }
      split; [|done]. intros k chain Hkc. rewrite Hold.
      * by rewrite Hb2, Hb1.
      * intros ->. rewrite <- Hb1, Hkey in Hkc. done.
    + rewrite Hrun. destruct Hsome as [chs Hchs].
      destruct (record_chain_returns this key sk chs w2 Hchs)
        as (w' & Heq & Hnew & Hold & Hst & Htr').
      exists w'. split; [exact Heq|]. split; [by eexists|]. split.
      { by rewrite Hst. }
      split; [|by rewrite Htr']. intros k chain Hkc. rewrite Hold.
      * apply Hkeep. by rewrite Hb1.
      * intros ->. rewrite <- Hb1, Hkey in Hkc. done.
Qed.

(** X19: [calculate(key, type)], called as [subscribe] calls it, with
    the key [type] answers with, on a bus that has a chain for the key of
    [Event].  The walk up the extended classes ends at the latest at
    [Event]: the call returns and never reaches [Object].  Every chain
    the bus had is kept, no existing channel is changed and new channels
    are empty, and nothing is put on the trace.  When the key had no
    chain, its chain is now a chain followed by the key itself, which is
    the chain of the key of the extended class when the two keys differ,
    and the key has a channel. *)
Theorem calculate_walk_ends_at_Event (c : Class) (this : BusId) (kE : Sym)
    (w : World) :
  statics (heap w) (Cls EventC) = Some kE →
  is_Some (hierarchy (buses (heap w) this) !! kE) →
  chains_have_channels (heap w) →
  let key := (Event_key_static (Cls c) (heap w)).1 in
  let w1 := mkWorld (Event_key_static (Cls c) (heap w)).2 (callback w)
                    (logger w) (trace w) in
  let superKey :=
    (Event_key_static
       match c with EventC => ObjectC | Extends _ s => Cls s end
       (heap w1)).1 in
  ∃ w', EventBus_calculate this key (Cls c) w1 = Ret tt w' ∧
    (∀ k chain, hierarchy (buses (heap w) this) !! k = Some chain →
                hierarchy (buses (heap w') this) !! k = Some chain) ∧
    channels_grow (heap w) (heap w') ∧
    chains_have_channels (heap w') ∧
    trace w' = trace w ∧
    (hierarchy (buses (heap w) this) !! key = None →
     ∃ chain,
       hierarchy (buses (heap w') this) !! key = Some (chain ++ [key]) ∧
       (superKey ≠ key →
        hierarchy (buses (heap w') this) !! superKey = Some chain) ∧
       is_Some (channels (buses (heap w') this) !! key)).
Proof.
  intros HE HchE Hc key w1 superKey.
  destruct (calculate_class_returns c this kE w HE HchE)
    as (w' & Hrun & _ & _ & Hkeep & Htr).
  fold key w1 in Hrun.
  assert (Hb1 : buses (heap w1) = buses (heap w)).
  { unfold w1. cbn [heap]. apply key_static_buses. }
  assert (Hc1 : chains_have_channels (heap w1)).
  { by apply (chains_have_channels_buses (heap w)). }
  pose proof (calculate_class_channels c this key w1) as Hgrow.
  pose proof (calculate_class_chains c this key w1 Hc1) as Hc'.
  rewrite Hrun in Hgrow, Hc'.
  exists w'. split; [exact Hrun|]. split; [exact Hkeep|]. split.
  { intros b k ch Hch. destruct (Hgrow b k ch Hch) as [Hold| ->]; [|by right].
    left. by rewrite <- Hb1. }
  split; [exact Hc'|]. split; [exact Htr|]. intros Hnone.
  assert (Hnone1 : hierarchy (buses (heap w1) this) !! key = None).
  { by rewrite Hb1. }
  destruct (calculate_class_chain c this key w1 w' Hnone1 Hrun)
    as (chain & Hchain & Hsuper).
  exists chain. split; [exact Hchain|]. split; [exact Hsuper|].
  apply (Hc' this key key (chain ++ [key]) Hchain).
  apply elem_of_app. right. by apply list_elem_of_singleton.
Qed.

Lemma calculate_walk_ends_at_Event_witness :
  let w := mkWorld own_slot_heap (λ _, noop) (λ _, no_log) [] in
  ∃ w', EventBus_calculate GLOBAL 1%N (Cls Child) w = Ret tt w' ∧
    hierarchy (buses (heap w') GLOBAL) !! 1%N = Some [root; 1%N] ∧
    channels (buses (heap w') GLOBAL) !! 1%N = Some [].
Proof.
  intros w.
  assert (HE : statics (heap w) (Cls EventC) = Some root)
    by (vm_compute; reflexivity).
  assert (HchE : is_Some (hierarchy (buses (heap w) GLOBAL) !! root)).
  { eexists. vm_compute. reflexivity. }
  assert (Hc : chains_have_channels (heap w)).
  { apply (chains_have_channels_buses initial_heap); [reflexivity|].
    apply chains_have_channels_initial. }
  destruct (calculate_walk_ends_at_Event Child GLOBAL root w HE HchE Hc)
    as (w' & Hrun & _ & _ & _ & _ & _).
  exists w'. split; [exact Hrun|].
  revert Hrun. vm_compute. intros [= <-]. split; reflexivity.
Defined.
